(** * vocal-couch: the real-time pitch-estimation and note-matching engine

    A shallow embedding of
    - [src/utils/musicUtils.ts]      (module [Music]),
    - [src/utils/pitchDetection.ts]  (module [PitchDetector]),
    - the analysis tick of [MicrophoneAnalyzer.startAnalysis]
      (module [Analyzer]),
    - the callers in [src/App.tsx] and [src/components/PianoKeyboard.tsx]
      (modules [App], [PianoKeyboard]),
    - the text format of songs, [exportSongToText] and [parseTextToSong],
      and [transposeKey] (modules [Str], [SongText], [Key]),
    followed by the properties of the specification that concern them and
    by further properties of the code.

    Numbers.  A JavaScript number is an IEEE-754 double.  Every finite double
    is a rational, so finite numbers are modelled as exact rationals [Q];
    the rounding of the individual operations is not modelled.  Where a
    result depends on that rounding the statements keep a margin: the
    times of the text format are compared to the millisecond, away from
    the fractions at which a rounded product decides.  The values
    [Infinity], [-Infinity] and [NaN] are modelled explicitly (type [num])
    at the places where the code can produce or test them; module [Range]
    follows [centsToNearestOctave] where the quotient of the two
    frequencies overflows or underflows.  MIDI pitches and
    millisecond timestamps are integers ([Z]).  The functions [Math.sqrt],
    [Math.log2] and [Math.pow], which ECMAScript leaves
    implementation-approximated, are an interface ([MathLib]); the theorems
    hold for every implementation of it. *)

From Stdlib Require Import ZArith QArith Qabs Qminmax Qround Qpower.
From Stdlib Require Import List Ascii String Bool Lia Lqa Sorted.
From Stdlib Require Import DecimalString DecimalPos.
Import ListNotations.
Local Open Scope Q_scope.

(* ================================================================== *)
(** * JavaScript numbers *)

Module JS.

Inductive num : Type :=
| Fin (q : Q)
| PInf
| NInf
| NaN.

Definition isFinite (x : num) : bool :=
  match x with Fin _ => true | _ => false end.

Definition Qlt_bool (a b : Q) : bool := negb (Qle_bool b a).

(** [x < y]; any comparison with [NaN] is false. *)
Definition ltb (x y : num) : bool :=
  match x, y with
  | NaN, _ | _, NaN => false
  | Fin a, Fin b => Qlt_bool a b
  | NInf, NInf => false
  | NInf, _ => true
  | _, PInf => match x with PInf => false | _ => true end
  | _, _ => false
  end.

(** [x <= y] *)
Definition leb (x y : num) : bool :=
  match x, y with
  | NaN, _ | _, NaN => false
  | Fin a, Fin b => Qle_bool a b
  | NInf, _ => true
  | _, PInf => true
  | _, _ => false
  end.

Definition gtb (x y : num) : bool := ltb y x.
Definition geb (x y : num) : bool := leb y x.

(** [a / b] on finite operands: division by zero leaves the finite
    numbers (the sign of a zero divisor is not modelled). *)
Definition div (a b : Q) : num :=
  if Qeq_bool b 0 then
    if Qeq_bool a 0 then NaN else if Qlt_bool 0 a then PInf else NInf
  else Fin (a / b).

(** [Math.round]: the nearest integer, halves towards +Infinity. *)
Definition round (x : Q) : Z := Qfloor (x + (1 # 2)).

(** The remainder operator [%] on integers truncates towards zero:
    the result takes the sign of the dividend. *)
Definition rem (a b : Z) : Z := Z.rem a b.

(** What a tick can throw: reading a property of [undefined]. *)
Inductive exn : Type := TypeError.

Inductive result (A : Type) : Type :=
| Ok (a : A)
| Throw (e : exn).
Arguments Ok {A} a.
Arguments Throw {A} e.

Definition bind {A B} (r : result A) (k : A -> result B) : result B :=
  match r with Ok a => k a | Throw e => Throw e end.

End JS.

Notation "x <- r ;; k" := (JS.bind r (fun x => k))
  (at level 61, r at next level, right associativity).

(* ================================================================== *)
(** * The implementation-approximated part of [Math] *)

Class MathLib : Type := {
  Msqrt : Q -> Q;            (* Math.sqrt on a finite argument >= 0 *)
  Mlog2 : Q -> Q;            (* Math.log2 on a finite argument > 0  *)
  Mpow  : Q -> Q -> Q        (* Math.pow on a finite positive base  *)
}.

(** [Math.sqrt(0)] is [0]: ECMAScript requires it of every implementation. *)
Definition sqrt_exact_at_zero (M : MathLib) : Prop :=
  forall q, q == 0 -> Msqrt q == 0.

(** A reference implementation, used to run the model on concrete inputs.
    It works in binary fixed point with 60 fractional bits and is exact
    where the result is an integer power of two. *)
Module RefMath.

Definition ONE : Z := 2 ^ 60.

Definition sqrt (q : Q) : Q :=
  if Qle_bool q 0 then 0
  else Qmake (Z.sqrt (Qfloor (q * inject_Z ONE))) (2 ^ 30).

(** Binary logarithm of a mantissa [m] in [[ONE, 2*ONE)], bit by bit:
    squaring the mantissa doubles the logarithm. *)
Fixpoint log2_frac (k : nat) (m w acc : Z) : Z :=
  match k with
  | O => acc
  | S k' =>
      let m2 := ((m * m) / ONE)%Z in
      if (2 * ONE <=? m2)%Z
      then log2_frac k' (m2 / 2)%Z (w / 2)%Z (acc + w)%Z
      else log2_frac k' m2 (w / 2)%Z acc
  end.

Definition log2 (q : Q) : Q :=
  let n := Qnum q in
  let d := Zpos (Qden q) in
  let e0 := (Z.log2 n - Z.log2 d)%Z in
  let m0 := (if 0 <=? e0 then (n * ONE) / (d * 2 ^ e0)
             else (n * 2 ^ (- e0) * ONE) / d)%Z in
  let e := (if m0 <? ONE then e0 - 1 else e0)%Z in
  let m := (if m0 <? ONE then 2 * m0 else m0)%Z in
  inject_Z e + Qmake (log2_frac 52 m (ONE / 2)%Z 0%Z) (2 ^ 60).

(** [2^f] for [f] in [[0,1)]: the product of the roots [2^(2^-i)]
    selected by the binary digits of [f]. *)
Fixpoint pow2_frac (k : nat) (f : Q) (r acc : Z) : Z :=
  match k with
  | O => acc
  | S k' =>
      let f2 := Qred (2 * f) in
      let r' := Z.sqrt (r * ONE) in
      if Qle_bool 1 f2
      then pow2_frac k' (Qred (f2 - 1)) r' ((acc * r) / ONE)%Z
      else pow2_frac k' f2 r' acc
  end.

Definition pow2 (x : Q) : Q :=
  let n := Qfloor x in
  let f := Qred (x - inject_Z n) in
  Qred (Qmake (pow2_frac 52 f (Z.sqrt (2 * ONE * ONE)) ONE) (2 ^ 60)
        * Qpower 2 n).

Definition pow (b e : Q) : Q := pow2 (e * log2 b).

End RefMath.

#[export] Instance ref_math : MathLib := {
  Msqrt := RefMath.sqrt;
  Mlog2 := RefMath.log2;
  Mpow := RefMath.pow
}.

(* ================================================================== *)
(** * Data model ([src/types]) *)

Module Note.
Record t : Type := mk {
  id : string;
  time : Q;                 (* start time in seconds *)
  duration : Q;             (* duration in seconds *)
  pitch : Z;                (* MIDI note number *)
  name : option string;     (* [None] stands for [undefined] *)
  frequency : Q;            (* Hz *)
  velocity : Z;
  lyric : option string
}.
End Note.

Module PitchDetectionResult.
(** [frequency] and [pitch] are finite by type: [detectPitch] only
    returns a result whose frequency passed its [isFinite] test, and the
    pitch is [Math.round] of a finite value. *)
Record t : Type := mk {
  frequency : Q;
  pitch : Z;
  noteName : string;
  noteNameOnly : option string;
  confidence : Q;
  clarity : Q;
  timestamp : Z
}.
End PitchDetectionResult.

Module VoiceAnalysis.
Record t : Type := mk {
  currentPitch : option PitchDetectionResult.t;
  targetNote : option Note.t;
  accuracy : Q;
  deviation : Q;
  isOnPitch : bool;
  octaveAdjusted : bool
}.
End VoiceAnalysis.

Module VoiceHistory.
Record t : Type := mk {
  time : Q;
  pitch : Z;
  isOnPitch : bool
}.
End VoiceHistory.

(* ================================================================== *)
(** * [src/utils/musicUtils.ts] *)

Module Music.
Section WithMath.
Context {M : MathLib}.

Definition midiToFrequency (midiNote : Z) : Q :=
  440 * Mpow 2 ((inject_Z midiNote - 69) / 12).

Definition frequencyToMidi (frequency : Q) : Z :=
  JS.round (12 * Mlog2 (frequency / 440) + 69).

Definition noteNames : list string :=
  ["C"; "C#"; "D"; "D#"; "E"; "F"; "F#"; "G"; "G#"; "A"; "A#"; "B"]%string.

(** [noteNames[i]]: [undefined] outside the table. *)
Definition noteNameAt (i : Z) : option string :=
  if (i <? 0)%Z then None else nth_error noteNames (Z.to_nat i).

Definition getMidiNoteName (midiNote : Z) : string :=
  let octave := (midiNote / 12 - 1)%Z in     (* Math.floor(midiNote / 12) - 1 *)
  let noteIndex := JS.rem midiNote 12 in
  ((match noteNameAt noteIndex with Some s => s | None => "undefined" end)
   ++ NilZero.string_of_int (Z.to_int octave))%string.

Definition getMidiNoteNameOnly (midiNote : Z) : option string :=
  noteNameAt (JS.rem midiNote 12).

Definition centsFromFrequencies (f1 f2 : Q) : Q :=
  1200 * Mlog2 (f2 / f1).

Definition isOctaveEquivalent (midi1 midi2 : Z) : bool :=
  (JS.rem midi1 12 =? JS.rem midi2 12)%Z.

Definition transposeNote (note : Note.t) (semitones : Z) : Note.t :=
  let transposedPitch := (Note.pitch note + semitones)%Z in
  Note.mk (Note.id note) (Note.time note) (Note.duration note)
          transposedPitch
          (getMidiNoteNameOnly transposedPitch)
          (midiToFrequency transposedPitch)
          (Note.velocity note) (Note.lyric note).

End WithMath.
End Music.

(* ================================================================== *)
(** * [src/utils/pitchDetection.ts] *)

Module PitchDetector.
Import JS.
Section WithMath.
Context {M : MathLib}.

(** The detector between two calls.  [isInitialized] stands for the whole
    test [this.isInitialized && this.analyserNode && this.timeData &&
    this.yinBuffer && this.audioContext]: [initialize] sets these
    together and [cleanup] clears them together.  The window
    [this.timeData] is not a field: every call of an initialized detector
    overwrites it with the samples of the analyser before reading it, and
    those samples are the argument [timeData] of [detectPitch]. *)
Record t : Type := mk {
  isInitialized : bool;
  sampleRate : Q;              (* this.audioContext.sampleRate *)
  timeBufferSize : nat;
  yinBuffer : list Q;          (* scratch buffer, reused across calls *)
  lastYinMin : Q               (* this._lastYinMin *)
}.

Definition minFreq : Q := 80.
Definition maxFreq : Q := 2000.
Definition yinThreshold : Q := 15 # 100.
Definition vadRmsThreshold : Q := 1 # 100.

(** [Math.sqrt] on a possibly non-finite argument. *)
Definition sqrt (x : num) : num :=
  match x with
  | Fin q => if Qlt_bool q 0 then NaN else Fin (Msqrt q)
  | PInf => PInf
  | _ => NaN
  end.

Definition computeRMS (buf : list Q) : num :=
  let sum := fold_left (fun sum v => sum + v * v) buf 0 in
  sqrt (div sum (inject_Z (Z.of_nat (List.length buf)))).

(** ** YIN *)

(** [yin[i]]: [None] stands for [undefined]. *)
Definition readAt (yin : list Q) (i : Z) : option Q :=
  if (i <? 0)%Z then None else nth_error yin (Z.to_nat i).

(** An [undefined] operand of a comparison converts to [NaN]. *)
Definition numOf (o : option Q) : num :=
  match o with Some q => Fin q | None => NaN end.

(** The lags [lo, lo+1, ..., hi] of a [for] loop. *)
Definition lags (lo hi : Z) : list Z :=
  List.map (fun k => (lo + Z.of_nat k)%Z) (seq 0 (Z.to_nat (hi - lo + 1))).

(** 1) the difference function d(tau): the inner loop over
    [i < N - tau] of [(x[i] - x[i + tau])^2]. *)
Definition difference (x : list Q) (tau : nat) : Q :=
  fold_left (fun sum p => let diff := fst p - snd p in sum + diff * diff)
            (combine x (skipn tau x)) 0.

(** 2) the cumulative mean normalized difference, for tau = 1, 2, ... *)
Fixpoint cmndLoop (x : list Q) (taus : list nat) (runningSum : Q) : list Q :=
  match taus with
  | [] => []
  | tau :: rest =>
      let runningSum := runningSum + difference x tau in
      (difference x tau * inject_Z (Z.of_nat tau))
        / (if Qeq_bool runningSum 0 then 1 # 1000000000000 else runningSum)
      :: cmndLoop x rest runningSum
  end.

(** The entries [0 .. maxTauClamped] that steps 1 and 2 write. *)
Definition cmnd (x : list Q) (maxTauClamped : Z) : list Q :=
  1 :: cmndLoop x (seq 1 (Z.to_nat maxTauClamped)) 0.

(** Writing a prefix into a typed array: writes past its end are ignored,
    entries after the prefix keep their old value.  (The array of the
    source is a [Float32Array]; that a stored value is rounded to single
    precision is, like all rounding, not modelled.) *)
Definition overwrite (prefix yin : list Q) : list Q :=
  firstn (List.length yin) prefix ++ skipn (List.length prefix) yin.

(** 3) absolute threshold search: the [for] loop with its [break].
    Returns [tauEstimate] ([-1] when the loop ends without a [break])
    and [yinMin]. *)
Fixpoint thresholdSearch (yin : list Q) (maxTauClamped : Z) (taus : list Z)
         (yinMin : Q) : Z * Q :=
  match taus with
  | [] => ((-1)%Z, yinMin)
  | tau :: rest =>
      let val := readAt yin tau in
      if ltb (numOf val) (Fin yinThreshold) && leb (numOf val) (Fin yinMin)
         && ((tau + 1 <=? maxTauClamped)%Z
             && leb (numOf val) (numOf (readAt yin (tau + 1))))
      then (tau, match val with Some v => v | None => yinMin end)
      else
        thresholdSearch yin maxTauClamped rest
          (if ltb (numOf val) (Fin yinMin)
           then match val with Some v => v | None => yinMin end
           else yinMin)
  end.

(** The fallback loop: the first lag of the smallest value.
    [minV] starts at [Infinity], [minI] at [-1]. *)
Fixpoint globalMin (yin : list Q) (taus : list Z) (minV : num) (minI : Z)
  : num * Z :=
  match taus with
  | [] => (minV, minI)
  | tau :: rest =>
      if ltb (numOf (readAt yin tau)) minV
      then globalMin yin rest (numOf (readAt yin tau)) tau
      else globalMin yin rest minV minI
  end.

(** Step 3 with its fallback: [tauEstimate] and [yinMin], or [None] where
    the fallback finds no lag ([tauEstimate <= 0]) and the function
    returns [NaN]. *)
Definition searchTau (yin : list Q) (minTau maxTauClamped : Z)
  : option (Z * Q) :=
  let taus := lags (Z.max 2 minTau) maxTauClamped in
  let '(tauEstimate, yinMin) := thresholdSearch yin maxTauClamped taus 1 in
  if (tauEstimate =? -1)%Z then
    let '(minV, minI) := globalMin yin taus PInf (-1)%Z in
    if (minI <=? 0)%Z then None
    else Some (minI, match minV with Fin v => v | _ => 1 end)
  else Some (tauEstimate, yinMin).

(** 4) parabolic interpolation around [tauEstimate]. *)
Definition interpolate (yin : list Q) (tauEstimate maxTauClamped : Z) : Q :=
  if (1 <? tauEstimate)%Z && (tauEstimate <? maxTauClamped)%Z then
    match readAt yin (tauEstimate - 1), readAt yin tauEstimate,
          readAt yin (tauEstimate + 1) with
    | Some x0, Some x1, Some x2 =>
        let denom := 2 * (2 * x1 - x0 - x2) in
        if Qlt_bool (1 # 1000000000000) (Qabs denom)
        then inject_Z tauEstimate + (x2 - x0) / denom
        else inject_Z tauEstimate
    | _, _, _ => inject_Z tauEstimate      (* denom is NaN *)
    end
  else inject_Z tauEstimate.

(** Linear interpolation of the curve at a fractional lag; an
    [undefined] sample makes the value [NaN] ([None]). *)
Definition valueAt (yin : list Q) (maxTauClamped : Z) (tau : Q) : option Q :=
  let i := Qfloor tau in
  let frac := tau - inject_Z i in
  match readAt yin i with
  | Some yA =>
      if (i + 1 <=? maxTauClamped)%Z then
        match readAt yin (i + 1) with
        | Some yB => Some (yA + (yB - yA) * frac)
        | None => None
        end
      else Some (yA + (yA - yA) * frac)
  | None => None
  end.

(** 5) [checkAndMaybeReplace(mult, margin)]: the new [finalTau]. *)
Definition checkAndMaybeReplace (yin : list Q) (maxTauClamped : Z)
           (betterTau finalTau mult margin : Q) : Q :=
  let tau2 := betterTau * mult in
  if Qle_bool tau2 (inject_Z maxTauClamped) then
    match valueAt yin maxTauClamped tau2, valueAt yin maxTauClamped betterTau with
    | Some yTau2, Some yTau =>
        if Qlt_bool (yTau2 + margin) yTau then tau2 else finalTau
    | _, _ => finalTau                     (* a comparison with NaN *)
    end
  else finalTau.

(** [yinDetectFrequency]: the frequency (or [NaN]), the buffer as it is
    left, and the value it stores in [_lastYinMin]. *)
Definition yinDetectFrequency (x yin : list Q) (minTau maxTau : Z)
           (sampleRate : Q) : num * list Q * Q :=
  let N := Z.of_nat (List.length x) in
  let maxTauClamped := Z.min maxTau (N - 1) in
  let yin := overwrite (cmnd x maxTauClamped) yin in
  match searchTau yin minTau maxTauClamped with
  | None => (NaN, yin, 1)                  (* this._lastYinMin = 1; return NaN *)
  | Some (tauEstimate, yinMin) =>
      let betterTau := interpolate yin tauEstimate maxTauClamped in
      let finalTau :=
        checkAndMaybeReplace yin maxTauClamped betterTau betterTau 2 (15 # 1000) in
      let finalTau :=
        checkAndMaybeReplace yin maxTauClamped betterTau finalTau 3 (2 # 100) in
      (div sampleRate finalTau, yin, yinMin)
  end.

(** ** [detectPitch] *)

(** [!isFinite(rms) || rms < this.vadRmsThreshold] *)
Definition vadRejects (rms : num) : bool :=
  negb (isFinite rms) || ltb rms (Fin vadRmsThreshold).

(** [!isFinite(freq) || freq < this.minFreq || freq > this.maxFreq] *)
Definition freqRejects (freq : num) : bool :=
  negb (isFinite freq) || ltb freq (Fin minFreq) || gtb freq (Fin maxFreq).

(** The lag range searched for a sample rate. *)
Definition effectiveRate (d : t) : Q :=
  if Qeq_bool (sampleRate d) 0 then 44100 else sampleRate d.   (* || 44100 *)

Definition minTauOf (d : t) : Z :=
  Z.max 2 (Qfloor (effectiveRate d / maxFreq)).

Definition maxTauOf (d : t) : Z :=
  Z.min (Z.of_nat (timeBufferSize d) - 1) (Qfloor (effectiveRate d / minFreq)).

Definition clamp01 (v : Q) : Q := Qmax 0 (Qmin 1 v).

(** [timeData] is the window the analyser has just written; [dateNow]
    is [Date.now()].  Returns the result ([None] for [null]) and the
    detector as the call leaves it. *)
Definition detectPitch (d : t) (timeData : list Q) (dateNow : Z)
  : option PitchDetectionResult.t * t :=
  if negb (isInitialized d) then (None, d)
  else
    let rms := computeRMS timeData in
    if vadRejects rms then (None, d)
    else
      let '(freq, yin, yinMin) :=
        yinDetectFrequency timeData (yinBuffer d) (minTauOf d) (maxTauOf d)
                           (effectiveRate d) in
      let d' := mk (isInitialized d) (sampleRate d) (timeBufferSize d)
                   yin yinMin in
      if freqRejects freq then (None, d')
      else
        match freq, rms with
        | Fin f, Fin r =>
            let pitch := Music.frequencyToMidi f in
            let clarity := clamp01 (1 - yinMin) in
            let confidence :=
              clamp01 ((1 # 2) * clarity + (1 # 2) * Qmin 1 (r / (1 # 10))) in
            (Some (PitchDetectionResult.mk
                     f pitch (Music.getMidiNoteName pitch)
                     (Music.getMidiNoteNameOnly pitch)
                     confidence clarity dateNow),
             d')
        | _, _ => (None, d')               (* excluded by the two tests *)
        end.

End WithMath.
End PitchDetector.

(* ================================================================== *)
(** * The analysis tick of [MicrophoneAnalyzer] *)

Module Analyzer.
Import JS.
Section WithMath.
Context {M : MathLib}.

(** ** [centsToNearestOctave] *)

(** [while (cents > 600) cents -= 1200;] *)
Fixpoint wrapDown (fuel : nat) (cents : Q) : Q :=
  match fuel with
  | O => cents
  | S fuel' =>
      if Qlt_bool 600 cents then wrapDown fuel' (cents - 1200) else cents
  end.

(** [while (cents < -600) cents += 1200;] *)
Fixpoint wrapUp (fuel : nat) (cents : Q) : Q :=
  match fuel with
  | O => cents
  | S fuel' =>
      if Qlt_bool cents (-600) then wrapUp fuel' (cents + 1200) else cents
  end.

(** A number of iterations after which either loop has left its guard. *)
Definition wrapFuel (cents : Q) : nat :=
  Z.to_nat (Qceiling (Qabs cents / 1200)).

(** The two loops in sequence: "wrap into [-600, 600]". *)
Definition wrap (cents : Q) : Q :=
  let c1 := wrapDown (wrapFuel cents) cents in
  wrapUp (wrapFuel c1) c1.

(** The quotient of the two frequencies is taken as a finite positive
    number; module [Range] below follows the function where the quotient
    of two doubles overflows or underflows. *)
Definition centsToNearestOctave (targetHz detectedHz : num) : Q :=
  match targetHz, detectedHz with
  | Fin target, Fin detected =>
      if Qle_bool target 0 || Qle_bool detected 0 then 0
      else wrap (1200 * Mlog2 (detected / target))
  | _, _ => 0                  (* !isFinite(targetHz) || !isFinite(detectedHz) *)
  end.

(** ** The target note tracker *)

Definition noteEnd (n : Note.t) : Q := Note.time n + Note.duration n.

(** [while (idx < notes.length && t > notes[idx].time + notes[idx].duration) idx++;]
    The index only grows and the loop stops at [notes.length], so
    [length notes - idx] iterations are all it can make. *)
Fixpoint advanceLoop (fuel : nat) (notes : list Note.t) (t : num) (idx : nat)
  : nat :=
  match fuel with
  | O => idx
  | S fuel' =>
      match nth_error notes idx with
      | None => idx                                    (* idx < notes.length fails *)
      | Some n =>
          if gtb t (Fin (noteEnd n))
          then advanceLoop fuel' notes t (S idx)
          else idx
      end
  end.

Definition advance (notes : list Note.t) (t : num) (idx : nat) : nat :=
  advanceLoop (List.length notes - idx) notes t idx.

(** [while (idx > 0 && t < notes[idx].time) idx--;]
    [notes[idx]] is [undefined] when [idx] is not an index of the array,
    and reading [.time] of [undefined] throws. *)
Fixpoint retreat (notes : list Note.t) (t : num) (idx : nat) : result nat :=
  match idx with
  | O => Ok O                                          (* idx > 0 fails *)
  | S idx' =>
      match nth_error notes idx with
      | None => Throw TypeError
      | Some n =>
          if ltb t (Fin (Note.time n)) then retreat notes t idx' else Ok idx
      end
  end.

(** [candidate] and [inNote]. *)
Definition candidateAt (notes : list Note.t) (idx : nat) : option Note.t :=
  nth_error notes idx.                  (* idx < notes.length ? notes[idx] : null *)

Definition inNote (candidate : option Note.t) (t : num) : bool :=
  match candidate with
  | Some c => geb t (Fin (Note.time c)) && leb t (Fin (noteEnd c))
  | None => false
  end.

(** The lookup of one tick: the final cursor and the active target. *)
Definition locateTarget (notes : list Note.t) (semitones : Z) (t : num)
           (idx0 : nat) : result (nat * option Note.t) :=
  idx <- retreat notes t (advance notes t idx0) ;;
  let candidate := candidateAt notes idx in
  Ok (idx,
      if inNote candidate t
      then option_map (fun c => Music.transposeNote c semitones) candidate
      else None).

(** ** The state kept across ticks (the component's refs) *)

Record Refs : Type := mkRefs {
  currentNoteIndexRef : nat;
  lastHitNoteIdRef : option string;       (* [None] stands for [null] *)
  lastUIUpdateTsRef : Z;
  lastHistoryFlushTsRef : Z;
  historyBufferRef : list VoiceHistory.t
}.

Definition UI_UPDATE_MS : Z := 66.
Definition HISTORY_FLUSH_MS : Z := 100.

(** What the closure of the tick captures. *)
Record Props : Type := mkProps {
  notes : list Note.t;                    (* currentSong?.notes || [] *)
  transpositionSemitones : Z
}.

(** The callbacks a tick invokes, in the order it invokes them. *)
Inductive Event : Type :=
| NoteHit (noteId : string)                       (* onNoteHit *)
| VoiceAnalysisUpdate (a : VoiceAnalysis.t)       (* onVoiceAnalysisUpdate *)
| VoiceHistoryUpdate (h : VoiceHistory.t).        (* onVoiceHistoryUpdate *)

(** ** Deviation and classification *)

(** [Math.abs(deviation) <= 50 || octaveAdjusted] *)
Definition onPitch (deviation : Q) (octaveAdjusted : bool) : bool :=
  Qle_bool (Qabs deviation) 50 || octaveAdjusted.

(** [Math.max(0, 1 - Math.abs(deviation) / 1200)] *)
Definition accuracyScore (deviation : Q) : Q :=
  Qmax 0 (1 - Qabs deviation / 1200).

Definition currentPitchOf (pitchResult : PitchDetectionResult.t) (now : Z)
  : PitchDetectionResult.t :=
  PitchDetectionResult.mk
    (PitchDetectionResult.frequency pitchResult)
    (PitchDetectionResult.pitch pitchResult)
    (PitchDetectionResult.noteName pitchResult)
    (PitchDetectionResult.noteNameOnly pitchResult)
    (PitchDetectionResult.confidence pitchResult)
    (PitchDetectionResult.clarity pitchResult)
    now.

(** The [VoiceAnalysis] of a tick with a detected pitch. *)
Definition analyse (targetNote : option Note.t)
           (pitchResult : PitchDetectionResult.t) (now : Z)
  : VoiceAnalysis.t :=
  match targetNote with
  | Some tn =>
      let deviation :=
        centsToNearestOctave (Fin (Note.frequency tn))
                             (Fin (PitchDetectionResult.frequency pitchResult)) in
      let octaveAdjusted :=
        Music.isOctaveEquivalent (Note.pitch tn)
                                 (PitchDetectionResult.pitch pitchResult) in
      VoiceAnalysis.mk (Some (currentPitchOf pitchResult now)) (Some tn)
                       (accuracyScore deviation) deviation
                       (onPitch deviation octaveAdjusted) octaveAdjusted
  | None =>
      VoiceAnalysis.mk (Some (currentPitchOf pitchResult now)) None
                       0 0 false false
  end.

(** The snapshot sent when no pitch was detected. *)
Definition clearedAnalysis : VoiceAnalysis.t :=
  VoiceAnalysis.mk None None 0 0 false false.

(** ** The note-hit guard *)

(** [lastHitNoteIdRef.current !== targetNote.id] *)
Definition differsFrom (held : option string) (noteId : string) : bool :=
  match held with
  | Some h => negb (String.eqb h noteId)
  | None => true
  end.

(** A string is truthy when it is not empty. *)
Definition truthy (s : string) : bool := negb (String.eqb s "").

(** [if (isOnPitch && targetNote.id && lastHitNoteIdRef.current !== targetNote.id)]
    on an active target; the guard is reset when there is none. *)
Definition arbitrate (held : option string) (targetNote : option Note.t)
           (isOnPitch : bool) : option string * list Event :=
  match targetNote with
  | Some tn =>
      if isOnPitch && truthy (Note.id tn) && differsFrom held (Note.id tn)
      then (Some (Note.id tn), [NoteHit (Note.id tn)])
      else (held, [])
  | None => (None, [])
  end.

(** ** One tick *)

Definition tick (props : Props) (refs : Refs) (now : Z)
           (pitchResult : option PitchDetectionResult.t) (t : num)
  : Refs * list Event :=
  match locateTarget (notes props) (transpositionSemitones props) t
                     (currentNoteIndexRef refs) with
  | Throw _ => (refs, [])       (* catch (error) { console.error(...) } *)
  | Ok (idx, targetNote) =>
      match pitchResult with
      | Some pr =>        (* pitchResult && isFinite(frequency) && isFinite(pitch) *)
          let analysis := analyse targetNote pr now in
          let '(held, hits) :=
            arbitrate (lastHitNoteIdRef refs) targetNote
                      (VoiceAnalysis.isOnPitch analysis) in
          (* throttle UI updates *)
          let uiDue := (now - lastUIUpdateTsRef refs >=? UI_UPDATE_MS)%Z in
          let lastUI := if uiDue then now else lastUIUpdateTsRef refs in
          let ui := if uiDue then [VoiceAnalysisUpdate analysis] else [] in
          (* buffer history *)
          let buf :=
            match t with
            | Fin tq =>
                historyBufferRef refs ++
                [VoiceHistory.mk tq (PitchDetectionResult.pitch pr)
                                 (VoiceAnalysis.isOnPitch analysis)]
            | _ => historyBufferRef refs           (* !isFinite(t) *)
            end in
          (* flush history *)
          let flushDue :=
            (now - lastHistoryFlushTsRef refs >=? HISTORY_FLUSH_MS)%Z in
          let lastFlush := if flushDue then now else lastHistoryFlushTsRef refs in
          let flushed := if flushDue then List.map VoiceHistoryUpdate buf else [] in
          let buf' :=
            if flushDue then match buf with [] => buf | _ :: _ => [] end
            else buf in
          (mkRefs idx held lastUI lastFlush buf', hits ++ ui ++ flushed)
      | None =>
          let uiDue := (now - lastUIUpdateTsRef refs >=? UI_UPDATE_MS)%Z in
          let lastUI := if uiDue then now else lastUIUpdateTsRef refs in
          let ui := if uiDue then [VoiceAnalysisUpdate clearedAnalysis] else [] in
          (mkRefs idx (lastHitNoteIdRef refs) lastUI
                  (lastHistoryFlushTsRef refs) (historyBufferRef refs),
           ui)
      end
  end.

(** One input of the tick stream: the clock, the detector's answer and
    the playback time. *)
Record TickInput : Type := mkInput {
  now : Z;
  pitchResult : option PitchDetectionResult.t;
  playbackTime : num
}.

Definition step (props : Props) (refs : Refs) (i : TickInput)
  : Refs * list Event :=
  tick props refs (now i) (pitchResult i) (playbackTime i).

(** A session: the events of every tick, tick by tick, and the final refs. *)
Fixpoint run (props : Props) (refs : Refs) (inputs : list TickInput)
  : Refs * list (list Event) :=
  match inputs with
  | [] => (refs, [])
  | i :: rest =>
      let '(refs1, evs) := step props refs i in
      let '(refs2, evss) := run props refs1 rest in
      (refs2, evs :: evss)
  end.

(** The refs as the component creates (and resets) them. *)
Definition initialRefs : Refs := mkRefs 0 None 0 0 [].

End WithMath.
End Analyzer.

(* ================================================================== *)
(** * Observing a session *)

Module Session.
Import JS Analyzer.
Section WithMath.
Context {M : MathLib}.

(** The active target the tracker reports on a tick ([None] when it
    reports none, which includes a lookup that throws). *)
Definition activeTarget (props : Props) (refs : Refs) (i : TickInput)
  : option Note.t :=
  match locateTarget (notes props) (transpositionSemitones props)
                     (playbackTime i) (currentNoteIndexRef refs) with
  | Ok (_, target) => target
  | Throw _ => None
  end.

Definition activeId (props : Props) (refs : Refs) (i : TickInput)
  : option string :=
  option_map Note.id (activeTarget props refs i).

(** The lookup of the tick runs to its end. *)
Definition completes (props : Props) (refs : Refs) (i : TickInput) : bool :=
  match locateTarget (notes props) (transpositionSemitones props)
                     (playbackTime i) (currentNoteIndexRef refs) with
  | Ok _ => true
  | Throw _ => false
  end.

(** The tick classifies the singer as on-pitch: a pitch was detected, a
    target is active, and the on-pitch decision is true. *)
Definition classifiedOnPitch (props : Props) (refs : Refs) (i : TickInput)
  : bool :=
  match pitchResult i, activeTarget props refs i with
  | Some pr, Some tn => VoiceAnalysis.isOnPitch (analyse (Some tn) pr (now i))
  | _, _ => false
  end.

Definition isHitOf (noteId : string) (e : Event) : bool :=
  match e with NoteHit x => String.eqb x noteId | _ => false end.

(** The number of hit events for a note id among some events. *)
Definition hitsOf (noteId : string) (evs : list Event) : nat :=
  List.length (filter (isHitOf noteId) evs).

(** The same over the events of a whole session. *)
Definition hitsIn (noteId : string) (evss : list (list Event)) : nat :=
  hitsOf noteId (List.concat evss).

Definition isSnapshot (e : Event) : bool :=
  match e with VoiceAnalysisUpdate _ => true | _ => false end.

(** The history points among some events, in order. *)
Definition historyOf (evs : list Event) : list VoiceHistory.t :=
  flat_map (fun e => match e with VoiceHistoryUpdate h => [h] | _ => [] end) evs.

Definition emitsSnapshot (evs : list Event) : bool := existsb isSnapshot evs.

Definition emitsHistory (evs : list Event) : bool :=
  match historyOf evs with [] => false | _ :: _ => true end.

(** The clock values of the ticks whose events satisfy [p]. *)
Fixpoint timesWhere (p : list Event -> bool) (inputs : list TickInput)
         (evss : list (list Event)) : list Z :=
  match inputs, evss with
  | i :: inputs', evs :: evss' =>
      (if p evs then [now i] else []) ++ timesWhere p inputs' evss'
  | _, _ => []
  end.

(** The history point a tick puts into the buffer, if any: it needs a
    detected pitch, a finite playback time and a lookup that completes. *)
Definition pointOf (props : Props) (refs : Refs) (i : TickInput)
  : list VoiceHistory.t :=
  match pitchResult i, playbackTime i, completes props refs i with
  | Some pr, Fin tq, true =>
      [VoiceHistory.mk tq (PitchDetectionResult.pitch pr)
                       (classifiedOnPitch props refs i)]
  | _, _, _ => []
  end.

(** All the points a session puts into the buffer, in order. *)
Fixpoint pointsOf (props : Props) (refs : Refs) (inputs : list TickInput)
  : list VoiceHistory.t :=
  match inputs with
  | [] => []
  | i :: rest =>
      pointOf props refs i ++ pointsOf props (fst (step props refs i)) rest
  end.



(** Two clock values at least [gap] milliseconds apart. *)
Definition apart (gap : Z) (earlier later : Z) : Prop :=
  (earlier + gap <= later)%Z.

(** The events of a tick, channel by channel: whether a snapshot is among
    them (there is at most one), and the history points among them. *)
Record channels (evs : list Event) (snapshot : bool)
       (history : list VoiceHistory.t) : Prop := mkChannels {
  ch_snapshot : emitsSnapshot evs = snapshot;
  ch_single : (List.length (filter isSnapshot evs) <= 1)%nat;
  ch_history : historyOf evs = history
}.

End WithMath.
End Session.

(* ================================================================== *)
(** * The threshold search, in the words of the specification *)

Module YinSpec.
Import JS PitchDetector.

(** The entry [CMNDF[tau]] of an array that has one. *)
Definition valOf (yin : list Q) (tau : Z) : Q := nth (Z.to_nat tau) yin 0.

(** "CMNDF[tau] < 0.15 AND CMNDF[tau] <= CMNDF[tau + 1]"; an entry the
    array does not have compares false. *)
Definition crosses (yin : list Q) (tau : Z) : bool :=
  ltb (numOf (readAt yin tau)) (Fin yinThreshold)
  && leb (numOf (readAt yin tau)) (numOf (readAt yin (tau + 1))).

End YinSpec.

(* ================================================================== *)
(** * Example data *)

Module Examples.
Import JS Analyzer.

(** The two notes of the specification's tracker example. *)
Definition noteA : Note.t :=
  Note.mk "a" 0 1 69 (Some "A"%string) 440 100 None.
Definition noteB : Note.t :=
  Note.mk "b" 1 1 71 (Some "B"%string) (49388 # 100) 100 None.
(** A note after a gap of one second. *)
Definition noteC : Note.t :=
  Note.mk "c" 3 1 72 (Some "C"%string) (52325 # 100) 100 None.

Definition song : Props := mkProps [noteA; noteB] 0.
Definition songWithGap : Props := mkProps [noteA; noteB; noteC] 0.

(** What the detector answers while the singer holds A4. *)
Definition sungA4 : PitchDetectionResult.t :=
  PitchDetectionResult.mk 440 69 "A4" (Some "A"%string) 1 1 0.

(** What it answers while the singer holds B4. *)
Definition sungB4 : PitchDetectionResult.t :=
  PitchDetectionResult.mk (49388 # 100) 71 "B4" (Some "B"%string) 1 1 0.

(** Ten ticks, 80 ms apart, all inside note "a", the singer on A4. *)
Definition tenTicksOnA : list TickInput :=
  List.map (fun k => mkInput (1000 + 80 * Z.of_nat k) (Some sungA4)
                             (Fin (inject_Z (Z.of_nat k) * (8 # 100))))
           (seq 0 10).

(** "a" sung right, then "b" missed (the singer stays on A4), then a
    seek back into "a", sung right again. *)
Definition missedB : list TickInput :=
  [mkInput 1000 (Some sungA4) (Fin (1 # 2));
   mkInput 1080 (Some sungA4) (Fin (3 # 2));
   mkInput 1160 (Some sungA4) (Fin (1 # 2))].

(** The same with "b" sung right. *)
Definition hitB : list TickInput :=
  [mkInput 1000 (Some sungA4) (Fin (1 # 2));
   mkInput 1080 (Some sungB4) (Fin (3 # 2));
   mkInput 1160 (Some sungA4) (Fin (1 # 2))].

(** "a" sung right, then a pitch detected in the gap between "b" and "c"
    of [songWithGap], then a seek back into "a", sung right again. *)
Definition pitchInGap : list TickInput :=
  [mkInput 1000 (Some sungA4) (Fin (1 # 2));
   mkInput 1080 (Some sungA4) (Fin (5 # 2));
   mkInput 1160 (Some sungA4) (Fin (1 # 2))].

(** "a" sung right, "b" missed, a pitch detected past the last note of
    [song], then a seek back into "a", sung right again. *)
Definition pitchPastEnd : list TickInput :=
  [mkInput 1000 (Some sungA4) (Fin (1 # 2));
   mkInput 1080 (Some sungA4) (Fin (3 # 2));
   mkInput 1160 (Some sungA4) (Fin (5 # 2));
   mkInput 1240 (Some sungA4) (Fin (1 # 2))].

(** A square wave with a period of 100 samples, and silence. *)
Definition squareWave (n : nat) : list Q :=
  List.map (fun i => if Nat.ltb (Nat.modulo i 100) 50 then 1 else - (1))
           (seq 0 n).
Definition silence (n : nat) : list Q := repeat 0 n.

(** A short curve with its first threshold crossing at lag 5, and one
    that never goes below the threshold, smallest at lag 4. *)
Definition curveWithDip : list Q :=
  [1; 1; 5 # 10; 3 # 10; 1 # 10; 5 # 100; 2 # 10; 4 # 10; 12 # 100; 3 # 10].
Definition curveWithoutDip : list Q :=
  [1; 1; 5 # 10; 3 # 10; 2 # 10; 4 # 10; 2 # 10; 6 # 10; 7 # 10; 8 # 10].

(** The detector as [initialize] leaves it. *)
Definition detector : PitchDetector.t :=
  PitchDetector.mk true 44100 4096 (repeat 0 4096) 1.

End Examples.

(* ================================================================== *)
(** * The callers in [src/App.tsx] and the components *)

Module PianoKeyboard.

(** [isBlackKey]: [[1, 3, 6, 8, 10].includes(midiNote % 12)] *)
Definition isBlackKey (midiNote : Z) : bool :=
  existsb (Z.eqb (JS.rem midiNote 12)) [1; 3; 6; 8; 10]%Z.

End PianoKeyboard.

Module App.
Import JS Analyzer.

(** The callback of the [reduce] in [calculateSongDuration]:
    [(note.time + note.duration) > (latest.time + latest.duration) ? note : latest] *)
Definition laterEnding (latest note : Note.t) : Note.t :=
  if Qlt_bool (Note.time latest + Note.duration latest)
              (Note.time note + Note.duration note)
  then note else latest.

(** [calculateSongDuration] (the same function in [App.tsx] and in the
    timeline component); a [reduce] without initial value starts from the
    first element. *)
Definition calculateSongDuration (notes : list Note.t) : Z :=
  match notes with
  | [] => 60
  | first :: rest =>
      let lastNote := fold_left laterEnding rest first in
      Qceiling (Note.time lastNote + Note.duration lastNote + 2)
  end.

(** [array.slice(-n)]: the last [n] elements. *)
Definition sliceLast {A : Type} (n : nat) (l : list A) : list A :=
  skipn (List.length l - n) l.

(** [handleVoiceHistoryUpdate]: [[...prev, newPoint].slice(-100)] *)
Definition handleVoiceHistoryUpdate (prev : list VoiceHistory.t)
           (newPoint : VoiceHistory.t) : list VoiceHistory.t :=
  sliceLast 100 (prev ++ [newPoint]).

(** A [Set<string>] is the list of its elements in insertion order;
    [add] leaves a set that has the element as it is. *)
Fixpoint setAdd (x : string) (s : list string) : list string :=
  match s with
  | [] => [x]
  | y :: s' => if String.eqb y x then s else y :: setAdd x s'
  end.

(** [new Set(iterable)] *)
Definition newSet (elements : list string) : list string :=
  fold_left (fun s x => setAdd x s) elements [].

(** [handleNoteHit]: [new Set([...prev, noteId])] *)
Definition handleNoteHit (prev : list string) (noteId : string) : list string :=
  newSet (prev ++ [noteId]).

(** [transposeUp] and [transposeDown] *)
Definition transposeUp (prev : Z) : Z := Z.min 12 (prev + 1).
Definition transposeDown (prev : Z) : Z := Z.max (-12) (prev - 1).

(** The two transposition buttons of the controls, wired to them. *)
Inductive Button : Type := TransposeUp | TransposeDown.
Definition press (semitones : Z) (b : Button) : Z :=
  match b with
  | TransposeUp => transposeUp semitones
  | TransposeDown => transposeDown semitones
  end.

(** The results computed when the playback reaches the end of the song. *)
Record SongResults : Type := mkResults {
  totalNotes : nat;
  correctNotes : nat;
  accuracy : Q;
  scorePercentage : Q;
  completedAt : Z
}.

Definition songResults (notes : list Note.t) (noteHits : list string)
           (dateNow : Z) : SongResults :=
  let totalNotes := List.length notes in
  let correctNotes := List.length noteHits in
  let accuracy :=
    if (0 <? totalNotes)%nat
    then inject_Z (Z.of_nat correctNotes) / inject_Z (Z.of_nat totalNotes)
    else 0 in
  mkResults totalNotes correctNotes accuracy (accuracy * 100) dateNow.

(** The part of the application state the analyzer's callbacks write. *)
Record Listener : Type := mkListener {
  noteHits : list string;
  voiceHistory : list VoiceHistory.t;
  voiceAnalysis : VoiceAnalysis.t
}.

Definition onEvent (l : Listener) (e : Event) : Listener :=
  match e with
  | NoteHit noteId =>
      mkListener (handleNoteHit (noteHits l) noteId) (voiceHistory l)
                 (voiceAnalysis l)
  | VoiceHistoryUpdate h =>
      mkListener (noteHits l) (handleVoiceHistoryUpdate (voiceHistory l) h)
                 (voiceAnalysis l)
  | VoiceAnalysisUpdate a =>
      mkListener (noteHits l) (voiceHistory l) a
  end.

(** The state after the events of a session; starting the playback resets
    the hits and the history. *)
Definition listen (l : Listener) (evss : list (list Event)) : Listener :=
  fold_left onEvent (List.concat evss) l.

Definition freshListener : Listener := mkListener [] [] clearedAnalysis.

End App.

(* ================================================================== *)
(** * Scores whose notes follow one another *)

Module Score.
Import JS Analyzer.

(** The notes are in playing order and do not overlap: no duration is
    negative and every note ends before any later note starts. *)
Definition ordered (notes : list Note.t) : Prop :=
  (forall n, In n notes -> 0 <= Note.duration n) /\
  (forall i j a b, (i < j)%nat ->
                   nth_error notes i = Some a -> nth_error notes j = Some b ->
                   noteEnd a <= Note.time b).

(** Two notes that agree on everything but the stored frequency and name,
    with pitches that two transpositions bring together. *)
Definition sameAfter (s1 s2 : Z) (n1 n2 : Note.t) : Prop :=
  Note.id n1 = Note.id n2 /\ Note.time n1 = Note.time n2 /\
  Note.duration n1 = Note.duration n2 /\
  (Note.pitch n1 + s1 = Note.pitch n2 + s2)%Z /\
  Note.velocity n1 = Note.velocity n2 /\ Note.lyric n1 = Note.lyric n2.

(** A note name is a sharp when it is a letter followed by [#]. *)
Definition isSharp (name : string) : bool :=
  match name with
  | String _ (String c EmptyString) => Ascii.eqb c "#"%char
  | _ => false
  end.

End Score.

(* ================================================================== *)
(** * Periodic windows *)

Module Signal.

(** The window repeats itself after [period] samples. *)
Definition periodic (x : list Q) (period : nat) : Prop :=
  forall i a b,
    nth_error x i = Some a -> nth_error x (i + period) = Some b -> a == b.

End Signal.

(* ================================================================== *)
(** * Strings *)

(** A JavaScript string is a sequence of 16-bit code units.  The strings
    of the model are sequences of code units below 256; the operations
    below are the ones of [String.prototype] that the import and the
    export of songs use, on such strings. *)

Module Str.

Definition tab : ascii := ascii_of_nat 9.
Definition lineFeed : ascii := ascii_of_nat 10.
Definition carriageReturn : ascii := ascii_of_nat 13.

(** [\d] *)
Definition isDigit (c : ascii) : bool :=
  let n := nat_of_ascii c in ((48 <=? n) && (n <=? 57))%nat.

(** The white space and line terminators below 256: tab, line feed,
    vertical tab, form feed, carriage return, space, no-break space. *)
Definition isWhiteSpace (c : ascii) : bool :=
  existsb (Nat.eqb (nat_of_ascii c)) [9; 10; 11; 12; 13; 32; 160]%nat.

Fixpoint trimStart (s : string) : string :=
  match s with
  | String c rest => if isWhiteSpace c then trimStart rest else s
  | EmptyString => EmptyString
  end.

Fixpoint trimEnd (s : string) : string :=
  match s with
  | String c rest =>
      match trimEnd rest with
      | EmptyString =>
          if isWhiteSpace c then EmptyString else String c EmptyString
      | kept => String c kept
      end
  | EmptyString => EmptyString
  end.

Definition trim (s : string) : string := trimEnd (trimStart s).

(** [s.split(separator)] for a separator of one character: never empty. *)
Fixpoint split (separator : ascii) (s : string) : list string :=
  match s with
  | EmptyString => [EmptyString]
  | String c rest =>
      if Ascii.eqb c separator then EmptyString :: split separator rest
      else match split separator rest with
           | piece :: pieces => String c piece :: pieces
           | [] => [String c EmptyString]
           end
  end.

(** [pieces.join(separator)] *)
Definition join (separator : ascii) (pieces : list string) : string :=
  String.concat (String separator EmptyString) pieces.

(** [s.includes(c)] *)
Definition includes (c : ascii) (s : string) : bool :=
  existsb (Ascii.eqb c) (list_ascii_of_string s).

Definition padding (fill : ascii) (n : nat) : string :=
  string_of_list_ascii (repeat fill n).

(** [s.padStart(targetLength, fill)] and [s.padEnd(targetLength, fill)] *)
Definition padStart (targetLength : nat) (fill : ascii) (s : string) : string :=
  (padding fill (targetLength - String.length s) ++ s)%string.
Definition padEnd (targetLength : nat) (fill : ascii) (s : string) : string :=
  (s ++ padding fill (targetLength - String.length s))%string.

(** [String(n)] for an integer [n]: its decimal digits, after a minus
    sign when it is negative. *)
Definition ofInt (n : Z) : string := NilZero.string_of_int (Z.to_int n).

(** [parseInt(digits, 10)] on a string of digits, the only strings the
    callers pass: the captures of [\d+], [\d{1,2}], [\d{1,3}] and [\d]. *)
Definition digitValue (c : ascii) : Z := (Z.of_nat (nat_of_ascii c) - 48)%Z.
Definition parseInt (digits : string) : Z :=
  fold_left (fun value c => (10 * value + digitValue c)%Z)
            (list_ascii_of_string digits) 0%Z.

(** The longest prefix of digits, and what follows it: what a greedy
    [\d+] takes when the next thing to match is not a digit. *)
Fixpoint spanDigits (s : string) : string * string :=
  match s with
  | String c rest =>
      if isDigit c
      then let (digits, after) := spanDigits rest in (String c digits, after)
      else (EmptyString, s)
  | EmptyString => (EmptyString, EmptyString)
  end.

(** [/^\d+$/.test(s)] *)
Definition allDigits (s : string) : bool :=
  negb (String.eqb s EmptyString) && forallb isDigit (list_ascii_of_string s).

(** [s || fallback]: the empty string is falsy. *)
Definition orElse (s fallback : string) : string :=
  if String.eqb s EmptyString then fallback else s.

End Str.

(* ================================================================== *)
(** * The text format of songs: [exportSongToText], [parseTextToSong] *)

Module SongText.
Import Str.

(** What the import can throw. *)
Inductive error : Type :=
| TypeErrorOnUndefined            (* [TypeError]: [trim] of [undefined] *)
| BadTimestamp (stamp : string)   (* [Error(`Bad timestamp: ${stamp}`)] *)
| BadPitch (s : string).          (* [Error(`Bad pitch: ${s}`)] *)

Inductive outcome (A : Type) : Type :=
| Returns (a : A)
| Throws (e : error).
Arguments Returns {A} a.
Arguments Throws {A} e.

Definition andThen {A B} (r : outcome A) (k : A -> outcome B) : outcome B :=
  match r with Returns a => k a | Throws e => Throws e end.

(** ** Export *)

(** [Math.trunc] and the remainder [a % b] on numbers: the result takes
    the sign of the dividend. *)
Definition trunc (x : Q) : Z := if Qle_bool 0 x then Qfloor x else Qceiling x.
Definition remainder (a b : Q) : Q := a - b * inject_Z (trunc (a / b)).

(** [formatTime] of [exportSongToText]: [mm:ss:mmm].  The quotient by 60
    and the product with 1000 are exact here and rounded in the source,
    where [ms] can come out one higher or lower when the exact product is
    next to a half. *)
Definition formatTime (seconds : Q) : string :=
  let mins := Qfloor (seconds / 60) in
  let secs := Qfloor (remainder seconds 60) in
  let ms := JS.round ((seconds - inject_Z (Qfloor seconds)) * 1000) in
  let mm := padStart 2 "0" (ofInt mins) in
  let ss := padStart 2 "0" (ofInt secs) in
  let mmm := padStart 3 "0" (ofInt ms) in
  (mm ++ ":" ++ ss ++ ":" ++ mmm)%string.

Record Song : Type := mkSong {
  id : string;
  title : string;
  artist : string;
  tempo : Q;
  duration : Q;
  timeSignature : Z * Z;
  key : string;
  notes : list Note.t
}.

(** The line that the [forEach] of [exportSongToText] pushes for a note. *)
Definition exportLine (note : Note.t) : string :=
  let startTime := formatTime (Note.time note) in
  let endTime := formatTime (Note.time note + Note.duration note) in
  let pitchName := Music.getMidiNoteName (Note.pitch note) in
  let lyric := match Note.lyric note with Some l => l | None => EmptyString end in
  trim (startTime ++ "-" ++ endTime ++ String tab pitchName
        ++ String tab lyric)%string.

Definition exportSongToText (song : Song) : string :=
  let header := (title song ++ String tab (artist song))%string in
  join lineFeed (header :: List.map exportLine (notes song)).

(** ** Import *)

(** The optional end of both timestamp patterns, [(?:[.:](\d{1,3}))?$]:
    [Some None] when it matches the empty string, [Some (Some digits)]
    when the group takes part. *)
Definition matchFraction (s : string) : option (option string) :=
  match s with
  | EmptyString => Some None
  | String c rest =>
      if Ascii.eqb c "." || Ascii.eqb c ":" then
        let (digits, after) := spanDigits rest in
        if ((1 <=? String.length digits) && (String.length digits <=? 3))%nat
           && String.eqb after EmptyString
        then Some (Some digits) else None
      else None
  end.

(** [t.match(/^(\d+):(\d{1,2})(?:[.:](\d{1,3}))?$/)]: the three groups. *)
Definition matchMinSec (t : string) : option (string * string * option string) :=
  let (m1, after1) := spanDigits t in
  if (String.length m1 =? 0)%nat then None else
  match after1 with
  | String c after =>
      if Ascii.eqb c ":" then
        let (m2, after2) := spanDigits after in
        if ((1 <=? String.length m2) && (String.length m2 <=? 2))%nat
        then option_map (fun m3 => (m1, m2, m3)) (matchFraction after2)
        else None
      else None
  | EmptyString => None
  end.

(** [t.match(/^(\d+)(?:[.:](\d{1,3}))?$/)]: the two groups. *)
Definition matchSec (t : string) : option (string * option string) :=
  let (m1, after1) := spanDigits t in
  if (String.length m1 =? 0)%nat then None
  else option_map (fun m2 => (m1, m2)) (matchFraction after1).

(** [m ? parseInt(m.padEnd(3, '0'), 10) : 0] *)
Definition millis (m : option string) : Z :=
  match m with
  | Some digits => parseInt (padEnd 3 "0" digits)
  | None => 0%Z
  end.

(** The body shared by [parseTS] and [toSeconds], up to what they do
    when neither pattern matches. *)
Definition stampValue (t : string) : option Q :=
  match matchMinSec t with
  | Some (m1, m2, m3) =>
      let min := parseInt m1 in
      let sec := parseInt m2 in
      let ms := millis m3 in
      Some (inject_Z min * 60 + inject_Z sec + inject_Z ms / 1000)
  | None =>
      match matchSec t with
      | Some (m1, m2) =>
          let sec := parseInt m1 in
          let ms := millis m2 in
          Some (inject_Z sec + inject_Z ms / 1000)
      | None => None
      end
  end.

(** [parseTS] of [isRangeLine]: [None] stands for [null]. *)
Definition parseTS (s : string) : option Q := stampValue (trim s).

(** [toSeconds]; the stamp is [undefined] when the range has no [-]. *)
Definition toSeconds (stamp : option string) : outcome Q :=
  match stamp with
  | None => Throws TypeErrorOnUndefined
  | Some stamp =>
      match stampValue (trim stamp) with
      | Some seconds => Returns seconds
      | None => Throws (BadTimestamp stamp)
      end
  end.

Definition isRangeLine (line : string) : bool :=
  let first := nth 0 (split tab line) EmptyString in
  if String.eqb first EmptyString || negb (includes "-" first) then false
  else
    let pieces := split "-" first in
    let a := nth 0 pieces EmptyString in
    let b := nth 1 pieces EmptyString in   (* defined: [first] includes "-" *)
    match parseTS a, parseTS b with
    | Some _, Some _ => true
    | _, _ => false
    end.

Definition noteMap : list (string * Z) :=
  [("C", 0); ("C#", 1); ("Db", 1); ("D", 2); ("D#", 3); ("Eb", 3);
   ("E", 4); ("F", 5); ("F#", 6); ("Gb", 6); ("G", 7); ("G#", 8);
   ("Ab", 8); ("A", 9); ("A#", 10); ("Bb", 10); ("B", 11)]%string%Z.

(** [map[key]]: [None] stands for [undefined]. *)
Fixpoint lookup (key : string) (map : list (string * Z)) : option Z :=
  match map with
  | [] => None
  | (k, v) :: rest => if String.eqb k key then Some v else lookup key rest
  end.

(** [[A-G]] and [[#b]] *)
Definition isNoteLetter (c : ascii) : bool :=
  let n := nat_of_ascii c in ((65 <=? n) && (n <=? 71))%nat.
Definition isAccidental (c : ascii) : bool :=
  Ascii.eqb c "#" || Ascii.eqb c "b".

(** [s.match(/^([A-G])([#b]?)(\d)$/)]: letter, accidental, octave. *)
Definition matchPitch (s : string) : option (string * string * string) :=
  match s with
  | String letter (String d EmptyString) =>
      if isNoteLetter letter && isDigit d
      then Some (String letter EmptyString, EmptyString, String d EmptyString)
      else None
  | String letter (String accidental (String d EmptyString)) =>
      if isNoteLetter letter && isAccidental accidental && isDigit d
      then Some (String letter EmptyString, String accidental EmptyString,
                 String d EmptyString)
      else None
  | _ => None
  end.

(** What [toMidi] returns; the number is [NaN] ([None]) for a spelling
    that is not a key of [noteMap]. *)
Record Pitch : Type := mkPitch {
  midi : option Z;
  name : option string
}.

Definition toMidi (pitchStr : string) : outcome Pitch :=
  let s := trim pitchStr in
  if allDigits s then
    let midi := parseInt s in
    Returns (mkPitch (Some midi) (Music.getMidiNoteNameOnly midi))
  else
    match matchPitch s with
    | None => Throws (BadPitch s)
    | Some (letter, accidental, octaveStr) =>
        let octave := parseInt octaveStr in
        let value := lookup (letter ++ accidental) noteMap in
        let midi := option_map (fun value => ((octave + 1) * 12 + value)%Z) value in
        Returns (mkPitch midi (Some (letter ++ accidental)%string))
    end.

Section WithMath.
Context {M : MathLib}.

(** A note as the import builds it: the pitch, and with it the
    frequency, is [NaN] ([None]) where [toMidi] returns [NaN]. *)
Record ImportedNote : Type := mkNote {
  noteId : string;
  time : Q;
  noteDuration : Q;
  pitch : option Z;
  noteName : option string;
  frequency : option Q;
  velocity : Z;
  lyric : option string
}.

(** The body of the loop over the lines: [Returns None] for a line that is
    skipped, otherwise the note pushed and the end of its range.  (The
    seconds of a stamp and the difference [end - start] are exact here
    and rounded in the source.) *)
Definition parseLine (idx : nat) (line : string)
  : outcome (option (ImportedNote * Q)) :=
  let cols := split tab line in
  if (List.length cols <? 3)%nat then Returns None else
  let range := nth 0 cols EmptyString in
  let pitchCol := nth 1 cols EmptyString in
  let lyric := trim (join tab (skipn 2 cols)) in
  let pieces := split "-" range in
  andThen (toSeconds (nth_error pieces 0)) (fun start =>
  andThen (toSeconds (nth_error pieces 1)) (fun end_ =>
  let dur := end_ - start in
  andThen (toMidi pitchCol) (fun p =>
  Returns (Some (mkNote (ofInt (Z.of_nat idx + 1)) start dur (midi p) (name p)
                   (option_map Music.midiToFrequency (midi p)) 80
                   (if String.eqb lyric EmptyString then None else Some lyric),
            end_))))).

(** The loop: the notes pushed and the running [maxTime]. *)
Fixpoint parseLines (idx : nat) (rawLines : list string)
         (notes : list ImportedNote) (maxTime : Q)
  : outcome (list ImportedNote * Q) :=
  match rawLines with
  | [] => Returns (notes, maxTime)
  | line :: rest =>
      andThen (parseLine idx line) (fun parsed =>
      match parsed with
      | None => parseLines (S idx) rest notes maxTime
      | Some (note, end_) =>
          parseLines (S idx) rest (notes ++ [note])
                     (if JS.Qlt_bool maxTime end_ then end_ else maxTime)
      end)
  end.

(** [text.replace(/\r\n/g, '\n')] *)
Fixpoint replaceCRLF (text : string) : string :=
  match text with
  | EmptyString => EmptyString
  | String c rest =>
      match rest with
      | String c' rest' =>
          if Ascii.eqb c carriageReturn && Ascii.eqb c' lineFeed
          then String lineFeed (replaceCRLF rest')
          else String c (replaceCRLF rest)
      | EmptyString => String c EmptyString
      end
  end.

(** [title.toLowerCase()] on code units below 256. *)
Definition toLowerCase (c : ascii) : ascii :=
  let n := nat_of_ascii c in
  if ((65 <=? n) && (n <=? 90) || (192 <=? n) && (n <=? 222)
      && negb (n =? 215))%nat
  then ascii_of_nat (n + 32) else c.

(** [[a-z0-9]] *)
Definition isSlugChar (c : ascii) : bool :=
  let n := nat_of_ascii c in
  ((97 <=? n) && (n <=? 122) || (48 <=? n) && (n <=? 57))%nat.

(** [.replace(/[^a-z0-9]+/g, '-')]: [inRun] tells that the previous
    character was replaced already. *)
Fixpoint dashRuns (inRun : bool) (s : string) : string :=
  match s with
  | EmptyString => EmptyString
  | String c rest =>
      if isSlugChar c then String c (dashRuns false rest)
      else if inRun then dashRuns true rest
      else String "-" (dashRuns true rest)
  end.

(** [.replace(/^-|-$/g, '')] *)
Fixpoint dropLastDash (s : string) : string :=
  match s with
  | EmptyString => EmptyString
  | String c rest =>
      match rest with
      | EmptyString => if Ascii.eqb c "-" then EmptyString else s
      | _ => String c (dropLastDash rest)
      end
  end.
Definition stripDashes (s : string) : string :=
  dropLastDash (match s with
                | String c rest => if Ascii.eqb c "-" then rest else s
                | EmptyString => EmptyString
                end).

(** [n.toString(36)] *)
Definition digit36 (n : nat) : ascii :=
  if (n <? 10)%nat then ascii_of_nat (48 + n) else ascii_of_nat (87 + n).
Fixpoint toBase36 (fuel n : nat) : string :=
  match fuel with
  | O => EmptyString
  | S fuel =>
      if (n <? 36)%nat then String (digit36 n) EmptyString
      else (toBase36 fuel (n / 36) ++ String (digit36 (n mod 36)) EmptyString)%string
  end.
Definition toString36 (n : nat) : string := toBase36 (S n) n.

Record ImportedSong : Type := mkImported {
  songId : string;
  songTitle : string;
  songArtist : string;
  songTempo : Q;
  songDuration : Z;
  songTimeSignature : Z * Z;
  songKey : string;
  songNotes : list ImportedNote
}.

(** [parseTextToSong]; [dateNow] is what [Date.now()] returns. *)
Definition parseTextToSong (text : string) (dateNow : Z) : outcome ImportedSong :=
  let rawLines :=
    filter (fun l => (0 <? String.length (trim l))%nat)
           (split lineFeed (replaceCRLF text)) in
  match rawLines with
  | [] =>
      Returns (mkImported ("imported-" ++ ofInt dateNow) "Untitled song"
                     "Untitled author" 120 0 (4, 4)%Z "C Major" [])
  | first :: rest =>
      let '(title, artist, idx, lines) :=
        if negb (isRangeLine first) then
          let parts := split tab first in
          let t := nth 0 parts EmptyString in
          let a := nth 1 parts "Untitled author"%string in
          (orElse (trim t) "Untitled song", orElse (trim a) "Untitled author",
           1%nat, rest)
        else ("Untitled song"%string, "Untitled author"%string, 0%nat, rawLines) in
      andThen (parseLines idx lines [] 0) (fun '(notes, maxTime) =>
      let titleSlug :=
        orElse (stripDashes
                  (dashRuns false
                     (string_of_list_ascii
                        (List.map toLowerCase (list_ascii_of_string title)))))
               "untitled" in
      let contentHash :=
        (toString36 (String.length text)
         ++ toString36 (List.length notes))%string in
      let stableId := (titleSlug ++ "-" ++ contentHash)%string in
      Returns (mkImported stableId title artist 120 (Qceiling (maxTime + 2))
                     (4, 4)%Z "C Major" notes))
  end.

End WithMath.
End SongText.

(* ================================================================== *)
(** * Words for the text format *)

Module TextSpec.
Import Str.

(** No character of [s] satisfies [p]. *)
Definition free (p : ascii -> bool) (s : string) : Prop :=
  forallb (fun c => negb (p c)) (list_ascii_of_string s) = true.

(** The part of a time after its whole seconds. *)
Definition fraction (seconds : Q) : Q := seconds - inject_Z (Qfloor seconds).

(** A time that the export prints with three digits of milliseconds, with
    room for the rounding of the doubles in [seconds / 60] and in the
    product with 1000: not negative, at most [10^9] seconds, and at most
    0.999 after the whole seconds. *)
Definition stampable (seconds : Q) : Prop :=
  0 <= seconds <= 1000000000 /\ fraction seconds <= 999 # 1000.

(** [seconds] to the nearest millisecond, as [formatTime] prints it. *)
Definition millisOf (seconds : Q) : Z :=
  JS.round ((seconds - inject_Z (Qfloor seconds)) * 1000).

(** The characters of a printed integer: digits and the minus sign. *)
Definition isNumberChar (c : ascii) : bool := isDigit c || Ascii.eqb c "-".

(** [parseInt] from a value already read. *)
Definition parseFrom (value : Z) (digits : string) : Z :=
  fold_left (fun value c => (10 * value + digitValue c)%Z)
            (list_ascii_of_string digits) value.

(** Line feed and carriage return. *)
Definition isLineBreak (c : ascii) : bool :=
  Ascii.eqb c lineFeed || Ascii.eqb c carriageReturn.

(** [note.lyric || ''] *)
Definition lyricOf (note : Note.t) : string :=
  match Note.lyric note with Some l => l | None => EmptyString end.

(** What a note has to be for its line to be read back: a lyric without
    line breaks and, unless the lyric is blank, a start and an end that
    are [stampable] and a pitch in the octaves 0 to 9. *)
Definition exportable (note : Note.t) : Prop :=
  free isLineBreak (lyricOf note) /\
  (trim (lyricOf note) <> EmptyString ->
   stampable (Note.time note) /\
   stampable (Note.time note + Note.duration note) /\
   (12 <= Note.pitch note <= 131)%Z).

Section WithMath.
Context {M : MathLib}.

(** The note that the import makes of the line of [note], found as line
    number [line] of the text (the header is line 1): the start is the
    note's to the millisecond, the duration to two milliseconds. *)
Definition readAs (line : nat) (note : Note.t)
           (imported : SongText.ImportedNote) : Prop :=
  SongText.noteId imported = ofInt (Z.of_nat line) /\
  Qabs (SongText.time imported - Note.time note) <= 1 # 1000 /\
  Qabs (SongText.noteDuration imported - Note.duration note) <= 2 # 1000 /\
  SongText.pitch imported = Some (Note.pitch note) /\
  SongText.noteName imported = Music.getMidiNoteNameOnly (Note.pitch note) /\
  SongText.frequency imported = Some (Music.midiToFrequency (Note.pitch note)) /\
  SongText.velocity imported = 80%Z /\
  SongText.lyric imported = Some (trim (lyricOf note)).

(** The notes read back from the lines of [notes], the first of them
    line number [line]: those with a blank lyric are missing. *)
Inductive readBack : nat -> list Note.t -> list SongText.ImportedNote -> Prop :=
| readBack_nil line : readBack line [] []
| readBack_skip line note notes imported :
    trim (lyricOf note) = EmptyString ->
    readBack (S line) notes imported ->
    readBack line (note :: notes) imported
| readBack_keep line note notes first imported :
    trim (lyricOf note) <> EmptyString ->
    readAs line note first ->
    readBack (S line) notes imported ->
    readBack line (note :: notes) (first :: imported).

End WithMath.

End TextSpec.

(* ================================================================== *)
(** * [transposeKey] of [src/utils/musicUtils.ts] *)

Module Key.
Import Str.

Definition keyMap : list (string * Z) :=
  [("C", 0); ("C#", 1); ("Db", 1); ("D", 2); ("D#", 3); ("Eb", 3);
   ("E", 4); ("F", 5); ("F#", 6); ("Gb", 6); ("G", 7); ("G#", 8);
   ("Ab", 8); ("A", 9); ("A#", 10); ("Bb", 10); ("B", 11)]%string%Z.

Definition reverseKeyMap : list string :=
  ["C"; "C#"; "D"; "D#"; "E"; "F"; "F#"; "G"; "G#"; "A"; "A#"; "B"]%string.

(** The properties that every object literal inherits from
    [Object.prototype]: [rootNote in keyMap] holds for these names too. *)
Definition inherited : list string :=
  ["constructor"; "hasOwnProperty"; "isPrototypeOf"; "propertyIsEnumerable";
   "toLocaleString"; "toString"; "valueOf"; "__proto__"; "__defineGetter__";
   "__defineSetter__"; "__lookupGetter__"; "__lookupSetter__"]%string.

Definition space : ascii := " "%char.

Definition transposeKey (originalKey : string) (semitones : Z) : string :=
  let parts := split space originalKey in
  let rootNote := nth 0 parts EmptyString in
  let mode :=
    if (1 <? List.length parts)%nat then join space (skipn 1 parts)
    else "Major"%string in
  match SongText.lookup rootNote keyMap with
  | Some originalSemitone =>
      let newSemitone := JS.rem (originalSemitone + semitones) 12 in
      let newSemitone :=
        if (newSemitone <? 0)%Z then (newSemitone + 12)%Z else newSemitone in
      let newRootNote :=
        match nth_error reverseKeyMap (Z.to_nat newSemitone) with
        | Some name => name
        | None => "undefined"%string
        end in
      (newRootNote ++ " " ++ mode)%string
  | None =>
      if existsb (String.eqb rootNote) inherited then
        (* the inherited value is not a number: the sum is a string, its
           remainder [NaN], and [reverseKeyMap[NaN]] is [undefined] *)
        ("undefined" ++ " " ++ mode)%string
      else originalKey
  end.

(** The first word of a key, and whether it is a key of [keyMap]. *)
Definition rootOf (key : string) : string :=
  nth 0 (split space key) EmptyString.
Definition knownRoot (key : string) : Prop :=
  SongText.lookup (rootOf key) keyMap <> None.

End Key.

(* ================================================================== *)
(** * The timeline of the playback in [src/App.tsx] *)

Module Playback.
Import JS App.

Record TimelineState : Type := mkTimeline {
  currentTime : Q;
  isPlaying : bool;
  scrollPosition : Q;
  zoom : Q;
  viewportWidth : Q
}.

(** The updater that a frame passes to [setTimeline], with the results it
    sets when the song is completed.  [playbackRate] is [None] for
    [undefined]; [noteHits] and [dateNow] are the hits and the clock when
    the updater runs. *)
Definition advanceTimeline (actualSongDuration : Z) (playbackRate : option Q)
           (notes : list Note.t) (noteHits : list string) (dateNow : Z)
           (prev : TimelineState) (dt : Q)
  : TimelineState * option SongResults :=
  let rate := match playbackRate with Some r => r | None => 1 end in
  let rawNewTime := currentTime prev + dt * rate in
  let newTime := Qmax 0 rawNewTime in
  if Qle_bool (inject_Z actualSongDuration) newTime then
    (mkTimeline 0 false (scrollPosition prev) (zoom prev) (viewportWidth prev),
     Some (songResults notes noteHits dateNow))
  else
    (mkTimeline newTime (isPlaying prev) (scrollPosition prev) (zoom prev)
                (viewportWidth prev),
     None).

(** The frames of a playback, [dts] their time steps in seconds: the
    effect requests frames only while the timeline is playing. *)
Fixpoint frames (playbackRate : option Q) (notes : list Note.t)
         (noteHits : list string) (dateNow : Z)
         (prev : TimelineState) (dts : list Q)
  : list (TimelineState * option SongResults) :=
  match dts with
  | [] => []
  | dt :: rest =>
      if isPlaying prev then
        let next := advanceTimeline (calculateSongDuration notes) playbackRate
                                    notes noteHits dateNow prev dt in
        next :: frames playbackRate notes noteHits dateNow (fst next) rest
      else []
  end.

End Playback.

(* ================================================================== *)
(** * Snapshots tick by tick *)

Module Freshness.
Import JS Analyzer Session.
Section WithMath.
Context {M : MathLib}.

(** Along a session, a tick emits a snapshot exactly when its lookup
    completes. *)
Fixpoint showsEveryCompletedTick (props : Props) (refs : Refs)
         (inputs : list TickInput) : Prop :=
  match inputs with
  | [] => True
  | i :: rest =>
      emitsSnapshot (snd (step props refs i)) = completes props refs i /\
      showsEveryCompletedTick props (fst (step props refs i)) rest
  end.

End WithMath.
End Freshness.

(* ================================================================== *)
(** * [centsToNearestOctave] at the ends of the range of doubles *)

(** [Analyzer.centsToNearestOctave] takes the quotient of the two
    frequencies as a finite positive number.  The quotient of two finite
    positive doubles can leave the finite positive numbers at either end
    of the range; this module follows the function there. *)
Module Range.
Import JS Analyzer.
Section WithMath.
Context {M : MathLib}.

(** [Number.MAX_VALUE], [2^1024 - 2^971], and [Number.MIN_VALUE],
    [2^-1074]. *)
Definition MAX_VALUE : Q := inject_Z (2 ^ 1024 - 2 ^ 971).
Definition MIN_VALUE : Q := 1 # (2 ^ 1074).

(** A quotient at or above [MAX_VALUE] plus half the distance to the
    double before it rounds to [Infinity]; one at or below half of
    [MIN_VALUE] rounds to [0]. *)
Definition overflows (q : Q) : bool :=
  Qle_bool (MAX_VALUE + inject_Z (2 ^ 970)) q.
Definition underflows (q : Q) : bool := Qle_bool q (MIN_VALUE / 2).

(** [a / b] on finite positive operands (the rounding inside the range is
    not modelled). *)
Definition quotient (a b : Q) : num :=
  if overflows (a / b) then PInf
  else if underflows (a / b) then Fin 0
  else Fin (a / b).

(** [Math.log2]: [-Infinity] at zero, [Infinity] at [Infinity], [NaN] at
    [NaN] and below zero. *)
Definition log2 (x : num) : num :=
  match x with
  | Fin q =>
      if Qlt_bool 0 q then Fin (Mlog2 q)
      else if Qeq_bool q 0 then NInf else NaN
  | PInf => PInf
  | NInf | NaN => NaN
  end.

(** [k * x], [x - k] and [x + k] for a finite positive [k]: the infinities
    and [NaN] stay what they are. *)
Definition times (k : Q) (x : num) : num :=
  match x with Fin q => Fin (k * q) | other => other end.
Definition minus (x : num) (k : Q) : num :=
  match x with Fin q => Fin (q - k) | other => other end.
Definition plus (x : num) (k : Q) : num :=
  match x with Fin q => Fin (q + k) | other => other end.

(** [while (cents > 600) cents -= 1200;] run for at most [fuel]
    iterations: [None] when the guard still holds after them. *)
Fixpoint whileAbove (fuel : nat) (cents : num) : option num :=
  if gtb cents (Fin 600) then
    match fuel with
    | O => None
    | S fuel' => whileAbove fuel' (minus cents 1200)
    end
  else Some cents.

(** [while (cents < -600) cents += 1200;] *)
Fixpoint whileBelow (fuel : nat) (cents : num) : option num :=
  if ltb cents (Fin (-600)) then
    match fuel with
    | O => None
    | S fuel' => whileBelow fuel' (plus cents 1200)
    end
  else Some cents.

(** The function with at most [fuel] iterations of either loop: [None]
    when a loop has not ended by then. *)
Definition centsToNearestOctave (fuel : nat) (targetHz detectedHz : num)
  : option num :=
  match targetHz, detectedHz with
  | Fin target, Fin detected =>
      if Qle_bool target 0 || Qle_bool detected 0 then Some (Fin 0)
      else
        match whileAbove fuel (times 1200 (log2 (quotient detected target))) with
        | Some cents => whileBelow fuel cents
        | None => None
        end
  | _, _ => Some (Fin 0)       (* !isFinite(targetHz) || !isFinite(detectedHz) *)
  end.

End WithMath.
End Range.

(* ================================================================== *)
(** * Properties *)

(** ** Comparisons *)

Lemma Qlt_bool_iff (a b : Q) : JS.Qlt_bool a b = true <-> a < b.
Proof.
  unfold JS.Qlt_bool. rewrite negb_true_iff.
  destruct (Qle_bool b a) eqn:E.
  - apply Qle_bool_iff in E. split; [discriminate | intros; lra].
  - split; [intros _ | reflexivity].
    destruct (Qlt_le_dec a b) as [|H]; [assumption|].
    apply Qle_bool_iff in H. congruence.
Qed.

Lemma Qlt_bool_false (a b : Q) : JS.Qlt_bool a b = false <-> b <= a.
Proof.
  unfold JS.Qlt_bool. rewrite negb_false_iff. apply Qle_bool_iff.
Qed.

Lemma Qle_bool_false (a b : Q) : Qle_bool a b = false <-> b < a.
Proof.
  rewrite <- Qlt_bool_iff. unfold JS.Qlt_bool.
  destruct (Qle_bool a b); simpl; split; congruence.
Qed.

(** Turn the boolean comparisons of the context and the goal into
    propositions that [lra] understands. *)
Ltac qbool :=
  repeat match goal with
  | H : JS.Qlt_bool _ _ = true |- _ => apply Qlt_bool_iff in H
  | H : JS.Qlt_bool _ _ = false |- _ => apply Qlt_bool_false in H
  | H : Qle_bool _ _ = true |- _ => apply Qle_bool_iff in H
  | H : Qle_bool _ _ = false |- _ => apply Qle_bool_false in H
  | |- JS.Qlt_bool _ _ = true => apply Qlt_bool_iff
  | |- JS.Qlt_bool _ _ = false => apply Qlt_bool_false
  | |- Qle_bool _ _ = true => apply Qle_bool_iff
  | |- Qle_bool _ _ = false => apply Qle_bool_false
  end.

(** ** The target note tracker *)

Module TrackerFacts.
Import JS Analyzer Examples.

Lemma advanceLoop_ge fuel notes t idx :
  (idx <= advanceLoop fuel notes t idx)%nat.
Proof.
  revert idx. induction fuel as [|fuel IH]; intros idx; cbn [advanceLoop]; [lia|].
  destruct (nth_error notes idx) as [n|]; [|lia].
  destruct (gtb t (Fin (noteEnd n))); [|lia].
  specialize (IH (S idx)). lia.
Qed.

(** The fuel of [advance] never cuts the loop short: where it stops, the
    loop condition is false. *)
Lemma advance_exit notes t idx :
  (idx <= List.length notes)%nat ->
  let i := advance notes t idx in
  i = List.length notes \/
  exists n, nth_error notes i = Some n /\ gtb t (Fin (noteEnd n)) = false.
Proof.
  unfold advance. remember (List.length notes - idx)%nat as fuel eqn:Ef.
  revert idx Ef. induction fuel as [|fuel IH]; intros idx Ef Hle;
    cbn [advanceLoop].
  - left. lia.
  - destruct (nth_error notes idx) as [n|] eqn:En.
    + destruct (gtb t (Fin (noteEnd n))) eqn:Eg.
      * apply IH; lia.
      * right. exists n. split; assumption.
    + apply nth_error_None in En. left. lia.
Qed.

(** Once the playback time is past the end of every note, the first loop
    runs the cursor up to [notes.length]. *)
Lemma advance_past_every_note notes t idx :
  (forall n, In n notes -> gtb t (Fin (noteEnd n)) = true) ->
  (idx <= List.length notes)%nat ->
  advance notes t idx = List.length notes.
Proof.
  intros Hall. unfold advance.
  remember (List.length notes - idx)%nat as fuel eqn:Ef.
  revert idx Ef. induction fuel as [|fuel IH]; intros idx Ef Hle;
    cbn [advanceLoop].
  - lia.
  - destruct (nth_error notes idx) as [n|] eqn:En.
    + rewrite (Hall n (nth_error_In _ _ En)). apply IH; lia.
    + apply nth_error_None in En. lia.
Qed.

(** With the cursor at [notes.length] of a non-empty array the second loop
    reads [notes[notes.length].time]. *)
Lemma retreat_at_length notes t :
  notes <> [] -> retreat notes t (List.length notes) = Throw TypeError.
Proof.
  intros Hne. destruct notes as [|n notes]; [congruence|].
  cbn [List.length retreat].
  assert (E : nth_error (n :: notes) (S (List.length notes)) = None)
    by (apply nth_error_None; simpl; lia).
  rewrite E. reflexivity.
Qed.

(** From an index of the array the second loop reads in bounds only and
    ends at an index of the array. *)
Lemma retreat_in_bounds notes t idx :
  (idx < List.length notes)%nat ->
  exists i, retreat notes t idx = Ok i /\ (i <= idx)%nat.
Proof.
  induction idx as [|idx IH]; intros Hlt.
  - exists 0%nat. split; [reflexivity | lia].
  - cbn [retreat].
    destruct (nth_error notes (S idx)) as [n|] eqn:En.
    + destruct (ltb t (Fin (Note.time n))).
      * destruct (IH ltac:(lia)) as (i & Hi & Hle). exists i. split; [assumption | lia].
      * exists (S idx). split; [reflexivity | lia].
    + apply nth_error_None in En. lia.
Qed.

(** The lookup fails in one situation only: a non-empty array with the
    cursor run up to its length. *)
Lemma lookup_completes_iff {M : MathLib} notes semitones t idx0 :
  (idx0 <= List.length notes)%nat ->
  (exists r, locateTarget notes semitones t idx0 = Ok r) <->
  (notes = [] \/ (advance notes t idx0 < List.length notes)%nat).
Proof.
  intros Hle. unfold locateTarget, bind.
  pose proof (advanceLoop_ge (List.length notes - idx0) notes t idx0) as Hge.
  fold (advance notes t idx0) in Hge.
  destruct (advance_exit notes t idx0 Hle) as [Ha|(n & Hn & _)].
  - rewrite Ha. destruct notes as [|n0 notes].
    + split; [left; reflexivity | intros _; eexists; reflexivity].
    + rewrite (retreat_at_length (n0 :: notes) t) by discriminate.
      split; [intros [r Hr]; discriminate Hr|].
      intros [H|H]; [discriminate H | lia].
  - assert (Hlt : (advance notes t idx0 < List.length notes)%nat).
    { apply nth_error_Some. congruence. }
    destruct (retreat_in_bounds notes t _ Hlt) as (i & Hi & _).
    rewrite Hi. split; [intros _; right; assumption | intros _; eexists; reflexivity].
Qed.

(** When the lookup completes, the cursor it leaves is an index of the
    array or its length, and the target is the note under the cursor
    exactly when the playback time lies in its interval. *)
Lemma locateTarget_ok {M : MathLib} notes semitones t idx0 idx target :
  locateTarget notes semitones t idx0 = Ok (idx, target) ->
  match target with
  | Some tn =>
      exists c, nth_error notes idx = Some c /\
                tn = Music.transposeNote c semitones /\
                geb t (Fin (Note.time c)) = true /\
                leb t (Fin (noteEnd c)) = true
  | None =>
      forall c, nth_error notes idx = Some c ->
                geb t (Fin (Note.time c)) && leb t (Fin (noteEnd c)) = false
  end.
Proof.
  unfold locateTarget, bind.
  destruct (retreat notes t (advance notes t idx0)) as [i|e]; [|discriminate].
  intros H. injection H as <- <-.
  unfold candidateAt, inNote.
  destruct (nth_error notes i) as [c|] eqn:Ec; cbn [option_map].
  - destruct (geb t (Fin (Note.time c)) && leb t (Fin (noteEnd c))) eqn:E.
    + apply andb_true_iff in E. destruct E as [E1 E2].
      exists c. repeat split; assumption.
    + intros c' [= <-]. assumption.
  - intros c' Hc. discriminate Hc.
Qed.

(** C1.  The specification's example: at [t = 0.5] the lookup resolves to
    "a" and at [t = 1.5] to "b", both active; at [t = 2.5] the first loop
    leaves the cursor at [notes.length = 2], the second loop reads
    [notes[2].time] and throws, and the tick is abandoned in its [catch]:
    it reports nothing (no target, no snapshot) and leaves every ref,
    the cursor included, as it was. *)
Theorem tracker_example_ticks (M : MathLib) :
  let notes := [noteA; noteB] in
  (exists tn, locateTarget notes 0 (Fin (1 # 2)) 0 = Ok (0%nat, Some tn)
              /\ Note.id tn = "a"%string) /\
  (exists tn, locateTarget notes 0 (Fin (3 # 2)) 0 = Ok (1%nat, Some tn)
              /\ Note.id tn = "b"%string) /\
  advance notes (Fin (5 # 2)) 1 = 2%nat /\
  locateTarget notes 0 (Fin (5 # 2)) 1 = Throw TypeError /\
  forall held ui fl buf now pr,
    tick (mkProps notes 0) (mkRefs 1 held ui fl buf) now pr (Fin (5 # 2))
    = (mkRefs 1 held ui fl buf, []).
Proof.
  cbv zeta. split; [|split; [|split; [|split]]].
  - eexists. split; reflexivity.
  - eexists. split; reflexivity.
  - reflexivity.
  - reflexivity.
  - intros. reflexivity.
Qed.

(** C10.  For every non-empty note sequence and every playback time past
    the end of all its notes, the lookup does not complete: the cursor
    reaches [notes.length] and the second loop dereferences the entry at
    that index, which is out of bounds. *)
Theorem lookup_past_last_note_throws (M : MathLib) notes semitones t idx0 :
  notes <> [] ->
  (idx0 <= List.length notes)%nat ->
  (forall n, In n notes -> gtb t (Fin (noteEnd n)) = true) ->
  advance notes t idx0 = List.length notes /\
  nth_error notes (List.length notes) = None /\
  locateTarget notes semitones t idx0 = Throw TypeError.
Proof.
  intros Hne Hle Hall.
  pose proof (advance_past_every_note notes t idx0 Hall Hle) as Ea.
  split; [assumption|]. split.
  - apply nth_error_None. lia.
  - unfold locateTarget. rewrite Ea, (retreat_at_length notes t Hne).
    reflexivity.
Qed.

Lemma lookup_past_last_note_throws_witness :
  advance [noteA; noteB] (Fin (5 # 2)) 0 = 2%nat /\
  nth_error [noteA; noteB] 2 = None /\
  locateTarget [noteA; noteB] 0 (Fin (5 # 2)) 0 = Throw TypeError.
Proof.
  apply (lookup_past_last_note_throws ref_math [noteA; noteB] 0 (Fin (5 # 2)) 0).
  - discriminate.
  - simpl. lia.
  - intros n [<- | [<- | []]]; reflexivity.
Defined.

End TrackerFacts.

(** ** The note-hit guard *)

Module GuardFacts.
Import JS Analyzer Session Examples.

Lemma hitsOf_app n evs1 evs2 :
  hitsOf n (evs1 ++ evs2) = (hitsOf n evs1 + hitsOf n evs2)%nat.
Proof. unfold hitsOf. rewrite filter_app, length_app. reflexivity. Qed.

Lemma hitsOf_history n buf : hitsOf n (List.map VoiceHistoryUpdate buf) = 0%nat.
Proof. induction buf as [|h buf IH]; [reflexivity | exact IH]. Qed.

Lemma hitsOf_snapshot n (b : bool) a :
  hitsOf n (if b then [VoiceAnalysisUpdate a] else []) = 0%nat.
Proof. destruct b; reflexivity. Qed.

Lemma hitsOf_flush n (b : bool) buf :
  hitsOf n (if b then List.map VoiceHistoryUpdate buf else []) = 0%nat.
Proof. destruct b; [apply hitsOf_history | reflexivity]. Qed.

(** What one tick does to the guard and which hits it emits, read off the
    active target and the classification. *)
Lemma step_guard {M : MathLib} props refs i m :
  let refs' := fst (step props refs i) in
  let evs := snd (step props refs i) in
  match activeTarget props refs i with
  | Some tn =>
      if classifiedOnPitch props refs i && truthy (Note.id tn)
         && differsFrom (lastHitNoteIdRef refs) (Note.id tn)
      then lastHitNoteIdRef refs' = Some (Note.id tn) /\
           hitsOf m evs = (if String.eqb (Note.id tn) m then 1 else 0)%nat
      else lastHitNoteIdRef refs' = lastHitNoteIdRef refs /\
           hitsOf m evs = 0%nat
  | None =>
      hitsOf m evs = 0%nat /\
      lastHitNoteIdRef refs' =
        (if completes props refs i
         then match pitchResult i with
              | Some _ => None
              | None => lastHitNoteIdRef refs
              end
         else lastHitNoteIdRef refs)
  end.
Proof.
  unfold step, tick, activeTarget, classifiedOnPitch, completes, activeTarget.
  destruct (locateTarget (notes props) (transpositionSemitones props)
                         (playbackTime i) (currentNoteIndexRef refs))
    as [[idx target]|e]; cbn zeta; [|split; reflexivity].
  destruct (pitchResult i) as [pr|]; destruct target as [tn|];
    cbn [analyse arbitrate VoiceAnalysis.isOnPitch fst snd andb].
  - destruct (onPitch _ _ && truthy (Note.id tn)
              && differsFrom (lastHitNoteIdRef refs) (Note.id tn));
      cbn [fst snd lastHitNoteIdRef]; split; try reflexivity;
      rewrite !hitsOf_app, hitsOf_snapshot, hitsOf_flush.
    + unfold hitsOf. cbn [filter isHitOf].
      destruct (String.eqb (Note.id tn) m); reflexivity.
    + reflexivity.
  - cbn [fst snd lastHitNoteIdRef]. split; [|reflexivity].
    rewrite !hitsOf_app, hitsOf_snapshot, hitsOf_flush. reflexivity.
  - cbn [fst snd lastHitNoteIdRef]. split; [reflexivity|].
    apply hitsOf_snapshot.
  - cbn [fst snd lastHitNoteIdRef]. split; [|reflexivity].
    apply hitsOf_snapshot.
Qed.

(** A tick on which no pitch was detected never writes the guard. *)
Lemma silent_tick_keeps_guard {M : MathLib} props refs now t :
  lastHitNoteIdRef (fst (tick props refs now None t)) = lastHitNoteIdRef refs.
Proof.
  unfold tick.
  destruct (locateTarget (notes props) (transpositionSemitones props) t
                         (currentNoteIndexRef refs)) as [[idx target]|e];
    reflexivity.
Qed.

(** C2.  The guard is reset only inside the branch that handles a detected
    pitch.  On a tick without a detected pitch the guard is left as it
    is, whatever the tracker reports: with "a" held and the playback time
    in the gap between "b" and "c", the lookup completes, reports no active
    target, and the guard still holds "a" after the tick -- while the same
    tick with a detected pitch resets it. *)
Theorem guard_survives_silent_tick_outside_notes :
  let refs := mkRefs 0 (Some "a"%string) 1000 1000 [] in
  let silent := mkInput 1080 None (Fin (5 # 2)) in
  let sung := mkInput 1080 (Some sungA4) (Fin (5 # 2)) in
  (forall (M : MathLib) props refs now t,
      lastHitNoteIdRef (fst (tick props refs now None t))
      = lastHitNoteIdRef refs) /\
  completes songWithGap refs silent = true /\
  activeTarget songWithGap refs silent = None /\
  lastHitNoteIdRef (fst (step songWithGap refs silent)) = Some "a"%string /\
  lastHitNoteIdRef (fst (step songWithGap refs sung)) = None.
Proof.
  cbv zeta. split; [|repeat split].
  intros. apply silent_tick_keeps_guard.
Qed.

Lemma run_cons_fst {M : MathLib} props refs i rest :
  fst (run props refs (i :: rest))
  = fst (run props (fst (step props refs i)) rest).
Proof.
  cbn [run]. destruct (step props refs i) as [refs1 evs].
  cbn [fst]. destruct (run props refs1 rest). reflexivity.
Qed.

Lemma run_cons_snd {M : MathLib} props refs i rest :
  snd (run props refs (i :: rest))
  = snd (step props refs i) :: snd (run props (fst (step props refs i)) rest).
Proof.
  cbn [run]. destruct (step props refs i) as [refs1 evs].
  cbn [fst snd]. destruct (run props refs1 rest). reflexivity.
Qed.


Lemma differsFrom_true held n : differsFrom held n = true <-> held <> Some n.
Proof.
  destruct held as [h|]; cbn [differsFrom].
  - rewrite negb_true_iff. destruct (String.eqb_spec h n) as [->|Hne].
    + split; [discriminate | congruence].
    + split; [congruence | reflexivity].
  - split; [discriminate | reflexivity].
Qed.

Lemma truthy_true n : truthy n = true <-> n <> ""%string.
Proof.
  unfold truthy. rewrite negb_true_iff.
  destruct (String.eqb_spec n ""); split; congruence.
Qed.










(** When "b" is hit in between, the return to "a" does emit a second hit. *)
Example second_hit_after_hitting_another_note :
  hitsIn "a" (snd (run song initialRefs hitB)) = 2%nat /\
  hitsIn "b" (snd (run song initialRefs hitB)) = 1%nat.
Proof. vm_compute. split; reflexivity. Qed.

(** A pitch detected in the gap between "b" and "c" clears the guard: the
    lookup of that tick completes without an active target, and the return
    to "a" emits a second hit. *)
Example second_hit_after_a_pitch_between_notes :
  let refs1 := fst (step songWithGap initialRefs (nth 0 pitchInGap (mkInput 0 None NaN))) in
  let second := nth 1 pitchInGap (mkInput 0 None NaN) in
  completes songWithGap refs1 second = true /\
  activeTarget songWithGap refs1 second = None /\
  lastHitNoteIdRef refs1 = Some "a"%string /\
  lastHitNoteIdRef (fst (step songWithGap refs1 second)) = None /\
  hitsIn "a" (snd (run songWithGap initialRefs pitchInGap)) = 2%nat.
Proof. vm_compute. repeat split. Qed.

(** A pitch detected past the last note does not: the lookup of that tick
    throws, the guard still holds "a", and the return to "a" emits no
    second hit. *)
Example no_second_hit_after_a_pitch_past_the_last_note :
  let refs1 := fst (step song initialRefs (nth 0 pitchPastEnd (mkInput 0 None NaN))) in
  let refs2 := fst (step song refs1 (nth 1 pitchPastEnd (mkInput 0 None NaN))) in
  let third := nth 2 pitchPastEnd (mkInput 0 None NaN) in
  let refs3 := fst (step song refs2 third) in
  let fourth := nth 3 pitchPastEnd (mkInput 0 None NaN) in
  completes song refs2 third = false /\
  step song refs2 third = (refs2, []) /\
  lastHitNoteIdRef refs3 = Some "a"%string /\
  activeId song refs3 fourth = Some "a"%string /\
  classifiedOnPitch song refs3 fourth = true /\
  hitsOf "a" (snd (step song refs3 fourth)) = 0%nat /\
  hitsIn "a" (snd (run song initialRefs pitchPastEnd)) = 1%nat.
Proof. vm_compute. repeat split. Qed.

End GuardFacts.

(** ** The two throttled output channels *)

Module ThrottleFacts.
Import JS Analyzer Session Examples.

Lemma arbitrate_events held target b :
  snd (arbitrate held target b) = [] \/
  exists noteId, snd (arbitrate held target b) = [NoteHit noteId].
Proof.
  unfold arbitrate. destruct target as [tn|]; [|left; reflexivity].
  destruct (b && truthy (Note.id tn) && differsFrom held (Note.id tn));
    [right; eexists; reflexivity | left; reflexivity].
Qed.

Lemma historyOf_app evs1 evs2 :
  historyOf (evs1 ++ evs2) = historyOf evs1 ++ historyOf evs2.
Proof. unfold historyOf. apply flat_map_app. Qed.

Lemma historyOf_points buf : historyOf (List.map VoiceHistoryUpdate buf) = buf.
Proof.
  induction buf as [|h buf IH]; [reflexivity|].
  cbn [List.map historyOf flat_map app]. f_equal. exact IH.
Qed.

Lemma snapshots_of_points buf :
  existsb isSnapshot (List.map VoiceHistoryUpdate buf) = false.
Proof. induction buf as [|h buf IH]; [reflexivity | exact IH]. Qed.

Lemma channels_of hits (uiDue flushDue : bool) a buf :
  (hits = [] \/ exists noteId, hits = [NoteHit noteId]) ->
  channels (hits ++ (if uiDue then [VoiceAnalysisUpdate a] else [])
                 ++ (if flushDue then List.map VoiceHistoryUpdate buf else []))
           uiDue (if flushDue then buf else []).
Proof.
  intros Hh.
  assert (Hs : existsb isSnapshot hits = false /\ filter isSnapshot hits = []
               /\ historyOf hits = []).
  { destruct Hh as [->|[noteId ->]]; repeat split. }
  destruct Hs as (Hs1 & Hs2 & Hs3).
  split.
  - unfold emitsSnapshot. rewrite !existsb_app, Hs1.
    destruct uiDue, flushDue; cbn [existsb isSnapshot orb];
      rewrite ?snapshots_of_points; reflexivity.
  - rewrite !filter_app, Hs2.
    assert (F : forall l, filter isSnapshot (List.map VoiceHistoryUpdate l) = []).
    { intros l. induction l as [|h l IH]; [reflexivity | exact IH]. }
    destruct uiDue, flushDue; cbn [filter isSnapshot app]; rewrite ?F;
      cbn [List.length]; lia.
  - rewrite !historyOf_app, Hs3.
    destruct uiDue, flushDue; cbn [historyOf flat_map app];
      rewrite ?historyOf_points; reflexivity.
Qed.

(** One tick, as the two channels see it. *)
Lemma step_channels {M : MathLib} props refs i :
  let refs' := fst (step props refs i) in
  let evs := snd (step props refs i) in
  let buf := historyBufferRef refs ++ pointOf props refs i in
  exists uiDue flushDue : bool,
    channels evs uiDue (if flushDue then buf else []) /\
    (if uiDue
     then apart UI_UPDATE_MS (lastUIUpdateTsRef refs) (now i) /\
          lastUIUpdateTsRef refs' = now i
     else lastUIUpdateTsRef refs' = lastUIUpdateTsRef refs) /\
    (if flushDue
     then apart HISTORY_FLUSH_MS (lastHistoryFlushTsRef refs) (now i) /\
          lastHistoryFlushTsRef refs' = now i /\
          historyBufferRef refs' = []
     else lastHistoryFlushTsRef refs' = lastHistoryFlushTsRef refs /\
          historyBufferRef refs' = buf).
Proof.
  cbv zeta.
  unfold step, tick, pointOf, completes, classifiedOnPitch, activeTarget.
  destruct (locateTarget (notes props) (transpositionSemitones props)
                         (playbackTime i) (currentNoteIndexRef refs))
    as [[idx target]|e].
  - destruct (pitchResult i) as [pr|].
    + pose proof (arbitrate_events (lastHitNoteIdRef refs) target
                    (VoiceAnalysis.isOnPitch (analyse target pr (now i)))) as Ha.
      destruct (arbitrate (lastHitNoteIdRef refs) target
                  (VoiceAnalysis.isOnPitch (analyse target pr (now i))))
        as [held hits].
      cbn [snd] in Ha. cbn [fst snd].
      set (uiDue := (now i - lastUIUpdateTsRef refs >=? UI_UPDATE_MS)%Z).
      set (flushDue := (now i - lastHistoryFlushTsRef refs >=? HISTORY_FLUSH_MS)%Z).
      assert (Eon : VoiceAnalysis.isOnPitch (analyse target pr (now i))
                    = match target with
                      | Some tn => VoiceAnalysis.isOnPitch
                                     (analyse (Some tn) pr (now i))
                      | None => false
                      end) by (destruct target; reflexivity).
      rewrite <- Eon.
      set (buf := match playbackTime i with
                  | Fin tq =>
                      historyBufferRef refs ++
                      [VoiceHistory.mk tq (PitchDetectionResult.pitch pr)
                         (VoiceAnalysis.isOnPitch (analyse target pr (now i)))]
                  | _ => historyBufferRef refs
                  end).
      assert (Ebuf : historyBufferRef refs ++
                     match playbackTime i with
                     | Fin tq =>
                         [VoiceHistory.mk tq (PitchDetectionResult.pitch pr)
                            (VoiceAnalysis.isOnPitch (analyse target pr (now i)))]
                     | _ => []
                     end = buf).
      { unfold buf. destruct (playbackTime i); rewrite ?app_nil_r; reflexivity. }
      rewrite Ebuf.
      exists uiDue, flushDue. split; [|split].
      * apply channels_of. assumption.
      * cbn [lastUIUpdateTsRef]. destruct uiDue eqn:E; [|reflexivity].
        split; [|reflexivity]. unfold uiDue in E. unfold apart.
        apply Z.geb_le in E. lia.
      * cbn [lastHistoryFlushTsRef historyBufferRef].
        destruct flushDue eqn:E.
        -- split; [|split; [reflexivity|]].
           ++ unfold flushDue in E. unfold apart. apply Z.geb_le in E. lia.
           ++ destruct buf; reflexivity.
        -- split; reflexivity.
    + cbn [fst snd].
      set (uiDue := (now i - lastUIUpdateTsRef refs >=? UI_UPDATE_MS)%Z).
      exists uiDue, false. split; [|split].
      * pose proof (channels_of [] uiDue false clearedAnalysis []
                      (or_introl eq_refl)) as C.
        cbn [app] in C. rewrite app_nil_r in C. exact C.
      * cbn [lastUIUpdateTsRef]. destruct uiDue eqn:E; [|reflexivity].
        split; [|reflexivity]. unfold uiDue in E. unfold apart.
        apply Z.geb_le in E. lia.
      * rewrite app_nil_r. split; reflexivity.
  - cbn [fst snd]. exists false, false.
    destruct (pitchResult i) as [pr|]; [destruct (playbackTime i)|];
      rewrite app_nil_r; repeat split; cbn; lia.
Qed.

Lemma sorted_from_earlier gap a a' l :
  (a' <= a)%Z -> Sorted (apart gap) (a :: l) -> Sorted (apart gap) (a' :: l).
Proof.
  intros Hle Hs. inversion Hs as [|x l' Hl Hhd]; subst.
  constructor; [assumption|].
  inversion Hhd; subst; constructor. unfold apart in *. lia.
Qed.

Lemma sorted_push gap a0 a l :
  apart gap a0 a -> Sorted (apart gap) (a :: l) ->
  Sorted (apart gap) (a0 :: a :: l).
Proof. intros Ha Hs. constructor; [assumption | constructor; assumption]. Qed.

(** C9.  Across any sequence of ticks: the clock values of successive
    snapshot emissions are at least 66 ms apart (the first one counted from
    the stored time of the last emission before the sequence) and a tick
    emits at most one snapshot; the clock values of successive history
    flushes are at least 100 ms apart; a flush emits the buffered points
    followed by the point of the flushing tick, in buffering order, and
    leaves the buffer empty, while a tick that does not flush emits no
    point and appends its own to the buffer; so the points emitted over
    the sequence followed by the buffer at its end are the buffer at its
    start followed by all the points buffered, in order. *)
Theorem throttled_channels (M : MathLib) props refs inputs :
  let evss := snd (run props refs inputs) in
  let final := fst (run props refs inputs) in
  Sorted (apart 66) (lastUIUpdateTsRef refs :: timesWhere emitsSnapshot inputs evss) /\
  Sorted (apart 100)
         (lastHistoryFlushTsRef refs :: timesWhere emitsHistory inputs evss) /\
  Forall (fun evs => (List.length (filter isSnapshot evs) <= 1)%nat) evss /\
  (forall refs0 i, exists flushed : bool,
      historyOf (snd (step props refs0 i))
      = (if flushed then historyBufferRef refs0 ++ pointOf props refs0 i else []) /\
      historyBufferRef (fst (step props refs0 i))
      = (if flushed then [] else historyBufferRef refs0 ++ pointOf props refs0 i)) /\
  flat_map historyOf evss ++ historyBufferRef final
  = historyBufferRef refs ++ pointsOf props refs inputs.
Proof.
  cbv zeta.
  assert (Hstep : forall refs0 i, exists flushed : bool,
      historyOf (snd (step props refs0 i))
      = (if flushed then historyBufferRef refs0 ++ pointOf props refs0 i else []) /\
      historyBufferRef (fst (step props refs0 i))
      = (if flushed then [] else historyBufferRef refs0 ++ pointOf props refs0 i)).
  { intros refs0 i.
    destruct (step_channels props refs0 i) as (uiDue & flushDue & C & _ & F).
    exists flushDue. split; [apply C|].
    destruct flushDue; [apply F | apply F]. }
  enough (H : Sorted (apart 66) (lastUIUpdateTsRef refs ::
                       timesWhere emitsSnapshot inputs (snd (run props refs inputs))) /\
              Sorted (apart 100) (lastHistoryFlushTsRef refs ::
                       timesWhere emitsHistory inputs (snd (run props refs inputs))) /\
              Forall (fun evs => (List.length (filter isSnapshot evs) <= 1)%nat)
                     (snd (run props refs inputs)) /\
              flat_map historyOf (snd (run props refs inputs))
                ++ historyBufferRef (fst (run props refs inputs))
              = historyBufferRef refs ++ pointsOf props refs inputs).
  { destruct H as (H1 & H2 & H3 & H4). repeat split; assumption. }
  clear Hstep. revert refs.
  induction inputs as [|i rest IH]; intros refs.
  - cbn [run fst snd timesWhere flat_map pointsOf app]. rewrite app_nil_r.
    repeat split; repeat constructor.
  - rewrite GuardFacts.run_cons_fst, GuardFacts.run_cons_snd.
    destruct (IH (fst (step props refs i))) as (I1 & I2 & I3 & I4).
    destruct (step_channels props refs i) as (uiDue & flushDue & C & U & F).
    destruct C as [C1 C2 C3].
    cbn [timesWhere flat_map pointsOf]. rewrite C1.
    split; [|split; [|split]].
    + destruct uiDue; cbn [app].
      * destruct U as [U1 U2]. rewrite U2 in I1.
        apply sorted_push; assumption.
      * rewrite U in I1. assumption.
    + unfold emitsHistory at 1. rewrite C3.
      destruct flushDue.
      * destruct F as (F1 & F2 & F3). rewrite F2 in I2.
        destruct (historyBufferRef refs ++ pointOf props refs i); cbn [app].
        -- apply (sorted_from_earlier _ (now i)); [|assumption].
           unfold apart, HISTORY_FLUSH_MS in F1. lia.
        -- apply sorted_push; assumption.
      * destruct F as [F1 F2]. rewrite F1 in I2. assumption.
    + constructor; assumption.
    + rewrite <- app_assoc, I4, C3.
      destruct flushDue.
      * destruct F as (F1 & F2 & F3). rewrite F3. cbn [app].
        rewrite app_assoc. reflexivity.
      * destruct F as [F1 F2]. rewrite F2. cbn [app].
        rewrite app_assoc. reflexivity.
Qed.

End ThrottleFacts.

(** ** Deviation, on-pitch decision and accuracy *)

Module DeviationFacts.
Import JS Analyzer Examples.

Lemma inject_nat_succ (n : nat) :
  inject_Z (Z.of_nat (S n)) == inject_Z (Z.of_nat n) + 1.
Proof. rewrite Nat2Z.inj_succ, <- Z.add_1_r, inject_Z_plus. reflexivity. Qed.

(** The first loop, given enough iterations: it stops with its guard false,
    after subtracting a whole number of octaves, and a value it had to move
    ends above -600. *)
Lemma wrapDown_spec fuel :
  forall c,
    c <= 600 + 1200 * inject_Z (Z.of_nat fuel) ->
    wrapDown fuel c <= 600 /\
    (exists k : Z, wrapDown fuel c == c - 1200 * inject_Z k) /\
    (c <= 600 -> wrapDown fuel c = c) /\
    (600 < c -> -600 < wrapDown fuel c).
Proof.
  induction fuel as [|fuel IH]; intros c Hc.
  - cbn [wrapDown]. change (inject_Z (Z.of_nat 0)) with 0 in Hc.
    repeat split; try lra. exists 0%Z. change (inject_Z 0) with 0. lra.
  - cbn [wrapDown]. rewrite inject_nat_succ in Hc.
    destruct (Qlt_bool 600 c) eqn:E; qbool.
    + destruct (IH (c - 1200)) as (I1 & [k I2] & I3 & I4); [lra|].
      repeat split; try lra.
      * exists (k + 1)%Z. rewrite inject_Z_plus. change (inject_Z 1) with 1. lra.
      * intros _. destruct (Qlt_le_dec 600 (c - 1200)) as [H|H].
        -- apply I4 in H. lra.
        -- rewrite (I3 H). lra.
    + repeat split; try lra. exists 0%Z. change (inject_Z 0) with 0. lra.
Qed.

Lemma wrapUp_spec fuel :
  forall c,
    - 600 - 1200 * inject_Z (Z.of_nat fuel) <= c ->
    - 600 <= wrapUp fuel c /\
    (exists k : Z, wrapUp fuel c == c + 1200 * inject_Z k) /\
    (- 600 <= c -> wrapUp fuel c = c) /\
    (c < - 600 -> wrapUp fuel c < 600).
Proof.
  induction fuel as [|fuel IH]; intros c Hc.
  - cbn [wrapUp]. change (inject_Z (Z.of_nat 0)) with 0 in Hc.
    repeat split; try lra. exists 0%Z. change (inject_Z 0) with 0. lra.
  - cbn [wrapUp]. rewrite inject_nat_succ in Hc.
    destruct (Qlt_bool c (-600)) eqn:E; qbool.
    + destruct (IH (c + 1200)) as (I1 & [k I2] & I3 & I4); [lra|].
      repeat split; try lra.
      * exists (k + 1)%Z. rewrite inject_Z_plus. change (inject_Z 1) with 1. lra.
      * intros _. destruct (Qlt_le_dec (c + 1200) (- 600)) as [H|H].
        -- apply I4 in H. lra.
        -- rewrite (I3 H). lra.
    + repeat split; try lra. exists 0%Z. change (inject_Z 0) with 0. lra.
Qed.

(** [wrapFuel] is enough for either loop. *)
Lemma wrapFuel_enough c :
  Qabs c <= 1200 * inject_Z (Z.of_nat (wrapFuel c)).
Proof.
  unfold wrapFuel.
  pose proof (Qle_ceiling (Qabs c / 1200)) as H1.
  assert (H2 : inject_Z (Qceiling (Qabs c / 1200))
               <= inject_Z (Z.of_nat (Z.to_nat (Qceiling (Qabs c / 1200))))).
  { rewrite <- Zle_Qle. lia. }
  assert (H3 : Qabs c == 1200 * (Qabs c / 1200)) by (field).
  lra.
Qed.

(** Where [wrap] lands, by the position of its argument. *)
Lemma wrap_spec c :
  (- 600 <= wrap c <= 600) /\
  (exists k : Z, wrap c == c + 1200 * inject_Z k) /\
  (600 < c -> - 600 < wrap c) /\
  (c < - 600 -> wrap c < 600) /\
  (- 600 <= c <= 600 -> wrap c = c).
Proof.
  unfold wrap.
  pose proof (wrapFuel_enough c) as F1.
  pose proof (Qle_Qabs c) as A1.
  destruct (wrapDown_spec (wrapFuel c) c) as (D1 & [k1 D2] & D3 & D4); [lra|].
  set (c1 := wrapDown (wrapFuel c) c) in *.
  pose proof (wrapFuel_enough c1) as F2.
  assert (A2 : - c1 <= Qabs c1).
  { rewrite <- Qabs_opp. apply Qle_Qabs. }
  destruct (wrapUp_spec (wrapFuel c1) c1) as (U1 & [k2 U2] & U3 & U4); [lra|].
  set (r := wrapUp (wrapFuel c1) c1) in *.
  split; [|split; [|split; [|split]]].
  - destruct (Qlt_le_dec c1 (- 600)) as [H|H].
    + apply U4 in H. lra.
    + pose proof (U3 H) as E. rewrite E. lra.
  - exists (k2 - k1)%Z. unfold Zminus. rewrite inject_Z_plus, inject_Z_opp. lra.
  - intros H. apply D4 in H. assert (E : r = c1) by (apply U3; lra).
    rewrite E. assumption.
  - intros H. assert (E : c1 = c) by (apply D3; lra).
    apply U4. rewrite E. assumption.
  - intros [H1 H2]. assert (E : c1 = c) by (apply D3; lra).
    assert (E' : r = c1) by (apply U3; rewrite E; lra). congruence.
Qed.



Lemma centsToNearestOctave_range {M : MathLib} targetHz detectedHz :
  - 600 <= centsToNearestOctave targetHz detectedHz <= 600.
Proof.
  unfold centsToNearestOctave.
  destruct targetHz as [target| | |]; try lra.
  destruct detectedHz as [detected| | |]; try lra.
  destruct (Qle_bool target 0 || Qle_bool detected 0); [lra|].
  apply wrap_spec.
Qed.















Lemma isOctaveEquivalent_rem {M : MathLib} p1 p2 :
  Music.isOctaveEquivalent p1 p2 = true <-> Z.rem p1 12 = Z.rem p2 12.
Proof. unfold Music.isOctaveEquivalent, rem. apply Z.eqb_eq. Qed.

(** C7.  With a detected pitch and an active target, the tick's on-pitch
    decision is true exactly when the deviation it reports is at most 50
    cents in absolute value or the two MIDI pitches are octave-equivalent;
    octave-equivalence compares the remainders of the pitches modulo 12
    (the [%] operator), which for MIDI pitches, being non-negative, is
    equality modulo 12. *)
Theorem on_pitch_decision (M : MathLib) tn pr now p1 p2 :
  (0 <= p1)%Z -> (0 <= p2)%Z ->
  let a := analyse (Some tn) pr now in
  VoiceAnalysis.deviation a
    = centsToNearestOctave (Fin (Note.frequency tn))
                           (Fin (PitchDetectionResult.frequency pr)) /\
  VoiceAnalysis.octaveAdjusted a
    = Music.isOctaveEquivalent (Note.pitch tn) (PitchDetectionResult.pitch pr) /\
  (VoiceAnalysis.isOnPitch a = true <->
   Qabs (VoiceAnalysis.deviation a) <= 50 \/
   Music.isOctaveEquivalent (Note.pitch tn) (PitchDetectionResult.pitch pr) = true) /\
  (Music.isOctaveEquivalent (Note.pitch tn) (PitchDetectionResult.pitch pr) = true
   <-> Z.rem (Note.pitch tn) 12 = Z.rem (PitchDetectionResult.pitch pr) 12) /\
  (Music.isOctaveEquivalent p1 p2 = true <-> (p1 mod 12 = p2 mod 12)%Z).
Proof.
  intros H1 H2. cbv zeta. cbn [analyse VoiceAnalysis.deviation
                                VoiceAnalysis.octaveAdjusted
                                VoiceAnalysis.isOnPitch].
  split; [reflexivity|]. split; [reflexivity|]. split; [|split].
  - unfold onPitch. rewrite orb_true_iff, Qle_bool_iff. reflexivity.
  - apply isOctaveEquivalent_rem.
  - rewrite isOctaveEquivalent_rem, !Z.rem_mod_nonneg by lia. reflexivity.
Qed.

Lemma on_pitch_decision_witness :
  let a := analyse (Some noteB) sungA4 1000 in
  VoiceAnalysis.deviation a = centsToNearestOctave (Fin (49388 # 100)) (Fin 440) /\
  VoiceAnalysis.octaveAdjusted a = Music.isOctaveEquivalent 71 69 /\
  (VoiceAnalysis.isOnPitch a = true <->
   Qabs (VoiceAnalysis.deviation a) <= 50 \/
   Music.isOctaveEquivalent 71 69 = true) /\
  (Music.isOctaveEquivalent 71 69 = true <-> Z.rem 71 12 = Z.rem 69 12) /\
  (Music.isOctaveEquivalent 57 69 = true <-> (57 mod 12 = 69 mod 12)%Z).
Proof.
  apply (on_pitch_decision ref_math noteB sungA4 1000 57 69); lia.
Defined.

(** A semitone pair is off pitch, an octave pair is on pitch whatever the
    deviation, and [%] separates -1 from 11 although they agree modulo 12. *)
Example on_pitch_examples :
  VoiceAnalysis.isOnPitch (analyse (Some noteB) sungA4 1000) = false /\
  VoiceAnalysis.isOnPitch (analyse (Some noteA) sungA4 1000) = true /\
  Music.isOctaveEquivalent 57 69 = true /\
  Music.isOctaveEquivalent (-1) 11 = false.
Proof. vm_compute. repeat split. Qed.

(** C8.  The accuracy a tick reports is [max(0, 1 - |deviation| / 1200)] of
    the deviation it reports; for every deviation this score lies in
    [0, 1], is 1 exactly at deviation 0 and is 0 exactly from a full
    octave on. *)
Theorem accuracy_score_bounds (M : MathLib) tn pr now (deviation : Q) :
  let a := analyse (Some tn) pr now in
  VoiceAnalysis.accuracy a = accuracyScore (VoiceAnalysis.deviation a) /\
  accuracyScore deviation == Qmax 0 (1 - Qabs deviation / 1200) /\
  0 <= accuracyScore deviation <= 1 /\
  (accuracyScore deviation == 1 <-> deviation == 0) /\
  (accuracyScore deviation == 0 <-> 1200 <= Qabs deviation).
Proof.
  cbv zeta. split; [reflexivity|]. split; [reflexivity|].
  unfold accuracyScore, Qdiv. change (/ 1200) with (1 # 1200).
  pose proof (Qabs_nonneg deviation) as A.
  assert (Z0 : Qabs deviation == 0 <-> deviation == 0).
  { split; intros E.
    - revert E. apply Qabs_case; intros; lra.
    - rewrite E. reflexivity. }
  destruct (Q.max_spec 0 (1 - Qabs deviation * (1 # 1200))) as [[L E]|[L E]];
    rewrite E.
  - split; [split; lra|]. split.
    + rewrite <- Z0. split; intros; lra.
    + split; intros; lra.
  - split; [split; lra|]. split.
    + rewrite <- Z0. split; intros; lra.
    + split; intros; lra.
Qed.

End DeviationFacts.

(** ** The YIN threshold search *)

Module YinFacts.
Import JS PitchDetector YinSpec Examples.

Lemma lags_nil lo hi : (hi < lo)%Z -> lags lo hi = [].
Proof.
  intros H. unfold lags. replace (Z.to_nat (hi - lo + 1)) with 0%nat by lia.
  reflexivity.
Qed.

Lemma lags_cons lo hi : (lo <= hi)%Z -> lags lo hi = lo :: lags (lo + 1) hi.
Proof.
  intros H. unfold lags.
  replace (Z.to_nat (hi - lo + 1)) with (S (Z.to_nat (hi - (lo + 1) + 1))) by lia.
  cbn [seq List.map]. f_equal; [cbn; lia|].
  rewrite <- seq_shift, map_map. apply map_ext. intros k. lia.
Qed.

Lemma readAt_valOf yin tau :
  (0 <= tau < Z.of_nat (List.length yin))%Z ->
  readAt yin tau = Some (valOf yin tau).
Proof.
  intros [H1 H2]. unfold readAt, valOf.
  assert (E : (tau <? 0)%Z = false) by (apply Z.ltb_ge; assumption).
  rewrite E. apply nth_error_nth'. lia.
Qed.

(** What a crossing says about the values. *)
Lemma crosses_true yin tau :
  (0 <= tau < Z.of_nat (List.length yin))%Z ->
  crosses yin tau = true ->
  valOf yin tau < yinThreshold /\
  leb (Fin (valOf yin tau)) (numOf (readAt yin (tau + 1))) = true.
Proof.
  intros Hb. unfold crosses. rewrite (readAt_valOf yin tau Hb). cbn [numOf ltb].
  rewrite andb_true_iff. intros [H1 H2]. qbool. split; assumption.
Qed.

(** The loop passes over lags that do not cross or whose successor is
    outside the range. *)
Lemma thresholdSearch_passes yin hi taus :
  forall yinMin,
    (forall tau, In tau taus -> crosses yin tau = false \/ (hi < tau + 1)%Z) ->
    fst (thresholdSearch yin hi taus yinMin) = (-1)%Z.
Proof.
  induction taus as [|tau rest IH]; intros yinMin H; [reflexivity|].
  cbn [thresholdSearch].
  assert (E : ltb (numOf (readAt yin tau)) (Fin yinThreshold)
              && leb (numOf (readAt yin tau)) (Fin yinMin)
              && ((tau + 1 <=? hi)%Z
                  && leb (numOf (readAt yin tau)) (numOf (readAt yin (tau + 1))))
              = false).
  { destruct (H tau (or_introl eq_refl)) as [Hc|Hc].
    - unfold crosses in Hc.
      destruct (ltb (numOf (readAt yin tau)) (Fin yinThreshold));
        destruct (leb (numOf (readAt yin tau)) (numOf (readAt yin (tau + 1))));
        try discriminate; rewrite ?andb_false_r; reflexivity.
    - assert (E : (tau + 1 <=? hi)%Z = false) by (apply Z.leb_gt; assumption).
      rewrite E, andb_false_r. reflexivity. }
  rewrite E. apply IH. intros tau' Hin. apply H. right. assumption.
Qed.

(** The loop breaks at the first crossing whose successor is in range,
    provided its value is no larger than the running minimum, which holds
    when it is no larger than any earlier value. *)
Lemma thresholdSearch_breaks yin hi tau v (n : nat) :
  forall lo yinMin,
    Z.to_nat (tau - lo) = n ->
    (0 <= lo <= tau)%Z -> (tau + 1 <= hi)%Z ->
    (hi < Z.of_nat (List.length yin))%Z ->
    valOf yin tau = v ->
    crosses yin tau = true ->
    (forall tau', (lo <= tau' < tau)%Z ->
                  crosses yin tau' = false /\ v <= valOf yin tau') ->
    v <= yinMin ->
    thresholdSearch yin hi (lags lo hi) yinMin = (tau, v).
Proof.
  induction n as [|n IH]; intros lo yinMin Hn Hlo Hhi Hlen Hv Hc Hbefore Hmin.
  - assert (lo = tau) by lia. subst lo.
    rewrite lags_cons by lia. cbn [thresholdSearch].
    assert (Hb : (0 <= tau < Z.of_nat (List.length yin))%Z) by lia.
    destruct (crosses_true yin tau Hb Hc) as [C1 C2].
    rewrite (readAt_valOf yin tau Hb). cbn [numOf].
    rewrite Hv in *.
    assert (E1 : ltb (Fin v) (Fin yinThreshold) = true)
      by (cbn [ltb]; qbool; assumption).
    assert (E2 : leb (Fin v) (Fin yinMin) = true)
      by (cbn [leb]; qbool; assumption).
    assert (E3 : (tau + 1 <=? hi)%Z = true) by (apply Z.leb_le; assumption).
    rewrite E1, E2, E3, C2. reflexivity.
  - rewrite lags_cons by lia. cbn [thresholdSearch].
    assert (Hb : (0 <= lo < Z.of_nat (List.length yin))%Z) by lia.
    destruct (Hbefore lo) as [B1 B2]; [lia|].
    rewrite (readAt_valOf yin lo Hb). cbn [numOf].
    assert (E : ltb (Fin (valOf yin lo)) (Fin yinThreshold)
                && leb (Fin (valOf yin lo)) (Fin yinMin)
                && ((lo + 1 <=? hi)%Z
                    && leb (Fin (valOf yin lo)) (numOf (readAt yin (lo + 1))))
                = false).
    { unfold crosses in B1. rewrite (readAt_valOf yin lo Hb) in B1.
      cbn [numOf] in B1.
      destruct (ltb (Fin (valOf yin lo)) (Fin yinThreshold));
        destruct (leb (Fin (valOf yin lo)) (numOf (readAt yin (lo + 1))));
        try discriminate; rewrite ?andb_false_r; reflexivity. }
    rewrite E.
    apply IH; try assumption; try lia.
    + intros tau' Ht. apply Hbefore. lia.
    + cbn [ltb]. destruct (Qlt_bool (valOf yin lo) yinMin); assumption.
Qed.

(** Before the first crossing every value is strictly larger than the
    value at the crossing. *)
Lemma values_before_first_crossing yin lo tau :
  (0 <= lo <= tau)%Z -> (tau < Z.of_nat (List.length yin))%Z ->
  crosses yin tau = true ->
  (forall tau', (lo <= tau' < tau)%Z -> crosses yin tau' = false) ->
  forall k : nat, (lo <= tau - Z.of_nat k - 1)%Z ->
                  valOf yin tau < valOf yin (tau - Z.of_nat k - 1).
Proof.
  intros Hlo Hlen Hc Hnone.
  destruct (crosses_true yin tau ltac:(lia) Hc) as [C1 _].
  assert (Step : forall t, (lo <= t < tau)%Z ->
                           valOf yin tau <= valOf yin (t + 1) ->
                           valOf yin tau < valOf yin t).
  { intros t Ht Hnext.
    destruct (Qlt_le_dec (valOf yin tau) (valOf yin t)) as [|Hle]; [assumption|].
    exfalso. pose proof (Hnone t Ht) as Hn. unfold crosses in Hn.
    rewrite (readAt_valOf yin t ltac:(lia)),
            (readAt_valOf yin (t + 1) ltac:(lia)) in Hn.
    cbn [numOf ltb leb] in Hn. apply andb_false_iff in Hn.
    destruct Hn as [Hn|Hn]; qbool; lra. }
  induction k as [|k IH]; intros Hk.
  - apply Step; [lia|]. replace (tau - Z.of_nat 0 - 1 + 1)%Z with tau by lia. lra.
  - apply Step; [lia|].
    replace (tau - Z.of_nat (S k) - 1 + 1)%Z with (tau - Z.of_nat k - 1)%Z by lia.
    apply Qlt_le_weak. apply IH. lia.
Qed.

(** The fallback loop started from a finite running minimum. *)
Lemma globalMin_from yin hi (n : nat) :
  forall lo m j,
    Z.to_nat (hi - lo + 1) = n ->
    (0 <= lo)%Z -> (hi < Z.of_nat (List.length yin))%Z ->
    (globalMin yin (lags lo hi) (Fin m) j = (Fin m, j) /\
     forall tau, (lo <= tau <= hi)%Z -> m <= valOf yin tau) \/
    (exists r, globalMin yin (lags lo hi) (Fin m) j = (Fin (valOf yin r), r) /\
               (lo <= r <= hi)%Z /\ valOf yin r < m /\
               (forall tau, (lo <= tau <= hi)%Z -> valOf yin r <= valOf yin tau) /\
               (forall tau, (lo <= tau < r)%Z -> valOf yin r < valOf yin tau)).
Proof.
  induction n as [|n IH]; intros lo m j Hn Hlo Hlen.
  - left. rewrite lags_nil by lia. split; [reflexivity|]. intros tau Ht. lia.
  - rewrite lags_cons by lia. cbn [globalMin].
    rewrite (readAt_valOf yin lo ltac:(lia)). cbn [numOf ltb].
    destruct (Qlt_bool (valOf yin lo) m) eqn:E; qbool.
    + right.
      destruct (IH (lo + 1)%Z (valOf yin lo) lo ltac:(lia) ltac:(lia) Hlen)
        as [[G1 G2]|(r & G1 & G2 & G3 & G4 & G5)].
      * exists lo. rewrite G1. repeat split; try lia; try assumption.
        intros tau Ht. destruct (Z.eq_dec tau lo) as [->|]; [lra|].
        apply G2. lia.
      * exists r. rewrite G1. repeat split; try lia; try lra.
        -- intros tau Ht. destruct (Z.eq_dec tau lo) as [->|]; [lra|].
           apply G4. lia.
        -- intros tau Ht. destruct (Z.eq_dec tau lo) as [->|]; [lra|].
           apply G5. lia.
    + destruct (IH (lo + 1)%Z m j ltac:(lia) ltac:(lia) Hlen)
        as [[G1 G2]|(r & G1 & G2 & G3 & G4 & G5)].
      * left. rewrite G1. split; [reflexivity|].
        intros tau Ht. destruct (Z.eq_dec tau lo) as [->|]; [lra|].
        apply G2. lia.
      * right. exists r. rewrite G1. repeat split; try lia; try lra.
        -- intros tau Ht. destruct (Z.eq_dec tau lo) as [->|]; [lra|].
           apply G4. lia.
        -- intros tau Ht. destruct (Z.eq_dec tau lo) as [->|]; [lra|].
           apply G5. lia.
Qed.

(** The fallback loop as the code starts it: it returns the first lag of
    the smallest value of a non-empty range. *)
Lemma globalMin_first_argmin yin lo hi :
  (0 <= lo <= hi)%Z -> (hi < Z.of_nat (List.length yin))%Z ->
  exists r, globalMin yin (lags lo hi) PInf (-1)%Z = (Fin (valOf yin r), r) /\
            (lo <= r <= hi)%Z /\
            (forall tau, (lo <= tau <= hi)%Z -> valOf yin r <= valOf yin tau) /\
            (forall tau, (lo <= tau < r)%Z -> valOf yin r < valOf yin tau).
Proof.
  intros Hlo Hlen. rewrite lags_cons by lia. cbn [globalMin].
  rewrite (readAt_valOf yin lo ltac:(lia)). cbn [numOf ltb].
  destruct (globalMin_from yin hi (Z.to_nat (hi - (lo + 1) + 1)) (lo + 1)%Z
              (valOf yin lo) lo eq_refl ltac:(lia) Hlen)
    as [[G1 G2]|(r & G1 & G2 & G3 & G4 & G5)].
  - exists lo. rewrite G1. repeat split; try lia.
    intros tau Ht. destruct (Z.eq_dec tau lo) as [->|]; [lra|]. apply G2. lia.
  - exists r. rewrite G1. repeat split; try lia.
    + intros tau Ht. destruct (Z.eq_dec tau lo) as [->|]; [lra|]. apply G4. lia.
    + intros tau Ht. destruct (Z.eq_dec tau lo) as [->|]; [lra|]. apply G5. lia.
Qed.

Lemma in_lags lo hi tau : In tau (lags lo hi) -> (lo <= tau <= hi)%Z.
Proof.
  unfold lags. rewrite in_map_iff. intros (k & <- & Hk).
  apply in_seq in Hk. lia.
Qed.

(** The fallback branch of [searchTau]. *)
Lemma searchTau_fallback yin minTau hi :
  (Z.max 2 minTau <= hi)%Z -> (hi < Z.of_nat (List.length yin))%Z ->
  fst (thresholdSearch yin hi (lags (Z.max 2 minTau) hi) 1) = (-1)%Z ->
  exists r,
    searchTau yin minTau hi = Some (r, valOf yin r) /\
    (Z.max 2 minTau <= r <= hi)%Z /\
    (forall tau, (Z.max 2 minTau <= tau <= hi)%Z -> valOf yin r <= valOf yin tau) /\
    (forall tau, (Z.max 2 minTau <= tau < r)%Z -> valOf yin r < valOf yin tau).
Proof.
  intros Hlo Hlen Hts. unfold searchTau.
  destruct (thresholdSearch yin hi (lags (Z.max 2 minTau) hi) 1) as [te ym].
  cbn [fst] in Hts. subst te. cbn [Z.eqb].
  destruct (globalMin_first_argmin yin (Z.max 2 minTau) hi ltac:(lia) Hlen)
    as (r & G1 & G2 & G3 & G4).
  exists r. rewrite G1.
  assert (E : (r <=? 0)%Z = false) by (apply Z.leb_gt; lia).
  rewrite E. repeat split; try lia; assumption.
Qed.

(** C5.  For every CMNDF array that covers the search range
    [max(2, minTau) .. maxTauClamped]: the search selects the first lag of
    the range at which CMNDF[tau] < 0.15 and CMNDF[tau] <= CMNDF[tau + 1];
    and if no lag of the range is such a crossing, it selects the lag of
    the global minimum of CMNDF over the range (the first one, if the
    minimum is reached more than once). *)
Theorem yin_threshold_search_selects yin minTau maxTauClamped tau :
  let lo := Z.max 2 minTau in
  (maxTauClamped < Z.of_nat (List.length yin))%Z ->
  (lo <= tau <= maxTauClamped)%Z ->
  (crosses yin tau = true ->
   (forall tau', (lo <= tau' < tau)%Z -> crosses yin tau' = false) ->
   option_map fst (searchTau yin minTau maxTauClamped) = Some tau) /\
  ((forall tau', (lo <= tau' <= maxTauClamped)%Z -> crosses yin tau' = false) ->
   exists r,
     option_map fst (searchTau yin minTau maxTauClamped) = Some r /\
     (lo <= r <= maxTauClamped)%Z /\
     valOf yin r <= valOf yin tau /\
     ((tau < r)%Z -> valOf yin r < valOf yin tau)).
Proof.
  cbv zeta. intros Hlen Hrange. split.
  - intros Hc Hnone.
    pose proof (values_before_first_crossing yin (Z.max 2 minTau) tau
                  ltac:(lia) ltac:(lia) Hc Hnone) as Hbefore.
    assert (Hlt : forall tau', (Z.max 2 minTau <= tau' < tau)%Z ->
                               valOf yin tau < valOf yin tau').
    { intros tau' Ht.
      replace tau' with (tau - Z.of_nat (Z.to_nat (tau - tau' - 1)) - 1)%Z by lia.
      apply Hbefore. lia. }
    destruct (crosses_true yin tau ltac:(lia) Hc) as [C1 _].
    destruct (Z_le_gt_dec (tau + 1) maxTauClamped) as [Hin|Hout].
    + (* the loop breaks at [tau] *)
      unfold searchTau.
      rewrite (thresholdSearch_breaks yin maxTauClamped tau (valOf yin tau)
                 (Z.to_nat (tau - Z.max 2 minTau)) (Z.max 2 minTau) 1
                 eq_refl ltac:(lia) Hin Hlen eq_refl Hc).
      * assert (E : (tau =? -1)%Z = false) by (apply Z.eqb_neq; lia).
        rewrite E. reflexivity.
      * intros tau' Ht. split; [apply Hnone; assumption|].
        apply Qlt_le_weak. apply Hlt. assumption.
      * unfold yinThreshold in C1. lra.
    + (* [tau] is the last lag of the range: the fallback finds it *)
      destruct (searchTau_fallback yin minTau maxTauClamped ltac:(lia) Hlen)
        as (r & S1 & S2 & S3 & S4).
      * apply thresholdSearch_passes. intros t Hin. apply in_lags in Hin.
        destruct (Z.eq_dec t tau) as [->|]; [right; lia|].
        left. apply Hnone. lia.
      * rewrite S1. cbn [option_map fst]. f_equal.
        destruct (Z.eq_dec r tau) as [|Hne]; [assumption|].
        exfalso. pose proof (Hlt r ltac:(lia)) as H1.
        pose proof (S3 tau ltac:(lia)) as H2. lra.
  - intros Hnone.
    destruct (searchTau_fallback yin minTau maxTauClamped ltac:(lia) Hlen)
      as (r & S1 & S2 & S3 & S4).
    + apply thresholdSearch_passes. intros t Hin. apply in_lags in Hin.
      left. apply Hnone. assumption.
    + exists r. rewrite S1. cbn [option_map fst].
      split; [reflexivity|]. split; [assumption|]. split.
      * apply S3. assumption.
      * intros Ht. apply S4. lia.
Qed.

Lemma yin_threshold_search_selects_witness :
  option_map fst (searchTau curveWithDip 2 8) = Some 5%Z /\
  exists r, option_map fst (searchTau curveWithoutDip 2 8) = Some r /\
            (2 <= r <= 8)%Z /\
            valOf curveWithoutDip r <= valOf curveWithoutDip 6 /\
            ((6 < r)%Z -> valOf curveWithoutDip r < valOf curveWithoutDip 6).
Proof.
  split.
  - apply (yin_threshold_search_selects curveWithDip 2 8 5).
    + simpl. lia.
    + simpl. lia.
    + reflexivity.
    + simpl. intros tau' Ht.
      assert (C : tau' = 2%Z \/ tau' = 3%Z \/ tau' = 4%Z) by lia.
      destruct C as [->|[->| ->]]; reflexivity.
  - apply (yin_threshold_search_selects curveWithoutDip 2 8 6).
    + simpl. lia.
    + simpl. lia.
    + simpl. intros tau' Ht.
      assert (C : tau' = 2%Z \/ tau' = 3%Z \/ tau' = 4%Z \/ tau' = 5%Z \/
                  tau' = 6%Z \/ tau' = 7%Z \/ tau' = 8%Z) by lia.
      destruct C as [->|[->|[->|[->|[->|[->| ->]]]]]]; reflexivity.
Defined.

(** The two example curves, run: the first crossing is at lag 5 although
    lag 4 is below the threshold too (it is not a local minimum); without
    a crossing the first of the two smallest values, at lag 4, wins. *)
Example searchTau_examples :
  option_map fst (searchTau curveWithDip 2 8) = Some 5%Z /\
  option_map fst (searchTau curveWithoutDip 2 8) = Some 4%Z.
Proof. vm_compute. split; reflexivity. Qed.

End YinFacts.

(** ** What [detectPitch] rejects and what it returns *)

Module DetectorFacts.
Import JS PitchDetector Examples.

Lemma sum_of_squares_of_zeros (buf : list Q) :
  Forall (fun v => v == 0) buf ->
  forall sum, fold_left (fun sum v => sum + v * v) buf sum == sum.
Proof.
  induction 1 as [|v buf Hv _ IH]; intros sum; cbn [fold_left]; [reflexivity|].
  rewrite IH, Hv. ring.
Qed.

(** An all-zero window has RMS 0, or [NaN] if it is empty. *)
Lemma vad_rejects_zeros {M : MathLib} (buf : list Q) :
  sqrt_exact_at_zero M ->
  Forall (fun v => v == 0) buf ->
  vadRejects (computeRMS buf) = true.
Proof.
  intros Hsqrt Hz. unfold computeRMS.
  pose proof (sum_of_squares_of_zeros buf Hz 0) as Hs.
  set (sum := fold_left (fun sum v => sum + v * v) buf 0) in *.
  set (len := inject_Z (Z.of_nat (List.length buf))).
  unfold div.
  destruct (Qeq_bool len 0) eqn:El.
  - assert (E : Qeq_bool sum 0 = true) by (apply Qeq_bool_iff; assumption).
    rewrite E. reflexivity.
  - assert (Hq : sum / len == 0) by (rewrite Hs; unfold Qdiv; ring).
    unfold sqrt.
    assert (E : Qlt_bool (sum / len) 0 = false) by (qbool; lra).
    rewrite E. unfold vadRejects. cbn [isFinite negb orb ltb].
    pose proof (Hsqrt _ Hq) as H0. qbool. unfold vadRmsThreshold. lra.
Qed.

Lemma clamp01_range v : 0 <= clamp01 v <= 1.
Proof.
  unfold clamp01.
  destruct (Q.max_spec 0 (Qmin 1 v)) as [[L E]|[L E]]; rewrite E;
    pose proof (Q.le_min_l 1 v); lra.
Qed.

(** C4.  For an initialized detector: [detectPitch] returns [null] when
    the RMS of the window is not finite or is below 0.01, hence on every
    all-zero window; it returns [null] when the frequency estimate is not
    finite, below 80 or above 2000; in every other case it returns a
    result, whose frequency is the estimate, whose pitch and names derive
    from it, whose clarity and confidence lie in [0, 1] and whose
    timestamp is the current time. *)
Theorem detectPitch_rejects_or_returns (M : MathLib) d timeData dateNow :
  isInitialized d = true ->
  let rms := computeRMS timeData in
  let freq :=
    fst (fst (yinDetectFrequency timeData (yinBuffer d) (minTauOf d)
                                 (maxTauOf d) (effectiveRate d))) in
  let result := fst (detectPitch d timeData dateNow) in
  (isFinite rms = false \/ ltb rms (Fin (1 # 100)) = true -> result = None) /\
  (sqrt_exact_at_zero M -> Forall (fun v => v == 0) timeData -> result = None) /\
  (isFinite freq = false \/ ltb freq (Fin 80) = true \/ gtb freq (Fin 2000) = true ->
   result = None) /\
  (isFinite rms = true -> ltb rms (Fin (1 # 100)) = false ->
   isFinite freq = true -> ltb freq (Fin 80) = false ->
   gtb freq (Fin 2000) = false ->
   exists r,
     result = Some r /\
     Fin (PitchDetectionResult.frequency r) = freq /\
     80 <= PitchDetectionResult.frequency r <= 2000 /\
     PitchDetectionResult.pitch r
       = Music.frequencyToMidi (PitchDetectionResult.frequency r) /\
     PitchDetectionResult.noteName r
       = Music.getMidiNoteName (PitchDetectionResult.pitch r) /\
     PitchDetectionResult.noteNameOnly r
       = Music.getMidiNoteNameOnly (PitchDetectionResult.pitch r) /\
     0 <= PitchDetectionResult.clarity r <= 1 /\
     0 <= PitchDetectionResult.confidence r <= 1 /\
     PitchDetectionResult.timestamp r = dateNow).
Proof.
  intros Hinit. cbv zeta.
  assert (Hvad : vadRejects (computeRMS timeData) = true ->
                 fst (detectPitch d timeData dateNow) = None).
  { intros Hv. unfold detectPitch. rewrite Hinit, Hv. reflexivity. }
  split; [|split; [|split]].
  - intros H. apply Hvad. unfold vadRejects, vadRmsThreshold.
    destruct H as [H|H]; rewrite H; [reflexivity | apply orb_true_r].
  - intros Hsqrt Hz. apply Hvad. apply vad_rejects_zeros; assumption.
  - intros H. unfold detectPitch. rewrite Hinit. cbn [negb].
    destruct (vadRejects (computeRMS timeData)); [reflexivity|].
    destruct (yinDetectFrequency timeData (yinBuffer d) (minTauOf d)
                                 (maxTauOf d) (effectiveRate d))
      as [[freq yin] yinMin].
    cbn [fst] in H.
    assert (E : freqRejects freq = true).
    { unfold freqRejects, minFreq, maxFreq.
      destruct H as [H|[H|H]]; rewrite H; rewrite ?orb_true_r; reflexivity. }
    rewrite E. reflexivity.
  - intros R1 R2 F1 F2 F3. unfold detectPitch. rewrite Hinit. cbn [negb].
    assert (Ev : vadRejects (computeRMS timeData) = false).
    { unfold vadRejects, vadRmsThreshold. rewrite R1, R2. reflexivity. }
    rewrite Ev.
    destruct (yinDetectFrequency timeData (yinBuffer d) (minTauOf d)
                                 (maxTauOf d) (effectiveRate d))
      as [[freq yin] yinMin].
    cbn [fst] in F1, F2, F3 |- *.
    assert (Ef : freqRejects freq = false).
    { unfold freqRejects, minFreq, maxFreq. rewrite F1, F2, F3. reflexivity. }
    rewrite Ef.
    destruct freq as [f| | |]; try discriminate F1.
    destruct (computeRMS timeData) as [r| | |]; try discriminate R1.
    cbn [fst]. eexists. split; [reflexivity|].
    cbn [PitchDetectionResult.frequency PitchDetectionResult.pitch
         PitchDetectionResult.noteName PitchDetectionResult.noteNameOnly
         PitchDetectionResult.clarity PitchDetectionResult.confidence
         PitchDetectionResult.timestamp].
    cbn [ltb gtb] in F2, F3. qbool.
    repeat split; try reflexivity; try lra; apply clamp01_range.
Qed.

(** The reference implementation of [Math.sqrt] is exact at zero. *)
Lemma ref_math_sqrt_exact_at_zero : sqrt_exact_at_zero ref_math.
Proof.
  intros q Hq. cbn [Msqrt ref_math]. unfold RefMath.sqrt.
  assert (E : Qle_bool q 0 = true) by (qbool; lra).
  rewrite E. reflexivity.
Qed.

(** On a 4096-sample window at 44.1 kHz: silence is rejected, and a
    square wave with a period of 100 samples passes both tests and yields
    a result. *)
Lemma detectPitch_rejects_or_returns_witness :
  fst (detectPitch detector (silence 4096) 5) = None /\
  exists r,
    fst (detectPitch detector (squareWave 4096) 5) = Some r /\
    Fin (PitchDetectionResult.frequency r)
      = fst (fst (yinDetectFrequency (squareWave 4096) (yinBuffer detector)
                    (minTauOf detector) (maxTauOf detector)
                    (effectiveRate detector))) /\
    80 <= PitchDetectionResult.frequency r <= 2000 /\
    PitchDetectionResult.pitch r
      = Music.frequencyToMidi (PitchDetectionResult.frequency r) /\
    PitchDetectionResult.noteName r
      = Music.getMidiNoteName (PitchDetectionResult.pitch r) /\
    PitchDetectionResult.noteNameOnly r
      = Music.getMidiNoteNameOnly (PitchDetectionResult.pitch r) /\
    0 <= PitchDetectionResult.clarity r <= 1 /\
    0 <= PitchDetectionResult.confidence r <= 1 /\
    PitchDetectionResult.timestamp r = 5%Z.
Proof.
  split.
  - destruct (detectPitch_rejects_or_returns ref_math detector (silence 4096) 5 eq_refl)
      as (_ & H & _).
    apply H; [exact ref_math_sqrt_exact_at_zero|].
    apply Forall_forall. intros v Hin. apply repeat_spec in Hin.
    subst v. reflexivity.
  - destruct (detectPitch_rejects_or_returns ref_math detector (squareWave 4096) 5 eq_refl)
      as (_ & _ & _ & H).
    pose (passes := fun rms freq =>
                      isFinite rms && negb (ltb rms (Fin (1 # 100)))
                      && isFinite freq && negb (ltb freq (Fin 80))
                      && negb (gtb freq (Fin 2000))).
    assert (E : passes
                  (computeRMS (squareWave 4096))
                  (fst (fst (yinDetectFrequency (squareWave 4096)
                               (yinBuffer detector) (minTauOf detector)
                               (maxTauOf detector) (effectiveRate detector))))
                = true) by (vm_compute; reflexivity).
    unfold passes in E. clear passes.
    apply andb_true_iff in E. destruct E as [E E5].
    apply andb_true_iff in E. destruct E as [E E4].
    apply andb_true_iff in E. destruct E as [E E3].
    apply andb_true_iff in E. destruct E as [E1 E2].
    apply negb_true_iff in E2, E4, E5.
    apply H; assumption.
Defined.

(** The square wave is heard as A4 (441 Hz at 44.1 kHz). *)
Example square_wave_is_A4 :
  option_map (fun r => (PitchDetectionResult.pitch r,
                        PitchDetectionResult.noteName r))
             (fst (detectPitch detector (squareWave 4096) 5))
  = Some (69%Z, "A4"%string).
Proof. vm_compute. reflexivity. Qed.

End DetectorFacts.

(** ** The cursor of the tracker *)

Module CursorFacts.
Import JS Analyzer Session Examples Score.

(** Where the first loop stops: every note it passed has ended before
    [t], and the note it stops at, if any, has not. *)
Lemma advance_spec notes t idx0 :
  (idx0 <= List.length notes)%nat ->
  let i := advance notes t idx0 in
  (idx0 <= i <= List.length notes)%nat /\
  (forall j n, (idx0 <= j < i)%nat -> nth_error notes j = Some n ->
               gtb t (Fin (noteEnd n)) = true) /\
  (i = List.length notes \/
   exists n, nth_error notes i = Some n /\ gtb t (Fin (noteEnd n)) = false).
Proof.
  unfold advance. remember (List.length notes - idx0)%nat as fuel eqn:Ef.
  revert idx0 Ef. induction fuel as [|fuel IH]; intros idx0 Ef Hle;
    cbn [advanceLoop].
  - split; [lia|]. split; [intros j n Hj; lia | left; lia].
  - destruct (nth_error notes idx0) as [n0|] eqn:En.
    + destruct (gtb t (Fin (noteEnd n0))) eqn:Eg.
      * destruct (IH (S idx0) ltac:(lia) ltac:(lia)) as (I1 & I2 & I3).
        split; [lia|]. split; [|assumption].
        intros j n Hj Hn. destruct (Nat.eq_dec j idx0) as [->|Hne].
        -- congruence.
        -- apply (I2 j n); [lia | assumption].
      * split; [lia|]. split; [intros j n Hj; lia|].
        right. exists n0. split; assumption.
    + apply nth_error_None in En. lia.
Qed.

(** Where the second loop stops, started from an index of the array. *)
Lemma retreat_spec notes t idx :
  (idx < List.length notes)%nat ->
  exists r,
    retreat notes t idx = Ok r /\ (r <= idx)%nat /\
    (forall j n, (r < j <= idx)%nat -> nth_error notes j = Some n ->
                 ltb t (Fin (Note.time n)) = true) /\
    (r = 0%nat \/
     exists n, nth_error notes r = Some n /\ ltb t (Fin (Note.time n)) = false).
Proof.
  induction idx as [|idx IH]; intros Hlt.
  - exists 0%nat. split; [reflexivity|]. split; [lia|].
    split; [intros j n Hj; lia | left; reflexivity].
  - cbn [retreat]. destruct (nth_error notes (S idx)) as [n0|] eqn:En.
    + destruct (ltb t (Fin (Note.time n0))) eqn:El.
      * destruct (IH ltac:(lia)) as (r & R1 & R2 & R3 & R4).
        exists r. split; [assumption|]. split; [lia|]. split; [|assumption].
        intros j n Hj Hn. destruct (Nat.eq_dec j (S idx)) as [->|Hne].
        -- congruence.
        -- apply (R3 j n); [lia | assumption].
      * exists (S idx). split; [reflexivity|]. split; [lia|].
        split; [intros j n Hj; lia|]. right. exists n0. split; assumption.
    + apply nth_error_None in En. lia.
Qed.

(** The second loop does not move from a note that has started. *)
Lemma retreat_stays notes t idx n :
  nth_error notes idx = Some n -> ltb t (Fin (Note.time n)) = false ->
  retreat notes t idx = Ok idx.
Proof.
  intros Hn Hl. destruct idx as [|idx]; [reflexivity|].
  cbn [retreat]. rewrite Hn, Hl. reflexivity.
Qed.

Lemma step_cursor {M : MathLib} props refs i :
  let idx := currentNoteIndexRef refs in
  let idx' := currentNoteIndexRef (fst (step props refs i)) in
  ((idx <= List.length (notes props))%nat ->
   (idx' <= List.length (notes props))%nat) /\
  ((idx < List.length (notes props))%nat ->
   (idx' < List.length (notes props))%nat).
Proof.
  cbv zeta. unfold step, tick, locateTarget, bind.
  set (ns := notes props). set (t := playbackTime i).
  set (idx := currentNoteIndexRef refs).
  assert (Hcases : (idx <= List.length ns)%nat ->
                   retreat ns t (advance ns t idx) = Throw TypeError \/
                   exists r, retreat ns t (advance ns t idx) = Ok r /\
                             (r <= List.length ns)%nat /\
                             (ns <> [] -> (r < List.length ns)%nat)).
  { intros Hle. destruct (advance_spec ns t idx Hle) as ([_ A1] & _ & A3).
    destruct A3 as [A3|(n & Hn & _)].
    - destruct ns as [|n0 ns'] eqn:Ens.
      + right. exists 0%nat. rewrite A3. cbn. repeat split; try lia; congruence.
      + left. rewrite A3. apply TrackerFacts.retreat_at_length. discriminate.
    - assert (Hlt : (advance ns t idx < List.length ns)%nat)
        by (apply nth_error_Some; congruence).
      destruct (TrackerFacts.retreat_in_bounds ns t _ Hlt) as (r & Hr & Hle').
      right. exists r. split; [assumption|]. split; lia. }
  split; intros Hidx.
  - destruct (Hcases Hidx) as [E|(r & E & R1 & _)]; rewrite E; cbn [fst].
    + assumption.
    + destruct (pitchResult i); [|exact R1].
      destruct (arbitrate _ _ _). exact R1.
  - destruct (Hcases ltac:(lia)) as [E|(r & E & _ & R2)]; rewrite E; cbn [fst].
    + assumption.
    + assert (Hr : (r < List.length ns)%nat).
      { apply R2. intros ->. cbn in Hidx. lia. }
      destruct (pitchResult i); [|exact Hr].
      destruct (arbitrate _ _ _). exact Hr.
Qed.

(** X1.  The cursor never leaves the array: across any sequence of ticks,
    a cursor that is at most [notes.length] stays so, and a cursor that is
    an index of the array stays an index of the array -- a tick whose
    lookup runs the cursor up to [notes.length] is abandoned before it
    stores the cursor. *)
Theorem cursor_stays_in_bounds (M : MathLib) props inputs :
  forall refs,
    (currentNoteIndexRef refs <= List.length (notes props))%nat ->
    (currentNoteIndexRef (fst (run props refs inputs))
     <= List.length (notes props))%nat /\
    ((currentNoteIndexRef refs < List.length (notes props))%nat ->
     (currentNoteIndexRef (fst (run props refs inputs))
      < List.length (notes props))%nat).
Proof.
  induction inputs as [|i rest IH]; intros refs Hle.
  - cbn [run fst]. split; [assumption | intros H; exact H].
  - rewrite GuardFacts.run_cons_fst.
    destruct (step_cursor props refs i) as [S1 S2]. cbv zeta in S1, S2.
    destruct (IH (fst (step props refs i)) (S1 Hle)) as [I1 I2].
    split; [assumption|]. intros Hlt. apply I2. apply S2. assumption.
Qed.

Lemma cursor_stays_in_bounds_witness :
  (currentNoteIndexRef (fst (run song initialRefs missedB)) <= 2)%nat /\
  ((0 < 2)%nat ->
   (currentNoteIndexRef (fst (run song initialRefs missedB)) < 2)%nat).
Proof.
  apply (cursor_stays_in_bounds ref_math song missedB initialRefs).
  simpl. lia.
Defined.

(** X2.  In a score whose notes follow one another without overlap, the
    lookup finds a sounding note from any cursor position: whenever the
    playback time lies in the interval of some note, the lookup completes
    and its active target is a note of the score whose interval contains
    the playback time -- that very note when the time lies strictly inside
    its interval (at a shared boundary it may be the neighbour). *)
Theorem lookup_finds_the_sounding_note (M : MathLib)
        notes semitones (tq : Q) idx0 k c :
  ordered notes ->
  (idx0 < List.length notes)%nat ->
  nth_error notes k = Some c ->
  Note.time c <= tq <= noteEnd c ->
  exists idx c',
    locateTarget notes semitones (Fin tq) idx0
    = Ok (idx, Some (Music.transposeNote c' semitones)) /\
    nth_error notes idx = Some c' /\
    Note.time c' <= tq <= noteEnd c' /\
    (Note.time c < tq < noteEnd c -> idx = k).
Proof.
  intros [Hdur Hord] Hidx Hk [Hc1 Hc2].
  assert (Hklt : (k < List.length notes)%nat) by (apply nth_error_Some; congruence).
  assert (Found : forall idx c',
             retreat notes (Fin tq) (advance notes (Fin tq) idx0) = Ok idx ->
             nth_error notes idx = Some c' ->
             Note.time c' <= tq <= noteEnd c' ->
             (Note.time c < tq < noteEnd c -> idx = k) ->
             exists idx c',
               locateTarget notes semitones (Fin tq) idx0
               = Ok (idx, Some (Music.transposeNote c' semitones)) /\
               nth_error notes idx = Some c' /\
               Note.time c' <= tq <= noteEnd c' /\
               (Note.time c < tq < noteEnd c -> idx = k)).
  { intros idx c' Hr Hn [H1 H2] Hs. exists idx, c'.
    split; [|repeat split; assumption].
    unfold locateTarget, bind. rewrite Hr. unfold candidateAt, inNote.
    rewrite Hn. cbn [geb leb].
    assert (E1 : Qle_bool (Note.time c') tq = true) by (qbool; assumption).
    assert (E2 : Qle_bool tq (noteEnd c') = true) by (qbool; assumption).
    rewrite E1, E2. reflexivity. }
  destruct (advance_spec notes (Fin tq) idx0 ltac:(lia)) as ([A0 A1] & A2 & A3).
  set (i := advance notes (Fin tq) idx0) in *.
  destruct (Nat.le_gt_cases idx0 k) as [Hle|Hgt].
  - (* the cursor starts at or before the note: the first loop reaches a
       note that has not ended, the second loop stays *)
    assert (Hik : (i <= k)%nat).
    { destruct (Nat.le_gt_cases i k) as [|Hlt]; [assumption|]. exfalso.
      pose proof (A2 k c ltac:(lia) Hk) as G. cbn [gtb ltb] in G. qbool. lra. }
    destruct A3 as [A3|(n & Hn & Hg)]; [lia|].
    cbn [gtb ltb] in Hg. qbool.
    assert (Hstart : Note.time n <= tq).
    { destruct (Nat.eq_dec i k) as [E|Hne].
      - rewrite E in Hn. assert (n = c) by congruence. subst n. assumption.
      - pose proof (Hord i k n c ltac:(lia) Hn Hk) as O.
        pose proof (Hdur n (nth_error_In _ _ Hn)) as D.
        unfold noteEnd in *. lra. }
    apply (Found i n).
    + apply (retreat_stays notes (Fin tq) i n Hn). cbn [ltb]. qbool. assumption.
    + assumption.
    + split; assumption.
    + intros [S1 S2]. destruct (Nat.eq_dec i k) as [|Hne]; [assumption|].
      exfalso. pose proof (Hord i k n c ltac:(lia) Hn Hk) as O. lra.
  - (* the cursor starts after the note: the first loop stays, the second
       loop walks back to a note that has started *)
    assert (Hi : i = idx0).
    { destruct (Nat.eq_dec i idx0) as [|Hne]; [assumption|]. exfalso.
      destruct (nth_error notes idx0) as [n0|] eqn:En0;
        [|apply nth_error_None in En0; lia].
      pose proof (A2 idx0 n0 ltac:(lia) En0) as G. cbn [gtb ltb] in G. qbool.
      pose proof (Hord k idx0 c n0 Hgt Hk En0) as O.
      pose proof (Hdur n0 (nth_error_In _ _ En0)) as D.
      unfold noteEnd in *. lra. }
    destruct (retreat_spec notes (Fin tq) idx0 Hidx) as (r & R1 & R2 & R3 & R4).
    assert (Hrk : (k <= r)%nat).
    { destruct (Nat.le_gt_cases k r) as [|Hlt]; [assumption|]. exfalso.
      pose proof (R3 k c ltac:(lia) Hk) as G. cbn [ltb] in G. qbool. lra. }
    destruct (nth_error notes r) as [n|] eqn:Hn;
      [|apply nth_error_None in Hn; lia].
    assert (Hstart : Note.time n <= tq).
    { destruct R4 as [R4|(n' & Hn' & Hl)].
      - assert (k = r) by lia. subst k. assert (n = c) by congruence.
        subst n. assumption.
      - assert (n' = n) by congruence. subst n'. cbn [ltb] in Hl. qbool.
        assumption. }
    assert (Hend : tq <= noteEnd n).
    { destruct (Nat.eq_dec r k) as [E|Hne].
      - rewrite E in Hn. assert (n = c) by congruence. subst n. assumption.
      - pose proof (Hord k r c n ltac:(lia) Hk Hn) as O.
        pose proof (Hdur n (nth_error_In _ _ Hn)) as D.
        unfold noteEnd in *. lra. }
    apply (Found r n).
    + rewrite Hi. assumption.
    + assumption.
    + split; assumption.
    + intros [S1 S2]. destruct (Nat.eq_dec r k) as [|Hne]; [assumption|].
      exfalso. pose proof (Hord k r c n ltac:(lia) Hk Hn) as O. lra.
Qed.

Lemma song_is_ordered : ordered [noteA; noteB].
Proof.
  split.
  - intros n [<-|[<-|[]]]; vm_compute; discriminate.
  - intros i j a b Hij Ha Hb.
    destruct i as [|[|i]]; destruct j as [|[|j]]; try lia; cbn in Ha, Hb;
      try discriminate; try (destruct i; discriminate);
      try (destruct j; discriminate).
    injection Ha as <-. injection Hb as <-. vm_compute. discriminate.
Qed.

Lemma lookup_finds_the_sounding_note_witness :
  exists idx c',
    locateTarget [noteA; noteB] 2 (Fin (1 # 2)) 1
    = Ok (idx, Some (Music.transposeNote c' 2)) /\
    nth_error [noteA; noteB] idx = Some c' /\
    Note.time c' <= 1 # 2 <= noteEnd c' /\
    (Note.time noteA < 1 # 2 < noteEnd noteA -> idx = 0%nat).
Proof.
  apply (lookup_finds_the_sounding_note ref_math [noteA; noteB] 2 (1 # 2)
           1%nat 0%nat noteA).
  - exact song_is_ordered.
  - simpl. lia.
  - reflexivity.
  - split; vm_compute; discriminate.
Defined.

End CursorFacts.

(** ** What a tick depends on, and what its hits and scores can be *)

Module TickFacts.
Import JS Analyzer Session Examples Score.

Lemma related_entries {A B : Type} (R : A -> B -> Prop) l1 l2 :
  Forall2 R l1 l2 ->
  forall i,
    match nth_error l1 i, nth_error l2 i with
    | Some a, Some b => R a b
    | None, None => True
    | _, _ => False
    end.
Proof.
  induction 1 as [|a b l1 l2 Hab _ IH]; intros i.
  - destruct i; exact I.
  - destruct i as [|i]; [exact Hab | apply IH].
Qed.

Lemma transposeNote_sameAfter {M : MathLib} s1 s2 n1 n2 :
  sameAfter s1 s2 n1 n2 -> Music.transposeNote n1 s1 = Music.transposeNote n2 s2.
Proof.
  intros (H1 & H2 & H3 & H4 & H5 & H6). unfold Music.transposeNote.
  rewrite H1, H2, H3, H4, H5, H6. reflexivity.
Qed.

Lemma noteEnd_sameAfter s1 s2 n1 n2 :
  sameAfter s1 s2 n1 n2 -> noteEnd n1 = noteEnd n2 /\ Note.time n1 = Note.time n2.
Proof.
  intros (_ & H2 & H3 & _). unfold noteEnd. rewrite H2, H3. split; reflexivity.
Qed.

Lemma advanceLoop_sameAfter s1 s2 notes1 notes2 t :
  Forall2 (sameAfter s1 s2) notes1 notes2 ->
  forall fuel idx,
    advanceLoop fuel notes1 t idx = advanceLoop fuel notes2 t idx.
Proof.
  intros HF. induction fuel as [|fuel IH]; intros idx; [reflexivity|].
  cbn [advanceLoop]. pose proof (related_entries _ _ _ HF idx) as E.
  destruct (nth_error notes1 idx) as [n1|], (nth_error notes2 idx) as [n2|];
    try contradiction; [|reflexivity].
  destruct (noteEnd_sameAfter _ _ _ _ E) as [-> _]. rewrite IH. reflexivity.
Qed.

Lemma retreat_sameAfter s1 s2 notes1 notes2 t :
  Forall2 (sameAfter s1 s2) notes1 notes2 ->
  forall idx, retreat notes1 t idx = retreat notes2 t idx.
Proof.
  intros HF. induction idx as [|idx IH]; [reflexivity|].
  cbn [retreat]. pose proof (related_entries _ _ _ HF (S idx)) as E.
  destruct (nth_error notes1 (S idx)) as [n1|],
           (nth_error notes2 (S idx)) as [n2|];
    try contradiction; [|reflexivity].
  destruct (noteEnd_sameAfter _ _ _ _ E) as [_ ->]. rewrite IH. reflexivity.
Qed.

(** The lookup sees of a note its interval, its identity and its
    transposed pitch, nothing else. *)
Lemma locateTarget_sameAfter {M : MathLib} s1 s2 notes1 notes2 t idx0 :
  Forall2 (sameAfter s1 s2) notes1 notes2 ->
  locateTarget notes1 s1 t idx0 = locateTarget notes2 s2 t idx0.
Proof.
  intros HF. unfold locateTarget, advance.
  rewrite (Forall2_length HF), (advanceLoop_sameAfter _ _ _ _ t HF),
          (retreat_sameAfter _ _ _ _ t HF).
  destruct (retreat notes2 t _) as [idx|e]; [|reflexivity].
  cbn [bind]. unfold candidateAt.
  pose proof (related_entries _ _ _ HF idx) as E.
  destruct (nth_error notes1 idx) as [n1|], (nth_error notes2 idx) as [n2|];
    try contradiction; [|reflexivity].
  unfold inNote. destruct (noteEnd_sameAfter _ _ _ _ E) as [-> ->].
  cbn [option_map]. rewrite (transposeNote_sameAfter _ _ _ _ E). reflexivity.
Qed.

(** X3.  A tick never reads the frequency or the name stored in a note:
    the target it matches against always gets the equal-tempered frequency
    and the name of its transposed pitch.  Two scores that differ only in
    the stored frequencies and names give the same tick. *)
Theorem tick_ignores_stored_frequency (M : MathLib)
        notes1 notes2 semitones refs now pr t :
  Forall2 (sameAfter semitones semitones) notes1 notes2 ->
  tick (mkProps notes1 semitones) refs now pr t
  = tick (mkProps notes2 semitones) refs now pr t.
Proof.
  intros HF. unfold tick. cbn [notes transpositionSemitones].
  rewrite (locateTarget_sameAfter _ _ _ _ t (currentNoteIndexRef refs) HF).
  reflexivity.
Qed.

Lemma tick_ignores_stored_frequency_witness :
  tick (mkProps [noteA; noteB] 3) initialRefs 1000 (Some sungA4) (Fin (1 # 2))
  = tick (mkProps [Note.mk "a" 0 1 69 None 0 100 None; noteB] 3)
         initialRefs 1000 (Some sungA4) (Fin (1 # 2)).
Proof.
  apply (tick_ignores_stored_frequency ref_math).
  repeat constructor.
Defined.

(** X4.  Transposing the score and then running a tick with a further
    offset is running the tick on the original score with the sum of the
    two offsets; in particular the ids, and with them the hits, do not
    depend on how a transposition is split. *)
Theorem tick_of_transposed_score (M : MathLib) notes a b refs now pr t :
  tick (mkProps (List.map (fun n => Music.transposeNote n a) notes) b)
       refs now pr t
  = tick (mkProps notes (a + b)) refs now pr t.
Proof.
  unfold tick. cbn [Analyzer.notes transpositionSemitones].
  rewrite (locateTarget_sameAfter b (a + b)
             (List.map (fun n => Music.transposeNote n a) notes) notes t
             (currentNoteIndexRef refs)); [reflexivity|].
  induction notes as [|n notes IH]; constructor; [|exact IH].
  unfold sameAfter, Music.transposeNote. cbn. repeat split. lia.
Qed.

(** X5.  Hits are sound: a tick emits at most one hit, and a hit it emits
    carries the non-empty id of a note of the score whose interval
    contains the (finite) playback time; a pitch was detected on that
    tick, the guard did not hold that id before the tick and holds it
    after. *)
Theorem hits_are_sound (M : MathLib) props refs now pr t noteId :
  In (NoteHit noteId) (snd (tick props refs now pr t)) ->
  (exists c tq,
      In c (notes props) /\ Note.id c = noteId /\ t = Fin tq /\
      Note.time c <= tq <= noteEnd c) /\
  noteId <> ""%string /\
  pr <> None /\
  lastHitNoteIdRef refs <> Some noteId /\
  lastHitNoteIdRef (fst (tick props refs now pr t)) = Some noteId /\
  hitsOf noteId (snd (tick props refs now pr t)) = 1%nat /\
  (forall other, other <> noteId ->
                 hitsOf other (snd (tick props refs now pr t)) = 0%nat).
Proof.
  intros Hin.
  pose (i := mkInput now pr t).
  assert (Hhit : hitsOf noteId (snd (step props refs i)) <> 0%nat).
  { unfold step. cbn [Analyzer.now pitchResult playbackTime i].
    unfold hitsOf. intros E. apply length_zero_iff_nil in E.
    assert (Hf : In (NoteHit noteId)
                    (filter (isHitOf noteId) (snd (tick props refs now pr t)))).
    { apply filter_In. split; [assumption|]. cbn. apply String.eqb_refl. }
    rewrite E in Hf. destruct Hf. }
  pose proof (GuardFacts.step_guard props refs i noteId) as G. cbv zeta in G.
  unfold activeTarget, classifiedOnPitch, activeTarget in G.
  cbn [Analyzer.now pitchResult playbackTime i] in G.
  destruct (locateTarget (notes props) (transpositionSemitones props) t
                         (currentNoteIndexRef refs)) as [[idx target]|e] eqn:El;
    [|destruct G as [G _]; contradiction].
  destruct target as [tn|]; [|destruct G as [G _]; contradiction].
  destruct pr as [pr|]; [|cbn [andb] in G; destruct G as [_ G]; contradiction].
  destruct (VoiceAnalysis.isOnPitch (analyse (Some tn) pr now)
            && truthy (Note.id tn)
            && differsFrom (lastHitNoteIdRef refs) (Note.id tn)) eqn:Ec;
    [|destruct G as [_ G]; contradiction].
  destruct G as [G1 G2].
  destruct (String.eqb_spec (Note.id tn) noteId) as [Eid|Hne];
    [|contradiction].
  apply andb_true_iff in Ec. destruct Ec as [Ec Ed].
  apply andb_true_iff in Ec. destruct Ec as [_ Et].
  apply GuardFacts.truthy_true in Et. apply GuardFacts.differsFrom_true in Ed.
  pose proof (TrackerFacts.locateTarget_ok _ _ _ _ _ _ El) as Ht.
  cbn iota in Ht. destruct Ht as (c & Hc & Htn & Hge & Hle).
  unfold step in Hhit, G1, G2. cbn [Analyzer.now pitchResult playbackTime i] in *.
  split; [|split; [|split; [|split; [|split; [|split]]]]].
  - destruct t as [tq| | |]; cbn [geb leb] in Hge, Hle; try discriminate.
    exists c, tq. qbool. split; [eapply nth_error_In; eassumption|].
    split; [|split; [reflexivity | split; assumption]].
    rewrite <- Eid, Htn. reflexivity.
  - congruence.
  - discriminate.
  - congruence.
  - congruence.
  - assumption.
  - intros other Hother.
    pose proof (GuardFacts.step_guard props refs (mkInput now (Some pr) t) other)
      as G'. cbv zeta in G'.
    unfold activeTarget, classifiedOnPitch, activeTarget, step in G'.
    cbn [Analyzer.now pitchResult playbackTime] in G'. rewrite El in G'.
    destruct (VoiceAnalysis.isOnPitch (analyse (Some tn) pr now)
              && truthy (Note.id tn)
              && differsFrom (lastHitNoteIdRef refs) (Note.id tn));
      destruct G' as [_ G']; [|assumption].
    destruct (String.eqb_spec (Note.id tn) other); [congruence | assumption].
Qed.

Lemma hits_are_sound_witness :
  (exists c tq,
      In c (notes song) /\ Note.id c = "a"%string /\ Fin (1 # 2) = Fin tq /\
      Note.time c <= tq <= noteEnd c) /\
  "a"%string <> ""%string /\
  Some sungA4 <> None /\
  lastHitNoteIdRef initialRefs <> Some "a"%string /\
  lastHitNoteIdRef (fst (tick song initialRefs 1000 (Some sungA4) (Fin (1 # 2))))
  = Some "a"%string /\
  hitsOf "a" (snd (tick song initialRefs 1000 (Some sungA4) (Fin (1 # 2)))) = 1%nat /\
  (forall other, other <> "a"%string ->
     hitsOf other (snd (tick song initialRefs 1000 (Some sungA4) (Fin (1 # 2))))
     = 0%nat).
Proof.
  apply (hits_are_sound ref_math song initialRefs 1000 (Some sungA4)
           (Fin (1 # 2)) "a"%string).
  vm_compute. left. reflexivity.
Defined.

(** X6.  The deviation a tick reports is at most half an octave, so with
    an active target its accuracy is never below one half (the clamp at 0
    of the linear falloff is never reached); without a target the tick
    reports accuracy 0, deviation 0 and off pitch. *)
Theorem accuracy_of_a_tick (M : MathLib) target pr now :
  let a := analyse target pr now in
  - 600 <= VoiceAnalysis.deviation a <= 600 /\
  match target with
  | Some _ => 1 # 2 <= VoiceAnalysis.accuracy a <= 1
  | None => VoiceAnalysis.accuracy a = 0 /\ VoiceAnalysis.deviation a = 0 /\
            VoiceAnalysis.isOnPitch a = false /\
            VoiceAnalysis.octaveAdjusted a = false
  end.
Proof.
  cbv zeta. destruct target as [tn|];
    cbn [analyse VoiceAnalysis.deviation VoiceAnalysis.accuracy
         VoiceAnalysis.isOnPitch VoiceAnalysis.octaveAdjusted].
  - pose proof (DeviationFacts.centsToNearestOctave_range
                  (Fin (Note.frequency tn))
                  (Fin (PitchDetectionResult.frequency pr))) as R.
    split; [assumption|].
    set (d := centsToNearestOctave _ _) in *.
    unfold accuracyScore, Qdiv. change (/ 1200) with (1 # 1200).
    assert (A : 0 <= Qabs d <= 600).
    { split; [apply Qabs_nonneg|]. apply Qabs_Qle_condition. lra. }
    destruct (Q.max_spec 0 (1 - Qabs d * (1 # 1200))) as [[L E]|[L E]];
      rewrite E; lra.
  - repeat split; lra.
Qed.

End TickFacts.

(** ** Pitch classes and note names *)

Module PitchClassFacts.
Import JS Examples Score.

Lemma rem12_cases (m : Z) :
  (0 <= m)%Z ->
  let r := JS.rem m 12 in
  r = (m mod 12)%Z /\
  (r = 0 \/ r = 1 \/ r = 2 \/ r = 3 \/ r = 4 \/ r = 5 \/
   r = 6 \/ r = 7 \/ r = 8 \/ r = 9 \/ r = 10 \/ r = 11)%Z.
Proof.
  intros Hm. cbv zeta. unfold JS.rem. rewrite Z.rem_mod_nonneg by lia.
  split; [reflexivity|]. pose proof (Z.mod_pos_bound m 12 ltac:(lia)). lia.
Qed.

Lemma rem12_shift (m : Z) : (0 <= m)%Z -> JS.rem (m + 12) 12 = JS.rem m 12.
Proof.
  intros Hm. unfold JS.rem. rewrite !Z.rem_mod_nonneg by lia.
  replace (m + 12)%Z with (m + 1 * 12)%Z by lia. apply Z.mod_add. lia.
Qed.

(** X7.  Octave equivalence is reflexive, symmetric and transitive.  On
    non-negative pitches it does not see whole octaves.  Across zero it
    does: a negative pitch that is not a multiple of 12 is equivalent to no
    non-negative pitch, not even to one a whole number of octaves away (the
    remainder takes the sign of the dividend). *)
Theorem octave_equivalence (M : MathLib) (p q r : Z) :
  Music.isOctaveEquivalent p p = true /\
  Music.isOctaveEquivalent p q = Music.isOctaveEquivalent q p /\
  (Music.isOctaveEquivalent p q = true -> Music.isOctaveEquivalent q r = true ->
   Music.isOctaveEquivalent p r = true) /\
  ((0 <= p)%Z ->
   Music.isOctaveEquivalent (p + 12) q = Music.isOctaveEquivalent p q) /\
  ((p < 0)%Z -> (0 <= q)%Z -> (p mod 12 <> 0)%Z ->
   Music.isOctaveEquivalent p q = false).
Proof.
  unfold Music.isOctaveEquivalent.
  split; [apply Z.eqb_refl|]. split; [apply Z.eqb_sym|]. split; [|split].
  - rewrite !Z.eqb_eq. congruence.
  - intros Hp. rewrite rem12_shift by assumption. reflexivity.
  - intros Hp Hq Hne. apply Z.eqb_neq. unfold JS.rem.
    pose proof (Z.rem_nonpos p 12 ltac:(lia) ltac:(lia)) as B.
    pose proof (Z.rem_nonneg q 12 ltac:(lia) Hq) as B'.
    pose proof (Z.rem_mod_eq_0 p 12 ltac:(lia)) as R.
    intros E. apply Hne, R. lia.
Qed.

Lemma octave_equivalence_witness :
  Music.isOctaveEquivalent (57 + 12) 69 = Music.isOctaveEquivalent 57 69 /\
  Music.isOctaveEquivalent (-1) 11 = false.
Proof.
  split.
  - destruct (octave_equivalence ref_math 57 69 81) as (_ & _ & _ & H & _).
    apply H. lia.
  - destruct (octave_equivalence ref_math (-1) 11 0) as (_ & _ & _ & _ & H).
    apply H; [lia | lia | vm_compute; discriminate].
Defined.

(** X8.  Every non-negative MIDI number has a name, one of the twelve of
    the table, which does not change with the octave; a negative number
    has a name only if it is a multiple of 12. *)
Theorem note_name_of_a_pitch (M : MathLib) (m : Z) :
  ((0 <= m)%Z ->
   exists name, Music.getMidiNoteNameOnly m = Some name /\
                In name Music.noteNames /\
                nth_error Music.noteNames (Z.to_nat (m mod 12)) = Some name /\
                Music.getMidiNoteNameOnly (m + 12) = Some name) /\
  ((m < 0)%Z ->
   (Music.getMidiNoteNameOnly m = None <-> (m mod 12 <> 0)%Z) /\
   ((m mod 12 = 0)%Z -> Music.getMidiNoteNameOnly m = Some "C"%string)).
Proof.
  unfold Music.getMidiNoteNameOnly. split.
  - intros Hm. rewrite rem12_shift by assumption.
    destruct (rem12_cases m Hm) as [E C]. cbv zeta in E, C. rewrite <- E.
    unfold Music.noteNameAt.
    destruct C as [C|[C|[C|[C|[C|[C|[C|[C|[C|[C|[C|C]]]]]]]]]]]; rewrite C;
      cbn; eexists; (split; [reflexivity|]); (split; [|split; reflexivity]);
      cbn; tauto.
  - intros Hm. unfold JS.rem, Music.noteNameAt.
    pose proof (Z.rem_nonpos m 12 ltac:(lia) ltac:(lia)) as B.
    pose proof (Z.rem_mod_eq_0 m 12 ltac:(lia)) as R.
    destruct (Z.eq_dec (Z.rem m 12) 0) as [E0|Hne].
    + rewrite E0. cbn. split.
      * split; [discriminate|]. intros H. exfalso. apply H, R. assumption.
      * reflexivity.
    + assert (L : (Z.rem m 12 <? 0)%Z = true) by (apply Z.ltb_lt; lia).
      rewrite L. split.
      * split; [intros _ H; apply Hne, R; assumption | reflexivity].
      * intros H. exfalso. apply Hne, R. assumption.
Qed.

Lemma note_name_of_a_pitch_witness :
  (exists name, Music.getMidiNoteNameOnly 69 = Some name /\
                In name Music.noteNames /\
                nth_error Music.noteNames (Z.to_nat (69 mod 12)) = Some name /\
                Music.getMidiNoteNameOnly (69 + 12) = Some name) /\
  (Music.getMidiNoteNameOnly (-1) = None <-> (-1 mod 12 <> 0)%Z).
Proof.
  split.
  - apply (proj1 (note_name_of_a_pitch ref_math 69)). lia.
  - apply (proj2 (note_name_of_a_pitch ref_math (-1))). lia.
Defined.

(** X9.  The keyboard and the name table agree: for every non-negative
    MIDI number, the key is black exactly when the name of the note is a
    sharp. *)
Theorem black_keys_are_the_sharps (M : MathLib) (m : Z) :
  (0 <= m)%Z ->
  exists name, Music.getMidiNoteNameOnly m = Some name /\
               PianoKeyboard.isBlackKey m = isSharp name.
Proof.
  intros Hm. unfold Music.getMidiNoteNameOnly, PianoKeyboard.isBlackKey.
  destruct (rem12_cases m Hm) as [_ C]. cbv zeta in C.
  destruct C as [C|[C|[C|[C|[C|[C|[C|[C|[C|[C|[C|C]]]]]]]]]]]; rewrite C;
    eexists; split; reflexivity.
Qed.

Lemma black_keys_are_the_sharps_witness :
  exists name, Music.getMidiNoteNameOnly 61 = Some name /\
               PianoKeyboard.isBlackKey 61 = isSharp name.
Proof. apply (black_keys_are_the_sharps ref_math 61). lia. Defined.

End PitchClassFacts.

(** ** The callers: song duration, history trail, hit set and score *)

Module AppFacts.
Import JS Analyzer Session Examples App.

Lemma laterEnding_fold rest :
  forall first,
    let r := fold_left laterEnding rest first in
    In r (first :: rest) /\
    forall n, In n (first :: rest) -> noteEnd n <= noteEnd r.
Proof.
  induction rest as [|x rest IH]; intros first; cbn [fold_left].
  - split; [left; reflexivity|]. intros n [<-|[]]. lra.
  - destruct (IH (laterEnding first x)) as [I1 I2]. cbv zeta in I1, I2.
    assert (L : In (laterEnding first x) [first; x] /\
                noteEnd first <= noteEnd (laterEnding first x) /\
                noteEnd x <= noteEnd (laterEnding first x)).
    { unfold laterEnding, noteEnd.
      destruct (Qlt_bool (Note.time first + Note.duration first)
                         (Note.time x + Note.duration x)) eqn:E; qbool;
        (split; [cbn; tauto | split; lra]). }
    destruct L as (L1 & L2 & L3). split.
    + destruct I1 as [I1|I1]; [|right; right; assumption].
      rewrite <- I1. destruct L1 as [<-|[<-|[]]]; cbn; tauto.
    + intros n [<-|[<-|Hn]].
      * pose proof (I2 _ (or_introl eq_refl)). lra.
      * pose proof (I2 _ (or_introl eq_refl)). lra.
      * apply I2. right. assumption.
Qed.



(** Past the duration less two seconds the lookup throws. *)
Lemma lookup_throws_late {M : MathLib} notes semitones (tq : Q) idx0 :
  notes <> [] ->
  (idx0 <= List.length notes)%nat ->
  inject_Z (calculateSongDuration notes) - 2 < tq ->
  locateTarget notes semitones (Fin tq) idx0 = Throw TypeError.
Proof.
  intros Hne Hle Ht.
  assert (Hall : forall n, In n notes -> gtb (Fin tq) (Fin (noteEnd n)) = true).
  { intros n Hn. cbn [gtb ltb]. qbool.
    destruct notes as [|first rest]; [destruct Hn|].
    cbn [calculateSongDuration] in Ht.
    destruct (laterEnding_fold rest first) as [_ F2]. cbv zeta in F2.
    pose proof (F2 n Hn) as Hle'.
    pose proof (Qle_ceiling
                  (Note.time (fold_left laterEnding rest first)
                   + Note.duration (fold_left laterEnding rest first) + 2)) as C.
    unfold noteEnd in *. lra. }
  unfold locateTarget.
  rewrite (TrackerFacts.advance_past_every_note notes (Fin tq) idx0 Hall Hle),
          (TrackerFacts.retreat_at_length notes (Fin tq) Hne).
  reflexivity.
Qed.

(** X11.  Every song with notes is played into the failing lookup: from
    two seconds before its end on, the playback time is past the end of
    every note, and the lookup of the tick throws. *)
Theorem last_seconds_of_a_song_throw (M : MathLib) notes semitones (tq : Q) idx0 :
  notes <> [] ->
  (idx0 <= List.length notes)%nat ->
  inject_Z (calculateSongDuration notes) - 2 < tq ->
  locateTarget notes semitones (Fin tq) idx0 = Throw TypeError.
Proof. exact (lookup_throws_late notes semitones tq idx0). Qed.

Lemma last_seconds_of_a_song_throw_witness :
  locateTarget [noteA; noteB] 0 (Fin (5 # 2)) 1 = Throw TypeError.
Proof.
  apply (last_seconds_of_a_song_throw ref_math [noteA; noteB] 0 (5 # 2) 1%nat).
  - discriminate.
  - simpl. lia.
  - vm_compute. reflexivity.
Defined.

Lemma sliceLast_app {A : Type} (n : nat) (l l' : list A) :
  sliceLast n (sliceLast n l ++ l') = sliceLast n (l ++ l').
Proof.
  unfold sliceLast.
  rewrite !length_app, length_skipn, !skipn_app, skipn_skipn, length_skipn.
  f_equal; f_equal; lia.
Qed.

Lemma sliceLast_length {A : Type} (n : nat) (l : list A) :
  List.length (sliceLast n l) = Nat.min n (List.length l).
Proof. unfold sliceLast. rewrite length_skipn. lia. Qed.

Lemma sliceLast_all {A : Type} (n : nat) (l : list A) :
  (List.length l <= n)%nat -> sliceLast n l = l.
Proof.
  intros H. unfold sliceLast.
  replace (List.length l - n)%nat with 0%nat by lia. reflexivity.
Qed.

(** X12.  The history trail keeps the last 100 points: after any number of
    updates the trail is the last 100 of everything it was given, in
    order, and never holds more than 100 points. *)
Theorem history_trail_keeps_last_100 prev points :
  (List.length prev <= 100)%nat ->
  fold_left handleVoiceHistoryUpdate points prev
  = sliceLast 100 (prev ++ points) /\
  (List.length (fold_left handleVoiceHistoryUpdate points prev) <= 100)%nat /\
  ((List.length (prev ++ points) <= 100)%nat ->
   fold_left handleVoiceHistoryUpdate points prev = prev ++ points).
Proof.
  intros Hprev.
  assert (E : fold_left handleVoiceHistoryUpdate points prev
              = sliceLast 100 (prev ++ points)).
  { revert prev Hprev. induction points as [|p points IH]; intros prev Hprev;
      cbn [fold_left].
    - rewrite app_nil_r, sliceLast_all by assumption. reflexivity.
    - unfold handleVoiceHistoryUpdate at 2. rewrite IH.
      + rewrite sliceLast_app, <- app_assoc. reflexivity.
      + rewrite sliceLast_length. lia. }
  rewrite E. split; [reflexivity|]. split.
  - rewrite sliceLast_length. lia.
  - apply sliceLast_all.
Qed.

Lemma history_trail_keeps_last_100_witness :
  let p := VoiceHistory.mk 0 69 true in
  fold_left handleVoiceHistoryUpdate (repeat p 150) [p]
  = sliceLast 100 ([p] ++ repeat p 150) /\
  (List.length (fold_left handleVoiceHistoryUpdate (repeat p 150) [p]) <= 100)%nat /\
  ((List.length ([p] ++ repeat p 150) <= 100)%nat ->
   fold_left handleVoiceHistoryUpdate (repeat p 150) [p] = [p] ++ repeat p 150).
Proof.
  cbv zeta.
  apply (history_trail_keeps_last_100 [VoiceHistory.mk 0 69 true]).
  simpl. lia.
Defined.

Lemma setAdd_present x s : In x s -> setAdd x s = s.
Proof.
  induction s as [|y s IH]; intros Hin; [destruct Hin|].
  cbn [setAdd]. destruct (String.eqb_spec y x) as [|Hne]; [reflexivity|].
  destruct Hin as [Hin|Hin]; [contradiction|]. rewrite IH by assumption.
  reflexivity.
Qed.

Lemma setAdd_absent x s : ~ In x s -> setAdd x s = s ++ [x].
Proof.
  induction s as [|y s IH]; intros Hin; [reflexivity|].
  cbn [setAdd]. destruct (String.eqb_spec y x) as [->|Hne].
  - exfalso. apply Hin. left. reflexivity.
  - rewrite IH; [reflexivity|]. intros H. apply Hin. right. assumption.
Qed.

Lemma newSet_from s0 l :
  NoDup (s0 ++ l) -> fold_left (fun s x => setAdd x s) l s0 = s0 ++ l.
Proof.
  revert s0. induction l as [|x l IH]; intros s0 Hnd; cbn [fold_left].
  - rewrite app_nil_r. reflexivity.
  - assert (Hx : ~ In x s0).
    { apply NoDup_remove_2 in Hnd. intros H. apply Hnd. apply in_or_app.
      left. assumption. }
    rewrite (setAdd_absent x s0 Hx), IH; rewrite <- app_assoc; [reflexivity|].
    exact Hnd.
Qed.

(** [handleNoteHit] on a set: nothing changes if the id is in it,
    otherwise the id is added at the end. *)
Lemma handleNoteHit_spec prev noteId :
  NoDup prev ->
  handleNoteHit prev noteId = (if in_dec string_dec noteId prev
                               then prev else prev ++ [noteId]).
Proof.
  intros Hnd. unfold handleNoteHit, newSet. rewrite fold_left_app.
  rewrite (newSet_from [] prev) by exact Hnd. cbn [app fold_left].
  destruct (in_dec string_dec noteId prev) as [Hin|Hin].
  - apply setAdd_present. assumption.
  - apply setAdd_absent. assumption.
Qed.

Lemma listen_hits l evs :
  NoDup (noteHits l) ->
  let l' := fold_left onEvent evs l in
  NoDup (noteHits l') /\
  forall noteId, In noteId (noteHits l') <->
                 In noteId (noteHits l) \/ In (NoteHit noteId) evs.
Proof.
  revert l. induction evs as [|e evs IH]; intros l Hnd; cbn [fold_left].
  - split; [assumption|]. intros noteId. cbn. tauto.
  - assert (S : NoDup (noteHits (onEvent l e)) /\
                forall noteId, In noteId (noteHits (onEvent l e)) <->
                               In noteId (noteHits l) \/ NoteHit noteId = e).
    { destruct e as [x|a|h]; cbn [onEvent noteHits].
      - rewrite (handleNoteHit_spec _ x Hnd).
        destruct (in_dec string_dec x (noteHits l)) as [Hin|Hin].
        + split; [assumption|]. intros y. split; [tauto|].
          intros [H|H]; [assumption|]. injection H as ->. assumption.
        + split.
          * apply NoDup_app; [assumption | constructor; [intros []|constructor] |].
            intros y Hy [<-|[]]. contradiction.
          * intros y. rewrite in_app_iff. cbn. split.
            -- intros [H|[->|[]]]; [left; assumption | right; reflexivity].
            -- intros [H|H]; [left; assumption|]. injection H as ->. tauto.
      - split; [assumption|]. intros y. split; [tauto|].
        intros [H|H]; [assumption | discriminate].
      - split; [assumption|]. intros y. split; [tauto|].
        intros [H|H]; [assumption | discriminate]. }
    destruct S as [S1 S2]. destruct (IH (onEvent l e) S1) as [I1 I2].
    cbv zeta in I1, I2. split; [assumption|].
    intros noteId. rewrite I2, S2. cbn [In]. split.
    + intros [[H|H]|H]; [left; assumption | right; left; symmetry; assumption
                        | right; right; assumption].
    + intros [H|[H|H]]; [left; left; assumption | left; right; symmetry; assumption
                        | right; assumption].
Qed.

(** A hit a tick emits is for a note of the score. *)
Lemma hit_ids_are_note_ids {M : MathLib} props refs i noteId :
  In (NoteHit noteId) (snd (step props refs i)) ->
  In noteId (List.map Note.id (notes props)).
Proof.
  unfold step, tick.
  destruct (locateTarget (notes props) (transpositionSemitones props)
                         (playbackTime i) (currentNoteIndexRef refs))
    as [[idx target]|e] eqn:El; [|intros []].
  pose proof (TrackerFacts.locateTarget_ok _ _ _ _ _ _ El) as Ht.
  destruct (pitchResult i) as [pr|].
  - destruct target as [tn|]; cbn [analyse arbitrate VoiceAnalysis.isOnPitch].
    + destruct Ht as (c & Hc & Htn & _).
      destruct (onPitch _ _ && truthy (Note.id tn)
                && differsFrom (lastHitNoteIdRef refs) (Note.id tn));
        cbn [snd]; rewrite !in_app_iff.
      * intros [[H|[]]|[H|H]].
        -- injection H as <-. rewrite Htn. cbn [Music.transposeNote Note.id].
           apply in_map. eapply nth_error_In. eassumption.
        -- destruct (_ >=? _)%Z; [destruct H as [H|[]]; discriminate | destruct H].
        -- destruct (_ >=? _)%Z in H; [|destruct H].
           apply in_map_iff in H. destruct H as (h & H & _). discriminate.
      * intros [[]|[H|H]].
        -- destruct (_ >=? _)%Z; [destruct H as [H|[]]; discriminate | destruct H].
        -- destruct (_ >=? _)%Z in H; [|destruct H].
           apply in_map_iff in H. destruct H as (h & H & _). discriminate.
    + cbn [snd]. rewrite !in_app_iff. intros [[]|[H|H]].
      * destruct (_ >=? _)%Z; [destruct H as [H|[]]; discriminate | destruct H].
      * destruct (_ >=? _)%Z in H; [|destruct H].
        apply in_map_iff in H. destruct H as (h & H & _). discriminate.
  - cbn [snd]. intros H.
    destruct (_ >=? _)%Z; [destruct H as [H|[]]; discriminate | destruct H].
Qed.

Lemma run_hit_ids_are_note_ids {M : MathLib} props inputs :
  forall refs noteId,
    In (NoteHit noteId) (List.concat (snd (run props refs inputs))) ->
    In noteId (List.map Note.id (notes props)).
Proof.
  induction inputs as [|i rest IH]; intros refs noteId; [intros []|].
  rewrite GuardFacts.run_cons_snd. cbn [List.concat]. rewrite in_app_iff.
  intros [H|H]; [eapply hit_ids_are_note_ids; eassumption | eapply IH; eassumption].
Qed.

(** X13.  The score of a session: the set of hits the application collects
    from the events of any sequence of ticks holds each id once, holds
    exactly the ids for which a hit was emitted, all of them ids of notes
    of the song; so the number of correct notes is at most the number of
    notes and the score lies between 0 and 100 percent. *)
Theorem session_score_is_a_percentage (M : MathLib) props refs inputs dateNow :
  let l := listen freshListener (snd (run props refs inputs)) in
  let r := songResults (notes props) (noteHits l) dateNow in
  NoDup (noteHits l) /\
  (forall noteId, In noteId (noteHits l) <->
                  In (NoteHit noteId) (List.concat (snd (run props refs inputs)))) /\
  (forall noteId, In noteId (noteHits l) ->
                  In noteId (List.map Note.id (notes props))) /\
  (correctNotes r <= totalNotes r)%nat /\
  0 <= accuracy r <= 1 /\
  0 <= scorePercentage r <= 100.
Proof.
  cbv zeta. unfold listen.
  destruct (listen_hits freshListener
              (List.concat (snd (run props refs inputs))) (NoDup_nil _))
    as [L1 L2]. cbv zeta in L1, L2.
  set (l := fold_left onEvent (List.concat (snd (run props refs inputs)))
                      freshListener) in *.
  assert (Hin : forall noteId, In noteId (noteHits l) ->
                               In noteId (List.map Note.id (notes props))).
  { intros noteId H. apply L2 in H. destruct H as [[]|H].
    eapply run_hit_ids_are_note_ids. eassumption. }
  assert (Hlen : (List.length (noteHits l) <= List.length (notes props))%nat).
  { rewrite <- (length_map Note.id (notes props)).
    apply NoDup_incl_length; assumption. }
  split; [assumption|]. split.
  { intros noteId. rewrite L2. cbn. tauto. }
  split; [assumption|].
  unfold songResults.
  cbn [correctNotes totalNotes accuracy scorePercentage].
  split; [assumption|].
  assert (A : 0 <= (if (0 <? List.length (notes props))%nat
                    then inject_Z (Z.of_nat (List.length (noteHits l)))
                         / inject_Z (Z.of_nat (List.length (notes props)))
                    else 0) <= 1).
  { destruct (0 <? List.length (notes props))%nat eqn:E; [|lra].
    apply Nat.ltb_lt in E.
    assert (P : 0 < inject_Z (Z.of_nat (List.length (notes props)))).
    { change 0 with (inject_Z 0). rewrite <- Zlt_Qlt. lia. }
    assert (N : 0 <= inject_Z (Z.of_nat (List.length (noteHits l)))).
    { change 0 with (inject_Z 0). rewrite <- Zle_Qle. lia. }
    assert (L : inject_Z (Z.of_nat (List.length (noteHits l)))
                <= inject_Z (Z.of_nat (List.length (notes props)))).
    { rewrite <- Zle_Qle. lia. }
    split.
    - apply Qle_shift_div_l; [assumption | lra].
    - apply Qle_shift_div_r; [assumption | lra]. }
  split; [assumption | lra].
Qed.

(** The presses of the two transposition buttons. *)
Lemma transposition_step_in_range (b : Button) (s : Z) :
  (-12 <= s <= 12)%Z -> (-12 <= press s b <= 12)%Z.
Proof. unfold press, transposeUp, transposeDown. destruct b; lia. Qed.

(** X16.  The transposition buttons never leave the range of an octave
    either way: from a value between -12 and 12, any sequence of presses
    leaves a value between -12 and 12, so that the target pitch of a note
    is never more than 12 semitones from its written pitch. *)
Theorem transposition_stays_within_an_octave (M : MathLib) start presses note :
  (-12 <= start <= 12)%Z ->
  let semitones := fold_left press presses start in
  (-12 <= semitones <= 12)%Z /\
  (Z.abs (Note.pitch (Music.transposeNote note semitones) - Note.pitch note)
   <= 12)%Z.
Proof.
  intros Hs. cbv zeta.
  assert (H : (-12 <= fold_left press presses start <= 12)%Z).
  { revert start Hs. induction presses as [|b presses IH]; intros start Hs;
      cbn [fold_left]; [assumption|].
    apply IH. apply (transposition_step_in_range _ _ Hs). }
  split; [assumption|]. cbn [Music.transposeNote Note.pitch]. lia.
Qed.

Lemma transposition_stays_within_an_octave_witness :
  let semitones :=
    fold_left press (repeat TransposeUp 14 ++ [TransposeDown]) 0%Z in
  (-12 <= semitones <= 12)%Z /\
  (Z.abs (Note.pitch (Music.transposeNote noteA semitones) - Note.pitch noteA)
   <= 12)%Z.
Proof.
  apply (transposition_stays_within_an_octave ref_math 0
           (repeat TransposeUp 14 ++ [TransposeDown]) noteA).
  lia.
Defined.

End AppFacts.

(** ** The detector's buffer and periodic windows *)

Module BufferFacts.
Import JS PitchDetector YinSpec Examples Signal.

Lemma overwrite_length prefix yin :
  List.length (overwrite prefix yin) = List.length yin.
Proof.
  unfold overwrite. rewrite length_app, length_firstn, length_skipn. lia.
Qed.

Lemma difference_nonneg x tau : 0 <= difference x tau.
Proof.
  unfold difference.
  assert (G : forall pairs sum, 0 <= sum ->
              0 <= fold_left (fun sum (p : Q * Q) =>
                                let diff := fst p - snd p in sum + diff * diff)
                             pairs sum).
  { induction pairs as [|p pairs IH]; intros sum Hs; cbn [fold_left];
      [assumption|].
    apply IH. cbv zeta.
    pose proof (Qsqr_nonneg (fst p - snd p)) as S.
    change ((fst p - snd p) ^ 2) with ((fst p - snd p) * (fst p - snd p)) in S.
    lra. }
  apply G. lra.
Qed.

Lemma cmndLoop_nonneg x taus :
  forall runningSum,
    0 <= runningSum -> Forall (fun v => 0 <= v) (cmndLoop x taus runningSum).
Proof.
  induction taus as [|tau taus IH]; intros rs Hrs; cbn [cmndLoop];
    constructor.
  - pose proof (difference_nonneg x tau) as D.
    assert (T : 0 <= inject_Z (Z.of_nat tau)).
    { change 0 with (inject_Z 0). rewrite <- Zle_Qle. lia. }
    destruct (Qeq_bool (rs + difference x tau) 0) eqn:E.
    + apply Qle_shift_div_l; [reflexivity|]. rewrite Qmult_0_l.
      apply Qmult_le_0_compat; assumption.
    + apply Qeq_bool_neq in E.
      apply Qle_shift_div_l; [lra|]. rewrite Qmult_0_l.
      apply Qmult_le_0_compat; assumption.
  - apply IH. pose proof (difference_nonneg x tau). lra.
Qed.

(** The entry of a lag is its difference times the lag over a divisor. *)
Lemma cmndLoop_entry x taus :
  forall runningSum k tau,
    nth_error taus k = Some tau ->
    exists divisor,
      nth_error (cmndLoop x taus runningSum) k
      = Some (difference x tau * inject_Z (Z.of_nat tau) / divisor).
Proof.
  induction taus as [|t taus IH]; intros rs k tau Hk; [destruct k; discriminate|].
  destruct k as [|k]; cbn [cmndLoop nth_error] in *.
  - injection Hk as ->. eexists. reflexivity.
  - apply IH. assumption.
Qed.

Lemma combine_entry {A B : Type} (l1 : list A) (l2 : list B) :
  forall i a b,
    nth_error (combine l1 l2) i = Some (a, b) ->
    nth_error l1 i = Some a /\ nth_error l2 i = Some b.
Proof.
  revert l2. induction l1 as [|x l1 IH]; intros l2 i a b H;
    [destruct i; discriminate|].
  destruct l2 as [|y l2]; [destruct i; discriminate|].
  destruct i as [|i]; cbn in H |- *.
  - injection H as -> ->. split; reflexivity.
  - apply IH. assumption.
Qed.

(** At its period the difference function of a window vanishes. *)
Lemma difference_at_period x period :
  periodic x period -> difference x period == 0.
Proof.
  intros Hp. unfold difference.
  assert (G : forall pairs sum,
              (forall p, In p pairs -> fst p == snd p) ->
              fold_left (fun sum (p : Q * Q) =>
                           let diff := fst p - snd p in sum + diff * diff)
                        pairs sum == sum).
  { induction pairs as [|p pairs IH]; intros sum Hall; cbn [fold_left];
      [reflexivity|].
    rewrite IH by (intros q Hq; apply Hall; right; assumption).
    cbv zeta. rewrite (Hall p (or_introl eq_refl)). ring. }
  apply G. intros [a b] Hin. cbn [fst snd].
  apply In_nth_error in Hin. destruct Hin as [i Hi].
  apply combine_entry in Hi. destruct Hi as [Ha Hb].
  rewrite nth_error_skipn in Hb. apply (Hp i a b Ha).
  rewrite Nat.add_comm. assumption.
Qed.

Lemma cmndLoop_length x taus :
  forall runningSum, List.length (cmndLoop x taus runningSum) = List.length taus.
Proof.
  induction taus as [|t taus IH]; intros rs; cbn [cmndLoop List.length];
    [reflexivity|]. rewrite IH. reflexivity.
Qed.

(** The entries that steps 1 and 2 leave in the buffer, for the lags up
    to [maxTauClamped]: none is negative, and the entry of a lag is its
    difference times the lag over a divisor. *)
Lemma written_entries x yin maxTauClamped tau :
  (0 <= tau <= maxTauClamped)%Z ->
  (maxTauClamped < Z.of_nat (List.length yin))%Z ->
  let yin' := overwrite (cmnd x maxTauClamped) yin in
  readAt yin' tau = Some (valOf yin' tau) /\
  0 <= valOf yin' tau /\
  ((1 <= tau)%Z ->
   exists divisor,
     valOf yin' tau
     = difference x (Z.to_nat tau) * inject_Z (Z.of_nat (Z.to_nat tau)) / divisor).
Proof.
  intros Ht Hlen. cbv zeta.
  assert (Hl : List.length (cmnd x maxTauClamped) = S (Z.to_nat maxTauClamped)).
  { unfold cmnd. cbn [List.length]. rewrite cmndLoop_length, length_seq.
    reflexivity. }
  assert (Hr : readAt (overwrite (cmnd x maxTauClamped) yin) tau
               = Some (valOf (overwrite (cmnd x maxTauClamped) yin) tau)).
  { apply YinFacts.readAt_valOf. rewrite overwrite_length. lia. }
  assert (Hn : nth_error (overwrite (cmnd x maxTauClamped) yin) (Z.to_nat tau)
               = nth_error (cmnd x maxTauClamped) (Z.to_nat tau)).
  { unfold overwrite. rewrite nth_error_app1.
    - rewrite nth_error_firstn.
      assert (E : (Z.to_nat tau <? List.length yin)%nat = true)
        by (apply Nat.ltb_lt; lia).
      rewrite E. reflexivity.
    - rewrite length_firstn, Hl. lia. }
  assert (Hv : nth_error (cmnd x maxTauClamped) (Z.to_nat tau)
               = Some (valOf (overwrite (cmnd x maxTauClamped) yin) tau)).
  { rewrite <- Hn. unfold readAt in Hr.
    assert (E : (tau <? 0)%Z = false) by (apply Z.ltb_ge; lia).
    rewrite E in Hr. exact Hr. }
  split; [assumption|]. split.
  - assert (F : Forall (fun v => 0 <= v) (cmnd x maxTauClamped)).
    { unfold cmnd. constructor; [lra|]. apply cmndLoop_nonneg. lra. }
    rewrite Forall_forall in F. apply F. eapply nth_error_In. eassumption.
  - intros H1. unfold cmnd in Hv.
    replace (Z.to_nat tau) with (S (Z.to_nat tau - 1)) in Hv at 1 by lia.
    cbn [nth_error] in Hv.
    destruct (cmndLoop_entry x (seq 1 (Z.to_nat maxTauClamped)) 0
                (Z.to_nat tau - 1) (Z.to_nat tau)) as [divisor Hd].
    + rewrite nth_error_seq.
      assert (E : (Z.to_nat tau - 1 <? Z.to_nat maxTauClamped)%nat = true)
        by (apply Nat.ltb_lt; lia).
      rewrite E. f_equal. lia.
    + exists divisor. unfold cmnd. congruence.
Qed.

(** Below a crossing there is a first crossing. *)
Lemma first_crossing_exists yin hi (n : nat) :
  forall lo,
    Z.to_nat (hi - lo) = n -> (lo <= hi)%Z -> crosses yin hi = true ->
    exists tau,
      (lo <= tau <= hi)%Z /\ crosses yin tau = true /\
      forall tau', (lo <= tau' < tau)%Z -> crosses yin tau' = false.
Proof.
  induction n as [|n IH]; intros lo Hn Hlo Hc.
  - assert (lo = hi) by lia. subst lo. exists hi.
    split; [lia|]. split; [assumption|]. intros tau' Ht. lia.
  - destruct (crosses yin lo) eqn:E.
    + exists lo. split; [lia|]. split; [assumption|]. intros tau' Ht. lia.
    + destruct (IH (lo + 1)%Z ltac:(lia) ltac:(lia) Hc) as (tau & T1 & T2 & T3).
      exists tau. split; [lia|]. split; [assumption|].
      intros tau' Ht. destruct (Z.eq_dec tau' lo) as [->|]; [assumption|].
      apply T3. lia.
Qed.

(** The threshold search on the buffer of a periodic window breaks at or
    before the period, at a value below the threshold. *)
Lemma searchTau_on_periodic x yin minTau maxTauClamped period :
  periodic x period ->
  (Z.max 2 minTau <= Z.of_nat period)%Z ->
  (Z.of_nat period + 1 <= maxTauClamped)%Z ->
  (maxTauClamped < Z.of_nat (List.length yin))%Z ->
  let yin' := overwrite (cmnd x maxTauClamped) yin in
  exists tau,
    searchTau yin' minTau maxTauClamped = Some (tau, valOf yin' tau) /\
    (Z.max 2 minTau <= tau <= Z.of_nat period)%Z /\
    valOf yin' tau < yinThreshold.
Proof.
  intros Hp Hlo Hhi Hlen. cbv zeta.
  set (yin' := overwrite (cmnd x maxTauClamped) yin).
  assert (Hlen' : (maxTauClamped < Z.of_nat (List.length yin'))%Z)
    by (unfold yin'; rewrite overwrite_length; assumption).
  (* the period itself is a crossing *)
  assert (Hc : crosses yin' (Z.of_nat period) = true).
  { destruct (written_entries x yin maxTauClamped (Z.of_nat period)
                ltac:(lia) Hlen) as (R1 & _ & R3).
    destruct (written_entries x yin maxTauClamped (Z.of_nat period + 1)
                ltac:(lia) Hlen) as (S1 & S2 & _).
    fold yin' in R1, R3, S1, S2.
    destruct (R3 ltac:(lia)) as [divisor Hd].
    rewrite Nat2Z.id in Hd.
    assert (Z0 : valOf yin' (Z.of_nat period) == 0).
    { rewrite Hd, (difference_at_period x period Hp).
      unfold Qdiv. ring. }
    unfold crosses. rewrite R1, S1. cbn [numOf ltb leb].
    apply andb_true_iff. split; qbool; unfold yinThreshold; lra. }
  destruct (first_crossing_exists yin' (Z.of_nat period)
              (Z.to_nat (Z.of_nat period - Z.max 2 minTau)) (Z.max 2 minTau)
              eq_refl Hlo Hc) as (tau & T1 & T2 & T3).
  destruct (YinFacts.crosses_true yin' tau ltac:(lia) T2) as [C1 _].
  pose proof (YinFacts.values_before_first_crossing yin' (Z.max 2 minTau) tau
                ltac:(lia) ltac:(lia) T2 T3) as Hbefore.
  exists tau. split; [|split; assumption].
  unfold searchTau.
  rewrite (YinFacts.thresholdSearch_breaks yin' maxTauClamped tau (valOf yin' tau)
             (Z.to_nat (tau - Z.max 2 minTau)) (Z.max 2 minTau) 1
             eq_refl ltac:(lia) ltac:(lia) Hlen' eq_refl T2).
  - assert (E : (tau =? -1)%Z = false) by (apply Z.eqb_neq; lia).
    rewrite E. reflexivity.
  - intros tau' Ht. split; [apply T3; assumption|].
    apply Qlt_le_weak.
    replace tau' with (tau - Z.of_nat (Z.to_nat (tau - tau' - 1)) - 1)%Z by lia.
    apply Hbefore. lia.
  - unfold yinThreshold in C1. lra.
Qed.

(** X15.  A periodic window is caught by the threshold search: if the
    window repeats itself after a number of samples that lies in the lag
    range (with its successor), the search breaks at a lag no larger than
    that period -- it never falls back to the global minimum -- and the
    minimum it stores is below the threshold 0.15; a result returned for
    such a window therefore has a clarity above 0.85. *)
Theorem periodic_window_is_clear (M : MathLib) d timeData dateNow period :
  isInitialized d = true ->
  vadRejects (computeRMS timeData) = false ->
  periodic timeData period ->
  (minTauOf d <= Z.of_nat period)%Z ->
  (Z.of_nat period + 1
   <= Z.min (maxTauOf d) (Z.of_nat (List.length timeData) - 1))%Z ->
  (List.length timeData <= List.length (yinBuffer d))%nat ->
  let d' := snd (detectPitch d timeData dateNow) in
  lastYinMin d' < 15 # 100 /\
  (exists tau,
      searchTau (yinBuffer d') (minTauOf d)
                (Z.min (maxTauOf d) (Z.of_nat (List.length timeData) - 1))
      = Some (tau, lastYinMin d') /\
      (minTauOf d <= tau <= Z.of_nat period)%Z) /\
  (forall r, fst (detectPitch d timeData dateNow) = Some r ->
             85 # 100 < PitchDetectionResult.clarity r <= 1).
Proof.
  intros Hinit Hvad Hp Hlo Hhi Hlen. cbv zeta.
  assert (Hmin : Z.max 2 (minTauOf d) = minTauOf d)
    by (unfold minTauOf; lia).
  destruct (searchTau_on_periodic timeData (yinBuffer d) (minTauOf d)
              (Z.min (maxTauOf d) (Z.of_nat (List.length timeData) - 1))
              period Hp ltac:(lia) Hhi ltac:(lia)) as (tau & S1 & S2 & S3).
  cbv zeta in S1, S2, S3.
  unfold detectPitch. rewrite Hinit, Hvad. cbn [negb].
  unfold yinDetectFrequency. rewrite S1.
  set (yin' := overwrite _ (yinBuffer d)) in *.
  set (v := valOf yin' tau) in *.
  set (freq := div (effectiveRate d) _).
  assert (C : 85 # 100 < clamp01 (1 - v) <= 1).
  { split; [|apply DetectorFacts.clamp01_range]. unfold clamp01.
    unfold yinThreshold in S3.
    destruct (Q.max_spec 0 (Qmin 1 (1 - v))) as [[L E]|[L E]];
      destruct (Q.min_spec 1 (1 - v)) as [[L' E']|[L' E']]; lra. }
  destruct (freqRejects freq);
    [|destruct freq as [f| | |]; [destruct (computeRMS timeData) as [r0| | |]|..]];
    cbn [snd fst lastYinMin yinBuffer];
    (split; [unfold yinThreshold in S3; assumption|]);
    (split; [exists tau; split; [assumption | lia]|]);
    intros r Hr; try discriminate Hr.
  injection Hr as <-. cbn [PitchDetectionResult.clarity]. exact C.
Qed.

Lemma squareWave_periodic n : periodic (squareWave n) 100.
Proof.
  intros i a b Ha Hb. unfold squareWave in Ha, Hb.
  set (f := fun i : nat => if (i mod 100 <? 50)%nat then 1 else - (1)) in *.
  rewrite nth_error_map, nth_error_seq in Ha, Hb.
  destruct (i <? n)%nat; [|discriminate].
  destruct (i + 100 <? n)%nat; [|discriminate].
  cbn [option_map] in Ha, Hb.
  assert (Ea : a = f (0 + i)%nat) by congruence.
  assert (Eb : b = f (0 + i + 1 * 100)%nat)
    by (replace (0 + i + 1 * 100)%nat with (0 + (i + 100))%nat by lia;
        congruence).
  rewrite Ea, Eb. unfold f. rewrite Nat.Div0.mod_add. reflexivity.
Qed.

Lemma periodic_window_is_clear_witness :
  let d' := snd (detectPitch detector (squareWave 4096) 5) in
  lastYinMin d' < 15 # 100 /\
  (exists tau,
      searchTau (yinBuffer d') (minTauOf detector)
                (Z.min (maxTauOf detector)
                       (Z.of_nat (List.length (squareWave 4096)) - 1))
      = Some (tau, lastYinMin d') /\
      (minTauOf detector <= tau <= 100)%Z) /\
  (forall r, fst (detectPitch detector (squareWave 4096) 5) = Some r ->
             85 # 100 < PitchDetectionResult.clarity r <= 1).
Proof.
  apply (periodic_window_is_clear ref_math detector (squareWave 4096) 5 100).
  - reflexivity.
  - vm_compute. reflexivity.
  - apply squareWave_periodic.
  - vm_compute. discriminate.
  - unfold squareWave. rewrite length_map, length_seq.
    vm_compute. discriminate.
  - unfold squareWave, detector. cbn [yinBuffer].
    rewrite length_map, length_seq, repeat_length. apply le_n.
Defined.

End BufferFacts.

(** ** Strings *)

Module StrFacts.
Import Str TextSpec.

Lemma chars_app (a b : string) :
  list_ascii_of_string (a ++ b)
  = (list_ascii_of_string a ++ list_ascii_of_string b)%list.
Proof. induction a as [|c a IH]; cbn; [reflexivity|]. rewrite IH. reflexivity. Qed.

Lemma append_length (a b : string) :
  String.length (a ++ b) = (String.length a + String.length b)%nat.
Proof. induction a as [|c a IH]; cbn; [reflexivity|]. rewrite IH. reflexivity. Qed.

Lemma append_assoc (a b c : string) : ((a ++ b) ++ c = a ++ (b ++ c))%string.
Proof. induction a as [|x a IH]; cbn; [reflexivity|]. rewrite IH. reflexivity. Qed.

Lemma append_empty_r (a : string) : (a ++ "")%string = a.
Proof. induction a as [|x a IH]; cbn; [reflexivity|]. rewrite IH. reflexivity. Qed.

Lemma free_app p a b : free p (a ++ b) <-> free p a /\ free p b.
Proof.
  unfold free. rewrite chars_app, forallb_app, andb_true_iff. reflexivity.
Qed.

Lemma free_cons p c s : free p (String c s) <-> p c = false /\ free p s.
Proof.
  unfold free. cbn. rewrite andb_true_iff, negb_true_iff. reflexivity.
Qed.

(** *** [trim] *)

Lemma trimEnd_free s : free isWhiteSpace s -> trimEnd s = s.
Proof.
  induction s as [|c s IH]; [reflexivity|]. intros H.
  apply free_cons in H as [Hc Hs]. cbn [trimEnd]. rewrite (IH Hs).
  destruct s; [rewrite Hc|]; reflexivity.
Qed.

Lemma trimStart_free s : free isWhiteSpace s -> trimStart s = s.
Proof.
  destruct s as [|c s]; [reflexivity|]. intros H.
  apply free_cons in H as [Hc _]. cbn [trimStart]. rewrite Hc. reflexivity.
Qed.

Lemma trim_free s : free isWhiteSpace s -> trim s = s.
Proof.
  intros H. unfold trim. rewrite (trimStart_free s H). apply trimEnd_free, H.
Qed.

Lemma trimEnd_app a b :
  trimEnd (a ++ b)
  = match trimEnd b with
    | EmptyString => trimEnd a
    | kept => (a ++ kept)%string
    end.
Proof.
  induction a as [|c a IH]; cbn [append trimEnd].
  - destruct (trimEnd b); reflexivity.
  - rewrite IH. destruct (trimEnd b); [reflexivity | destruct a; reflexivity].
Qed.

Lemma trimEnd_cons_white c s :
  isWhiteSpace c = true ->
  trimEnd (String c s)
  = match trimEnd s with
    | EmptyString => EmptyString
    | kept => String c kept
    end.
Proof. intros H. cbn [trimEnd]. rewrite H. reflexivity. Qed.

Lemma trimStart_trimEnd s : trimStart (trimEnd s) = trimEnd (trimStart s).
Proof.
  induction s as [|c s IH]; [reflexivity|].
  cbn [trimStart trimEnd]. destruct (isWhiteSpace c) eqn:Hc.
  - rewrite <- IH. destruct (trimEnd s) eqn:E; [reflexivity|].
    cbn [trimStart]. rewrite Hc. reflexivity.
  - destruct (trimEnd s) eqn:E; cbn [trimStart trimEnd]; rewrite Hc, ?E;
      reflexivity.
Qed.

Lemma trimEnd_idempotent s : trimEnd (trimEnd s) = trimEnd s.
Proof.
  induction s as [|c s IH]; [reflexivity|].
  cbn [trimEnd]. destruct (trimEnd s) eqn:E.
  - destruct (isWhiteSpace c) eqn:Hc; cbn [trimEnd]; rewrite ?Hc; reflexivity.
  - cbn [trimEnd]. cbn [trimEnd] in IH. rewrite IH. reflexivity.
Qed.

Lemma trim_trimEnd s : trim (trimEnd s) = trim s.
Proof.
  unfold trim. rewrite trimStart_trimEnd, trimEnd_idempotent. reflexivity.
Qed.

(** *** [split] and [join] *)

Lemma split_nonempty sep s : split sep s <> [].
Proof.
  destruct s as [|c s]; cbn [split]; [discriminate|].
  destruct (Ascii.eqb c sep); [discriminate|].
  destruct (split sep s); discriminate.
Qed.

Lemma split_free sep s : free (Ascii.eqb sep) s -> split sep s = [s].
Proof.
  induction s as [|c s IH]; [reflexivity|]. intros H.
  apply free_cons in H as [Hc Hs]. cbn [split].
  rewrite Ascii.eqb_sym, Hc, (IH Hs). reflexivity.
Qed.

Lemma split_app sep a b :
  free (Ascii.eqb sep) a ->
  split sep (a ++ String sep b) = a :: split sep b.
Proof.
  induction a as [|c a IH]; intros H.
  - cbn [append split]. rewrite Ascii.eqb_refl. reflexivity.
  - apply free_cons in H as [Hc Ha]. cbn [append split].
    rewrite Ascii.eqb_sym, Hc, (IH Ha). reflexivity.
Qed.

Lemma concat_cons sep p ps :
  ps <> [] -> String.concat sep (p :: ps) = (p ++ sep ++ String.concat sep ps)%string.
Proof. destruct ps; [contradiction|reflexivity]. Qed.

Lemma concat_head sep c p ps :
  String.concat sep (String c p :: ps) = String c (String.concat sep (p :: ps)).
Proof. destruct ps; reflexivity. Qed.

Lemma join_split sep s : join sep (split sep s) = s.
Proof.
  unfold join. induction s as [|c s IH]; [reflexivity|].
  cbn [split]. pose proof (split_nonempty sep s) as Hn.
  destruct (Ascii.eqb c sep) eqn:Hc.
  - apply Ascii.eqb_eq in Hc. subst c.
    rewrite (concat_cons _ _ _ Hn), IH. reflexivity.
  - destruct (split sep s) as [|p ps]; [contradiction|].
    rewrite concat_head, IH. reflexivity.
Qed.

(** *** Digits *)

Lemma spanDigits_app digits rest :
  free (fun c => negb (isDigit c)) digits ->
  match rest with String c _ => isDigit c = false | EmptyString => True end ->
  spanDigits (digits ++ rest) = (digits, rest).
Proof.
  induction digits as [|c d IH]; intros Hd Hr.
  - cbn [append]. destruct rest as [|c r]; [reflexivity|].
    cbn [spanDigits]. rewrite Hr. reflexivity.
  - apply free_cons in Hd as [Hc Hd]. apply negb_false_iff in Hc.
    cbn [append spanDigits]. rewrite Hc, (IH Hd Hr). reflexivity.
Qed.

Lemma free_weaken (p q : ascii -> bool) s :
  (forall c, q c = true -> p c = false) ->
  forallb q (list_ascii_of_string s) = true -> free p s.
Proof.
  intros Hpq H. unfold free. rewrite forallb_forall in *.
  intros c Hc. rewrite (Hpq c (H c Hc)). reflexivity.
Qed.

Lemma free_digits_not_white s :
  free (fun c => negb (isDigit c)) s -> free isWhiteSpace s.
Proof.
  intros H. apply (free_weaken _ isDigit).
  - intros [[] [] [] [] [] [] [] []]; cbv; congruence.
  - unfold free in H. rewrite forallb_forall in *. intros c Hc.
    specialize (H c Hc). rewrite negb_involutive in H. exact H.
Qed.

Lemma uint_digits d :
  free (fun c => negb (isDigit c)) (NilEmpty.string_of_uint d).
Proof.
  induction d; cbn [NilEmpty.string_of_uint]; [reflexivity|..];
    apply free_cons; (split; [reflexivity | assumption]).
Qed.

Lemma uint_nonempty d : d <> Decimal.Nil -> NilEmpty.string_of_uint d <> EmptyString.
Proof. destruct d; [contradiction|..]; discriminate. Qed.

Lemma ofInt_nonneg_digits n :
  (0 <= n)%Z -> free (fun c => negb (isDigit c)) (ofInt n) /\ ofInt n <> EmptyString.
Proof.
  intros Hn. unfold ofInt. destruct n as [|p|p]; [split; [reflexivity|discriminate]| |lia].
  cbn [Z.to_int NilZero.string_of_int]. unfold NilZero.string_of_uint.
  pose proof (DecimalPos.Unsigned.to_uint_nonnil p) as Hp.
  destruct (Pos.to_uint p) eqn:E; [contradiction|..];
    rewrite <- E; (split; [apply uint_digits | apply uint_nonempty; congruence]).
Qed.

Lemma ofInt_number_chars n :
  forallb isNumberChar (list_ascii_of_string (ofInt n)) = true.
Proof.
  assert (D : forall d, forallb isNumberChar
                          (list_ascii_of_string (NilZero.string_of_uint d)) = true).
  { intros d. unfold NilZero.string_of_uint.
    assert (H : forallb isNumberChar
                  (list_ascii_of_string (NilEmpty.string_of_uint d)) = true).
    { pose proof (uint_digits d) as F. unfold free in F.
      rewrite forallb_forall in *. intros c Hc. specialize (F c Hc).
      unfold isNumberChar. rewrite negb_involutive in F. rewrite F. reflexivity. }
    destruct d; [reflexivity|..]; exact H. }
  unfold ofInt. destruct (Z.to_int n); cbn [NilZero.string_of_int].
  - apply D.
  - cbn. apply D.
Qed.

Lemma ofInt_nonempty n : ofInt n <> EmptyString.
Proof.
  unfold ofInt. destruct (Z.to_int n) as [d|d]; cbn [NilZero.string_of_int];
    [|discriminate].
  unfold NilZero.string_of_uint. destruct d; discriminate.
Qed.

Lemma ofInt_free_white n : free isWhiteSpace (ofInt n).
Proof.
  apply (free_weaken _ isNumberChar); [|apply ofInt_number_chars].
  intros [[] [] [] [] [] [] [] []]; cbv; congruence.
Qed.

(** *** [parseInt] *)

Ltac digit_value :=
  match goal with
  | |- context [digitValue ?c] =>
      let v := eval vm_compute in (digitValue c) in
      change (digitValue c) with v
  end.

Lemma parseFrom_acc d :
  forall acc : positive,
    parseFrom (Z.pos acc) (NilEmpty.string_of_uint d)
    = Z.pos (Pos.of_uint_acc d acc).
Proof.
  unfold parseFrom.
  induction d; intros acc;
    cbn [NilEmpty.string_of_uint list_ascii_of_string fold_left Pos.of_uint_acc];
    [reflexivity|..];
    match goal with
    | |- fold_left _ _ ?v = _ =>
        match goal with
        | |- _ = Z.pos (Pos.of_uint_acc _ ?a) =>
            replace v with (Z.pos a) by (digit_value; lia)
        end
    end; apply IHd.
Qed.

Lemma parseFrom_uint d :
  parseFrom 0 (NilEmpty.string_of_uint d) = Z.of_N (Pos.of_uint d).
Proof.
  induction d;
    cbn [NilEmpty.string_of_uint Pos.of_uint]; [reflexivity|exact IHd|..];
    unfold parseFrom; cbn [list_ascii_of_string fold_left];
    match goal with
    | |- fold_left _ _ ?v = Z.of_N (N.pos (Pos.of_uint_acc _ ?a)) =>
        replace v with (Z.pos a) by (digit_value; lia)
    end; apply parseFrom_acc.
Qed.

Lemma parseInt_ofInt n : (0 <= n)%Z -> parseInt (ofInt n) = n.
Proof.
  intros Hn. destruct n as [|p|p]; [reflexivity| |lia].
  unfold ofInt. cbn [Z.to_int NilZero.string_of_int]. unfold NilZero.string_of_uint.
  pose proof (DecimalPos.Unsigned.to_uint_nonnil p) as Hp.
  change (parseInt ?s) with (parseFrom 0 s).
  destruct (Pos.to_uint p) eqn:E; [contradiction|..]; rewrite <- E;
    rewrite parseFrom_uint, DecimalPos.Unsigned.of_to; reflexivity.
Qed.

(** *** Padding *)

Lemma padding_length fill n : String.length (padding fill n) = n.
Proof. unfold padding. induction n; cbn; [reflexivity|]. rewrite IHn. reflexivity. Qed.

Lemma padStart_length n fill s :
  String.length (padStart n fill s) = Nat.max n (String.length s).
Proof. unfold padStart. rewrite append_length, padding_length. lia. Qed.

Lemma padStart_long n fill s : (n <= String.length s)%nat -> padStart n fill s = s.
Proof.
  intros H. unfold padStart. replace (n - String.length s)%nat with 0%nat by lia.
  reflexivity.
Qed.

Lemma padEnd_long n fill s : (n <= String.length s)%nat -> padEnd n fill s = s.
Proof.
  intros H. unfold padEnd. replace (n - String.length s)%nat with 0%nat by lia.
  apply append_empty_r.
Qed.

Lemma padStart_free p n fill s :
  p fill = false -> free p s -> free p (padStart n fill s).
Proof.
  intros Hf Hs. unfold padStart. apply free_app. split; [|assumption].
  unfold padding. induction (n - String.length s)%nat as [|k IH]; [reflexivity|].
  cbn [repeat string_of_list_ascii]. apply free_cons. split; assumption.
Qed.

Lemma padStart_nonempty n fill s : s <> EmptyString -> padStart n fill s <> EmptyString.
Proof.
  intros Hs E. apply (f_equal String.length) in E.
  rewrite padStart_length in E. destruct s; [contradiction|]. cbn in E. lia.
Qed.

Lemma parseInt_padStart n s : parseInt (padStart n "0" s) = parseInt s.
Proof.
  unfold padStart, parseInt. rewrite chars_app, fold_left_app.
  f_equal. unfold padding. rewrite list_ascii_of_string_of_list_ascii.
  induction (n - String.length s)%nat as [|k IH]; [reflexivity|].
  cbn [repeat fold_left]. exact IH.
Qed.

(** The width of small numbers. *)
Lemma ofInt_width n :
  (0 <= n < 1000)%Z ->
  (String.length (ofInt n) <= 3)%nat /\
  ((n < 100)%Z -> (String.length (ofInt n) <= 2)%nat).
Proof.
  intros Hn.
  assert (H : forallb (fun k => let l := String.length (ofInt (Z.of_nat k)) in
                               (l <=? 3)%nat
                               && ((100 <=? k)%nat || (l <=? 2)%nat))
                      (seq 0 1000) = true) by (vm_compute; reflexivity).
  rewrite forallb_forall in H. specialize (H (Z.to_nat n)).
  rewrite Z2Nat.id in H by lia. cbv zeta in H.
  assert (I : In (Z.to_nat n) (seq 0 1000)) by (apply in_seq; lia).
  apply H in I. apply andb_true_iff in I as [I1 I2].
  split; [apply Nat.leb_le; assumption|]. intros Hs.
  apply orb_true_iff in I2 as [I2|I2]; [apply Nat.leb_le in I2; lia|].
  apply Nat.leb_le; assumption.
Qed.

End StrFacts.

(** ** Timestamps and pitch names of the text format *)

Module StampFacts.
Import Str SongText TextSpec StrFacts.

Lemma floor_unique (x : Q) (z : Z) :
  inject_Z z <= x -> x < inject_Z (z + 1) -> Qfloor x = z.
Proof.
  intros Hlo Hhi.
  pose proof (Qfloor_le x) as L. pose proof (Qlt_floor x) as U.
  assert (A : (Qfloor x < z + 1)%Z)
    by (rewrite Zlt_Qlt; eapply Qle_lt_trans; eassumption).
  assert (B : (z < Qfloor x + 1)%Z)
    by (rewrite Zlt_Qlt; eapply Qle_lt_trans; eassumption).
  lia.
Qed.

Lemma inject_Z_bounds (z lo hi : Z) :
  (lo <= z <= hi)%Z -> inject_Z lo <= inject_Z z <= inject_Z hi.
Proof. intros [A B]. split; rewrite <- Zle_Qle; assumption. Qed.

(** The three numbers that [formatTime] prints for a time that is not
    negative. *)
Lemma formatTime_numbers (seconds : Q) :
  0 <= seconds ->
  let whole := Qfloor seconds in
  (0 <= whole)%Z /\
  Qfloor (seconds / 60) = (whole / 60)%Z /\
  Qfloor (remainder seconds 60) = (whole mod 60)%Z /\
  (0 <= millisOf seconds <= 1000)%Z /\
  inject_Z (millisOf seconds) <= (seconds - inject_Z whole) * 1000 + (1 # 2)
  /\ (seconds - inject_Z whole) * 1000 + (1 # 2) < inject_Z (millisOf seconds) + 1.
Proof.
  intros Hs. cbv zeta.
  pose proof (Qfloor_le seconds) as L. pose proof (Qlt_floor seconds) as U.
  rewrite inject_Z_plus in U. change (inject_Z 1) with 1 in U.
  assert (Hw : (0 <= Qfloor seconds)%Z).
  { change 0%Z with (Qfloor 0). apply Qfloor_resp_le. assumption. }
  pose proof (Z.div_mod (Qfloor seconds) 60 ltac:(lia)) as D.
  pose proof (Z.mod_pos_bound (Qfloor seconds) 60 ltac:(lia)) as B.
  pose proof (Z.div_pos (Qfloor seconds) 60 Hw ltac:(lia)) as Hq.
  set (a := (Qfloor seconds / 60)%Z) in *.
  set (b := (Qfloor seconds mod 60)%Z) in *.
  assert (E : inject_Z (Qfloor seconds) == 60 * inject_Z a + inject_Z b).
  { rewrite D, inject_Z_plus, inject_Z_mult. reflexivity. }
  pose proof (inject_Z_bounds b 0 59 ltac:(lia)) as Bq.
  pose proof (inject_Z_bounds a 0 a ltac:(lia)) as Aq.
  change (inject_Z 0) with 0 in *. change (inject_Z 59) with 59 in *.
  assert (Ha : Qfloor (seconds / 60) = a).
  { apply floor_unique; rewrite ?inject_Z_plus; change (inject_Z 1) with 1;
      unfold Qdiv; change (/ 60) with (1 # 60); lra. }
  split; [assumption|]. split; [assumption|]. split.
  - unfold remainder, trunc.
    assert (P : Qle_bool 0 (seconds / 60) = true).
    { apply Qle_bool_iff. unfold Qdiv. change (/ 60) with (1 # 60). lra. }
    rewrite P, Ha. apply floor_unique; rewrite ?inject_Z_plus;
      change (inject_Z 1) with 1; lra.
  - unfold millisOf, JS.round.
    set (x := (seconds - inject_Z (Qfloor seconds)) * 1000 + (1 # 2)).
    pose proof (Qfloor_le x) as Lx. pose proof (Qlt_floor x) as Ux.
    rewrite inject_Z_plus in Ux. change (inject_Z 1) with 1 in Ux.
    assert (X : 1 # 2 <= x < 1000 + (1 # 2)) by (unfold x; lra).
    split; [|split; assumption].
    split.
    + change 0%Z with (Qfloor 0). apply Qfloor_resp_le. lra.
    + change 1000%Z with (Qfloor (1000 + (1 # 2))). apply Qfloor_resp_le. lra.
Qed.

Lemma stampValue_formatted (mm ss mmm : string) :
  free (fun c => negb (isDigit c)) mm -> mm <> EmptyString ->
  free (fun c => negb (isDigit c)) ss -> String.length ss = 2%nat ->
  free (fun c => negb (isDigit c)) mmm ->
  (String.length mmm = 3%nat ->
   stampValue (mm ++ ":" ++ ss ++ ":" ++ mmm)
   = Some (inject_Z (parseInt mm) * 60 + inject_Z (parseInt ss)
           + inject_Z (parseInt mmm) / 1000)) /\
  (String.length mmm = 4%nat ->
   stampValue (mm ++ ":" ++ ss ++ ":" ++ mmm) = None).
Proof.
  intros Dm Nm Ds Ls Dx.
  assert (Lm : (String.length mm =? 0)%nat = false).
  { destruct mm; [contradiction|reflexivity]. }
  assert (S1 : spanDigits (mm ++ ":" ++ ss ++ ":" ++ mmm)
               = (mm, String ":" (ss ++ ":" ++ mmm))%string)
    by (apply spanDigits_app; [assumption|reflexivity]).
  assert (S2 : spanDigits (ss ++ ":" ++ mmm) = (ss, String ":" mmm))
    by (apply spanDigits_app; [assumption|reflexivity]).
  assert (S3 : spanDigits mmm = (mmm, EmptyString)).
  { rewrite <- (append_empty_r mmm) at 1. apply spanDigits_app; [assumption|exact I]. }
  split; intros Lx.
  - unfold stampValue, matchMinSec. rewrite S1, Lm.
    cbn [Ascii.eqb Bool.eqb]. rewrite S2, Ls.
    cbn [Nat.leb andb option_map matchFraction]. cbn [Ascii.eqb Bool.eqb orb].
    rewrite S3, Lx. cbn [Nat.leb andb String.eqb option_map millis].
    rewrite (padEnd_long 3 "0" mmm) by lia. reflexivity.
  - unfold stampValue, matchMinSec, matchSec. rewrite S1, Lm.
    cbn [Ascii.eqb Bool.eqb]. rewrite S2, Ls.
    cbn [Nat.leb andb option_map matchFraction]. cbn [Ascii.eqb Bool.eqb orb].
    rewrite S3, Lx, S2, Ls. cbn [Nat.leb andb String.eqb option_map].
    reflexivity.
Qed.

Lemma padded_number n z :
  (0 <= z)%Z ->
  let s := padStart n "0" (ofInt z) in
  free (fun c => negb (isDigit c)) s /\ s <> EmptyString /\ parseInt s = z.
Proof.
  intros Hz. cbv zeta. destruct (ofInt_nonneg_digits z Hz) as [D N].
  split; [apply padStart_free; [reflexivity|assumption]|].
  split; [apply padStart_nonempty; assumption|].
  rewrite parseInt_padStart. apply parseInt_ofInt. assumption.
Qed.

(** What [formatTime] prints for a time that is not negative. *)
Lemma formatTime_shape (seconds : Q) :
  0 <= seconds ->
  exists mm ss mmm,
    formatTime seconds = (mm ++ ":" ++ ss ++ ":" ++ mmm)%string /\
    free (fun c => negb (isDigit c)) mm /\ mm <> EmptyString /\
    parseInt mm = (Qfloor seconds / 60)%Z /\
    free (fun c => negb (isDigit c)) ss /\ String.length ss = 2%nat /\
    parseInt ss = (Qfloor seconds mod 60)%Z /\
    free (fun c => negb (isDigit c)) mmm /\
    parseInt mmm = millisOf seconds /\
    ((millisOf seconds < 1000)%Z -> String.length mmm = 3%nat) /\
    ((millisOf seconds = 1000)%Z -> String.length mmm = 4%nat).
Proof.
  intros Hs.
  destruct (formatTime_numbers seconds Hs) as (Hw & Ha & Hb & Hm & _).
  cbv zeta in Ha, Hb.
  pose proof (Z.mod_pos_bound (Qfloor seconds) 60 ltac:(lia)) as B.
  pose proof (Z.div_pos (Qfloor seconds) 60 Hw ltac:(lia)) as Hq.
  destruct (padded_number 2 (Qfloor seconds / 60) Hq) as (M1 & M2 & M3).
  destruct (padded_number 2 (Qfloor seconds mod 60) ltac:(lia)) as (S1 & _ & S3).
  destruct (padded_number 3 (millisOf seconds) ltac:(lia)) as (X1 & _ & X3).
  exists (padStart 2 "0" (ofInt (Qfloor seconds / 60))),
         (padStart 2 "0" (ofInt (Qfloor seconds mod 60))),
         (padStart 3 "0" (ofInt (millisOf seconds))).
  split; [unfold formatTime; rewrite Ha, Hb; reflexivity|].
  repeat (split; [assumption|]).
  split; [|split; [assumption|split; [assumption|split; [assumption|split]]]].
  - rewrite padStart_length.
    destruct (ofInt_width (Qfloor seconds mod 60) ltac:(lia)) as [_ W].
    specialize (W ltac:(lia)). lia.
  - intros Hlt. rewrite padStart_length.
    destruct (ofInt_width (millisOf seconds) ltac:(lia)) as [W _]. lia.
  - intros E. rewrite E. reflexivity.
Qed.

Lemma formatTime_free_white (seconds : Q) : free isWhiteSpace (formatTime seconds).
Proof.
  assert (P : forall n z, free isWhiteSpace (padStart n "0" (ofInt z)))
    by (intros n z; apply padStart_free; [reflexivity | apply ofInt_free_white]).
  unfold formatTime. cbv zeta.
  apply free_app. split; [apply P|]. cbn [append].
  apply free_cons. split; [reflexivity|].
  apply free_app. split; [apply P|]. cbn [append].
  apply free_cons. split; [reflexivity|]. apply P.
Qed.

(** How the import reads a stamp that the export printed. *)
Lemma formatTime_read_back (seconds : Q) :
  0 <= seconds ->
  let stamp := formatTime seconds in
  ((millisOf seconds < 1000)%Z ->
   exists r,
     toSeconds (Some stamp) = Returns r /\ parseTS stamp = Some r /\
     r == inject_Z (Qfloor seconds) + inject_Z (millisOf seconds) / 1000 /\
     Qabs (r - seconds) <= 1 # 2000) /\
  ((millisOf seconds < 1000)%Z <-> fraction seconds < 9995 # 10000) /\
  (~ (millisOf seconds < 1000)%Z ->
   toSeconds (Some stamp) = Throws (BadTimestamp stamp) /\ parseTS stamp = None).
Proof.
  intros Hs. cbv zeta. unfold fraction.
  destruct (formatTime_numbers seconds Hs) as (Hw & _ & _ & Hm & Lo & Hi).
  cbv zeta in Lo, Hi.
  destruct (formatTime_shape seconds Hs)
    as (mm & ss & mmm & E & M1 & M2 & M3 & S1 & S2 & S3 & X1 & X3 & X4 & X5).
  destruct (stampValue_formatted mm ss mmm M1 M2 S1 S2 X1) as [V3 V4].
  pose proof (trim_free _ (formatTime_free_white seconds)) as T.
  pose proof (Qfloor_le seconds) as L. pose proof (Qlt_floor seconds) as U.
  rewrite inject_Z_plus in U. change (inject_Z 1) with 1 in U.
  split; [|split].
  - intros Hlt. specialize (V3 (X4 Hlt)). rewrite <- E in V3.
    eexists. unfold toSeconds, parseTS. rewrite T, V3.
    split; [reflexivity|]. split; [reflexivity|].
    rewrite M3, S3, X3.
    assert (R : inject_Z (Qfloor seconds / 60) * 60
                + inject_Z (Qfloor seconds mod 60)
                + inject_Z (millisOf seconds) / 1000
                == inject_Z (Qfloor seconds) + inject_Z (millisOf seconds) / 1000).
    { rewrite (Z.div_mod (Qfloor seconds) 60) at 3 by lia.
      rewrite inject_Z_plus, inject_Z_mult. change (inject_Z 60) with 60. ring. }
    split; [exact R|].
    rewrite R. apply Qabs_Qle_condition.
    unfold Qdiv. change (/ 1000) with (1 # 1000). lra.
  - split.
    + intros Hlt.
      assert (A : inject_Z (millisOf seconds) <= 999).
      { change 999 with (inject_Z 999). rewrite <- Zle_Qle. lia. }
      lra.
    + intros Hf. rewrite Zlt_Qlt. change (inject_Z 1000) with 1000. lra.
  - intros Hge. assert (E1000 : millisOf seconds = 1000%Z) by lia.
    specialize (V4 (X5 E1000)). rewrite <- E in V4.
    unfold toSeconds, parseTS. rewrite T, V4. split; reflexivity.
Qed.

(** The same on both sides of the fraction at which the milliseconds
    round up to 1000. *)
Lemma stamp_read_back (seconds : Q) :
  0 <= seconds ->
  let stamp := formatTime seconds in
  (fraction seconds <= 999 # 1000 ->
   exists r,
     toSeconds (Some stamp) = Returns r /\ parseTS stamp = Some r /\
     Qabs (r - seconds) <= 1 # 2000) /\
  (9996 # 10000 <= fraction seconds ->
   toSeconds (Some stamp) = Throws (BadTimestamp stamp) /\ parseTS stamp = None).
Proof.
  intros Hs. cbv zeta.
  destruct (formatTime_read_back seconds Hs) as (R & I & T). cbv zeta in R, I, T.
  split.
  - intros Hf. destruct (R (proj2 I ltac:(lra))) as (r & A & B & _ & C).
    exists r. repeat split; assumption.
  - intros Hf. apply T. intros Hlt. apply (proj1 I) in Hlt. lra.
Qed.

(** X17.  Timestamps survive the export and the import to the
    millisecond, unless the fraction rounds up to a whole second: for a
    time between 0 and [10^9] seconds with at most 0.999 after the whole
    seconds, the import reads the stamp that the export prints, and what
    it reads is less than a millisecond from the time; but with 0.9996 or
    more after the whole seconds the export prints four digits of
    milliseconds, which no pattern of the import accepts.  (In between
    lies 0.9995, where the rounded product decides.) *)
Theorem timestamp_round_trip (seconds : Q) :
  0 <= seconds <= 1000000000 ->
  let stamp := formatTime seconds in
  (fraction seconds <= 999 # 1000 ->
   exists r,
     toSeconds (Some stamp) = Returns r /\ parseTS stamp = Some r /\
     Qabs (r - seconds) <= 1 # 1000) /\
  (9996 # 10000 <= fraction seconds ->
   toSeconds (Some stamp) = Throws (BadTimestamp stamp) /\ parseTS stamp = None).
Proof.
  intros [Hs _]. cbv zeta.
  destruct (stamp_read_back seconds Hs) as [R T]. cbv zeta in R, T.
  split; [|exact T].
  intros Hf. destruct (R Hf) as (r & A & B & C).
  exists r. split; [assumption|]. split; [assumption|].
  eapply Qle_trans; [exact C|]. discriminate.
Qed.

Lemma timestamp_round_trip_witness :
  (exists r,
     toSeconds (Some (formatTime (45 # 10000))) = Returns r /\
     parseTS (formatTime (45 # 10000)) = Some r /\
     Qabs (r - (45 # 10000)) <= 1 # 1000) /\
  (exists r,
     toSeconds (Some (formatTime (61250 # 1000))) = Returns r /\
     parseTS (formatTime (61250 # 1000)) = Some r /\
     Qabs (r - (61250 # 1000)) <= 1 # 1000) /\
  toSeconds (Some (formatTime (19996 # 10000)))
  = Throws (BadTimestamp (formatTime (19996 # 10000))).
Proof.
  split; [|split].
  - apply (timestamp_round_trip (45 # 10000)).
    + split; vm_compute; discriminate.
    + vm_compute. discriminate.
  - apply (timestamp_round_trip (61250 # 1000)).
    + split; vm_compute; discriminate.
    + vm_compute. discriminate.
  - apply (timestamp_round_trip (19996 # 10000)).
    + split; vm_compute; discriminate.
    + vm_compute. discriminate.
Defined.

(** *** Pitch names *)

Lemma digit_value_range c : isDigit c = true -> (0 <= digitValue c <= 9)%Z.
Proof.
  unfold isDigit, digitValue. cbv zeta. intros H.
  apply andb_true_iff in H as [A B].
  apply Nat.leb_le in A. apply Nat.leb_le in B. lia.
Qed.

Lemma digit_not_accidental c : isDigit c = true -> isAccidental c = false.
Proof. destruct c as [[] [] [] [] [] [] [] []]; cbv; congruence. Qed.

Lemma digit_not_letter c : isDigit c = true -> isNoteLetter c = false.
Proof. destruct c as [[] [] [] [] [] [] [] []]; cbv; congruence. Qed.

(** A number of two digits or more is printed with two characters or
    more. *)
Lemma ofInt_two_digits n :
  (10 <= n)%Z ->
  exists d1 d2 rest,
    ofInt n = String d1 (String d2 rest) /\ isDigit d1 = true /\
    free isWhiteSpace (ofInt n).
Proof.
  intros Hn. destruct (ofInt_nonneg_digits n ltac:(lia)) as [D N].
  pose proof (parseInt_ofInt n ltac:(lia)) as P.
  pose proof (ofInt_free_white n) as W.
  destruct (ofInt n) as [|d1 [|d2 rest]]; [contradiction| |].
  - apply free_cons in D as [D _]. apply negb_false_iff in D.
    pose proof (digit_value_range d1 D). cbv [parseInt list_ascii_of_string fold_left] in P.
    lia.
  - apply free_cons in D as [D _]. apply negb_false_iff in D.
    exists d1, d2, rest. repeat split; assumption.
Qed.

Lemma ofInt_negative n :
  (n < 0)%Z -> exists rest, ofInt n = String "-" rest.
Proof.
  intros Hn. destruct n as [|p|p]; [lia|lia|].
  unfold ofInt. cbn [Z.to_int NilZero.string_of_int]. eexists. reflexivity.
Qed.

(** How the import reads a pitch name that the export printed. *)
Lemma noteName_read_back (m : Z) :
  toMidi (Music.getMidiNoteName m)
  = if ((12 <=? m) && (m <=? 131))%Z
    then Returns (mkPitch (Some m) (Music.getMidiNoteNameOnly m))
    else Throws (BadPitch (Music.getMidiNoteName m)).
Proof.
  destruct (Z_lt_le_dec m 0) as [Hneg|Hpos];
    [|destruct (Z_lt_le_dec m 132) as [Hsmall|Hbig]].
  - (* a negative number: the octave is printed with a minus sign *)
    assert (E : ((12 <=? m) && (m <=? 131))%Z = false)
      by (apply andb_false_iff; left; apply Z.leb_gt; lia).
    rewrite E. unfold Music.getMidiNoteName. cbv zeta.
    destruct (ofInt_negative (m / 12 - 1)) as [rest Er].
    { pose proof (Z.div_lt_upper_bound m 12 0 ltac:(lia) ltac:(lia)). lia. }
    pose proof (ofInt_free_white (m / 12 - 1)) as W.
    unfold ofInt in Er, W. rewrite Er in *.
    assert (N : Music.noteNameAt (JS.rem m 12) = None
                \/ Music.noteNameAt (JS.rem m 12) = Some "C"%string).
    { unfold Music.noteNameAt, JS.rem.
      pose proof (Z.rem_nonpos m 12 ltac:(lia) ltac:(lia)) as B.
      destruct (Z.eq_dec (Z.rem m 12) 0) as [E0|Hne]; [rewrite E0; right; reflexivity|].
      left. assert (L : (Z.rem m 12 <? 0)%Z = true) by (apply Z.ltb_lt; lia).
      rewrite L. reflexivity. }
    unfold toMidi.
    destruct N as [N|N]; rewrite N; cbn [append].
    + rewrite trim_free
        by (repeat (apply free_cons; split; [reflexivity|]); exact W).
      reflexivity.
    + rewrite trim_free
        by (repeat (apply free_cons; split; [reflexivity|]); exact W).
      destruct rest as [|c1 [|c2 r]]; reflexivity.
  - (* 0 to 131: by evaluation *)
    assert (F : Forall (fun m =>
                          toMidi (Music.getMidiNoteName m)
                          = if ((12 <=? m) && (m <=? 131))%Z
                            then Returns (mkPitch (Some m) (Music.getMidiNoteNameOnly m))
                            else Throws (BadPitch (Music.getMidiNoteName m)))
                       (List.map Z.of_nat (seq 0 132))).
    { cbn [seq List.map]. repeat (apply Forall_cons; [reflexivity|]). apply Forall_nil. }
    rewrite Forall_forall in F. apply F.
    rewrite <- (Z2Nat.id m) by assumption. apply in_map, in_seq. lia.
  - (* 132 and more: the octave has two digits *)
    assert (E : ((12 <=? m) && (m <=? 131))%Z = false)
      by (apply andb_false_iff; right; apply Z.leb_gt; lia).
    rewrite E. unfold Music.getMidiNoteName. cbv zeta.
    destruct (ofInt_two_digits (m / 12 - 1)) as (d1 & d2 & rest & Er & D1 & W).
    { pose proof (Z.div_le_lower_bound m 12 11 ltac:(lia) ltac:(lia)). lia. }
    unfold ofInt in Er, W. rewrite Er in *.
    pose proof (digit_not_accidental d1 D1) as A1.
    destruct (PitchClassFacts.rem12_cases m ltac:(lia)) as [_ C]. cbv zeta in C.
    unfold toMidi.
    destruct C as [C|[C|[C|[C|[C|[C|[C|[C|[C|[C|[C|C]]]]]]]]]]]; rewrite C;
      match goal with
      | |- context [Music.noteNameAt ?k] =>
          let v := eval vm_compute in (Music.noteNameAt k) in
          change (Music.noteNameAt k) with v
      end;
      cbn [append];
      (rewrite trim_free
        by (repeat (apply free_cons; split; [reflexivity|]); exact W));
      cbn [allDigits String.eqb Ascii.eqb Bool.eqb negb andb
           list_ascii_of_string forallb isDigit];
      try reflexivity;
      cbn [matchPitch]; rewrite ?A1, ?andb_false_r;
      destruct rest; try reflexivity.
Qed.

(** X18.  Pitch names survive the export and the import exactly for the
    MIDI numbers 12 to 131, the octaves 0 to 9: for these the import reads
    the name that the export prints back to the number, with the sharp
    spelling of the table as the name.  For every other number the printed
    name has an octave that is negative or has two digits, and the import
    throws. *)
Theorem pitch_name_round_trip (m : Z) :
  toMidi (Music.getMidiNoteName m)
  = if ((12 <=? m) && (m <=? 131))%Z
    then Returns (mkPitch (Some m) (Music.getMidiNoteNameOnly m))
    else Throws (BadPitch (Music.getMidiNoteName m)).
Proof. exact (noteName_read_back m). Qed.

Lemma letter_cases c :
  isNoteLetter c = true ->
  In c ["A"; "B"; "C"; "D"; "E"; "F"; "G"]%char.
Proof.
  destruct c as [[] [] [] [] [] [] [] []]; cbv; intros H;
    try discriminate H; tauto.
Qed.

Lemma accidental_cases c :
  isAccidental c = true -> In c ["#"; "b"]%char.
Proof.
  destruct c as [[] [] [] [] [] [] [] []]; cbv; intros H;
    try discriminate H; tauto.
Qed.

Lemma digit_cases c :
  isDigit c = true ->
  In c ["0"; "1"; "2"; "3"; "4"; "5"; "6"; "7"; "8"; "9"]%char.
Proof.
  destruct c as [[] [] [] [] [] [] [] []]; cbv; intros H;
    try discriminate H; tauto.
Qed.

Ltac each_case H := cbn [In] in H; repeat destruct H as [<-|H]; try contradiction.

Ltac pitch_case :=
  vm_compute;
  first [ split; [split; discriminate | discriminate]
        | left; reflexivity
        | right; left; reflexivity
        | right; right; left; reflexivity
        | right; right; right; left; reflexivity ].

(** X23.  The pitches that the import reads from a name: a letter A to
    G, an optional sharp or flat, one digit.  The number lies between 12
    and 131 and the spelling, flat or sharp, is kept as the name -- except
    for the four spellings that are not in the table, Cb, E#, Fb and B#:
    for these the import does not throw, it returns NaN as the pitch. *)
Theorem named_pitches (pitchStr : string) (p : Pitch) :
  toMidi pitchStr = Returns p -> allDigits (trim pitchStr) = false ->
  exists spelling,
    name p = Some spelling /\
    match midi p with
    | Some m => (12 <= m <= 131)%Z /\ lookup spelling noteMap <> None
    | None => In spelling ["Cb"; "E#"; "Fb"; "B#"]%string
    end.
Proof.
  unfold toMidi. cbv zeta. intros H Hd. rewrite Hd in H.
  destruct (matchPitch (trim pitchStr)) as [[[letter accidental] octaveStr]|] eqn:E;
    [|discriminate H].
  injection H as <-. cbn [name midi].
  exists (letter ++ accidental)%string. split; [reflexivity|].
  unfold matchPitch in E.
  destruct (trim pitchStr) as [|l [|c2 [|c3 [|c4 r]]]]; try discriminate E.
  - destruct (isNoteLetter l) eqn:Hl; [|discriminate E].
    destruct (isDigit c2) eqn:H2; [|discriminate E].
    cbn [andb] in E. injection E as <- <- <-.
    apply letter_cases in Hl. apply digit_cases in H2.
    each_case Hl; each_case H2; pitch_case.
  - destruct (isNoteLetter l) eqn:Hl; [|discriminate E].
    destruct (isAccidental c2) eqn:H2; [|discriminate E].
    destruct (isDigit c3) eqn:H3; [|discriminate E].
    cbn [andb] in E. injection E as <- <- <-.
    apply letter_cases in Hl. apply accidental_cases in H2. apply digit_cases in H3.
    each_case Hl; each_case H2; each_case H3; pitch_case.
Qed.

Lemma named_pitches_witness :
  exists spelling,
    name (mkPitch None (Some "B#"%string)) = Some spelling /\
    match midi (mkPitch None (Some "B#"%string)) with
    | Some m => (12 <= m <= 131)%Z /\ lookup spelling noteMap <> None
    | None => In spelling ["Cb"; "E#"; "Fb"; "B#"]%string
    end.
Proof.
  apply (named_pitches "B#4" (mkPitch None (Some "B#"%string))); reflexivity.
Defined.

End StampFacts.

(** ** The lines of the text format *)

Module LineFacts.
Import Str SongText TextSpec StrFacts StampFacts.

Lemma trimEnd_empty s :
  trimEnd s = EmptyString
  <-> forallb isWhiteSpace (list_ascii_of_string s) = true.
Proof.
  induction s as [|c s IH]; [split; reflexivity|].
  cbn [trimEnd list_ascii_of_string forallb]. rewrite andb_true_iff, <- IH.
  destruct (trimEnd s); destruct (isWhiteSpace c); split;
    try discriminate; try reflexivity; try tauto.
  - intros [H _]. discriminate.
  - intros [_ H]. discriminate.
  - intros [H _]. discriminate.
Qed.

Lemma trimStart_empty s :
  trimStart s = EmptyString
  <-> forallb isWhiteSpace (list_ascii_of_string s) = true.
Proof.
  induction s as [|c s IH]; [split; reflexivity|].
  cbn [trimStart list_ascii_of_string forallb]. rewrite andb_true_iff, <- IH.
  destruct (isWhiteSpace c); split; try discriminate; try tauto.
  intros [H _]. discriminate.
Qed.

Lemma trim_empty s : trim s = EmptyString <-> trimEnd s = EmptyString.
Proof.
  unfold trim. rewrite <- trimStart_trimEnd, trimStart_empty, <- trimEnd_empty.
  rewrite trimEnd_idempotent. reflexivity.
Qed.

Lemma free_white_tab s : free isWhiteSpace s -> free (Ascii.eqb tab) s.
Proof.
  unfold free. rewrite !forallb_forall. intros H c Hc. specialize (H c Hc).
  destruct (Ascii.eqb_spec tab c) as [<-|]; [discriminate H|reflexivity].
Qed.

Lemma noteName_free (m : Z) :
  free isWhiteSpace (Music.getMidiNoteName m)
  /\ Music.getMidiNoteName m <> EmptyString.
Proof.
  unfold Music.getMidiNoteName. cbv zeta.
  fold (ofInt (m / 12 - 1)).
  assert (N : match Music.noteNameAt (JS.rem m 12) with
              | Some n => free isWhiteSpace n /\ n <> EmptyString
              | None => True
              end).
  { unfold Music.noteNameAt. destruct (JS.rem m 12 <? 0)%Z; [exact I|].
    destruct (nth_error Music.noteNames (Z.to_nat (JS.rem m 12))) as [n|] eqn:E;
      [|exact I].
    apply nth_error_In in E.
    assert (F : Forall (fun n => free isWhiteSpace n /\ n <> EmptyString)
                       Music.noteNames)
      by (repeat (constructor; [split; [reflexivity|discriminate]|]); constructor).
    rewrite Forall_forall in F. apply F, E. }
  pose proof (ofInt_free_white (m / 12 - 1)) as W.
  destruct (Music.noteNameAt (JS.rem m 12)) as [n|].
  - destruct N as [N1 N2]. split; [apply free_app; split; assumption|].
    destruct n; [contradiction|discriminate].
  - split; [apply free_app; split; [reflexivity|assumption]|discriminate].
Qed.

(** The range of a line: free of white space, not empty. *)
Lemma range_free (a b : Q) :
  free isWhiteSpace (formatTime a ++ "-" ++ formatTime b)
  /\ (formatTime a ++ "-" ++ formatTime b)%string <> EmptyString.
Proof.
  split.
  - apply free_app. split; [apply formatTime_free_white|]. cbn [append].
    apply free_cons. split; [reflexivity|apply formatTime_free_white].
  - intros E. apply (f_equal String.length) in E. rewrite append_length in E.
    cbn in E. lia.
Qed.

(** The line of a note, with the white space at the end of the lyric
    removed, and without the lyric when it is blank. *)
Lemma exportLine_shape (note : Note.t) :
  let range := (formatTime (Note.time note) ++ "-"
                ++ formatTime (Note.time note + Note.duration note))%string in
  let pitchName := Music.getMidiNoteName (Note.pitch note) in
  let lyric := match Note.lyric note with Some l => l | None => EmptyString end in
  exportLine note
  = match trimEnd lyric with
    | EmptyString => (range ++ String tab pitchName)%string
    | kept => (range ++ String tab (pitchName ++ String tab kept))%string
    end.
Proof.
  cbv zeta. unfold exportLine. cbv zeta.
  set (lyric := match Note.lyric note with Some l => l | None => EmptyString end).
  destruct (range_free (Note.time note) (Note.time note + Note.duration note))
    as [R1 R2].
  destruct (noteName_free (Note.pitch note)) as [P1 P2].
  set (S := formatTime (Note.time note)) in *.
  set (E := formatTime (Note.time note + Note.duration note)) in *.
  set (P := Music.getMidiNoteName (Note.pitch note)) in *.
  replace (S ++ "-" ++ E ++ String tab P ++ String tab lyric)%string
    with ((S ++ "-" ++ E) ++ String tab (P ++ String tab lyric))%string
    by (rewrite !append_assoc; reflexivity).
  set (R := (S ++ "-" ++ E)%string) in *.
  unfold trim.
  assert (T : trimStart (R ++ String tab (P ++ String tab lyric))
              = (R ++ String tab (P ++ String tab lyric))%string).
  { destruct R as [|c R]; [contradiction|].
    apply free_cons in R1 as [Hc _]. cbn [append trimStart]. rewrite Hc.
    reflexivity. }
  rewrite T, trimEnd_app, (trimEnd_cons_white tab) by reflexivity.
  rewrite trimEnd_app, (trimEnd_cons_white tab) by reflexivity.
  rewrite (trimEnd_free P P1).
  destruct (trimEnd lyric) as [|c kept].
  - destruct P as [|c P]; [contradiction|]. reflexivity.
  - destruct P as [|c' P]; reflexivity.
Qed.

(** A line with a blank lyric has two columns and is skipped. *)
Lemma line_skipped {M : MathLib} (note : Note.t) (idx : nat) :
  trim (lyricOf note) = EmptyString ->
  List.length (split tab (exportLine note)) = 2%nat /\
  parseLine idx (exportLine note) = Returns None.
Proof.
  unfold lyricOf.
  intros Hb. apply (proj1 (trim_empty _)) in Hb.
  pose proof (exportLine_shape note) as E. cbv zeta in E. rewrite Hb in E.
  destruct (range_free (Note.time note) (Note.time note + Note.duration note))
    as [R1 _].
  destruct (noteName_free (Note.pitch note)) as [P1 _].
  assert (C : split tab (exportLine note)
              = [(formatTime (Note.time note) ++ "-"
                  ++ formatTime (Note.time note + Note.duration note))%string;
                 Music.getMidiNoteName (Note.pitch note)]).
  { rewrite E, split_app by (apply free_white_tab; assumption).
    rewrite split_free by (apply free_white_tab; assumption). reflexivity. }
  split; [rewrite C; reflexivity|].
  unfold parseLine. rewrite C. reflexivity.
Qed.

(** X19.  A note without a lyric is lost on the way through the text
    format: for every note whose lyric is missing, empty or blank, the
    export trims the line to two columns, and the import skips a line with
    fewer than three columns. *)
Theorem note_without_lyric_is_skipped (M : MathLib) (note : Note.t) (idx : nat) :
  trim (match Note.lyric note with Some l => l | None => EmptyString end)
  = EmptyString ->
  List.length (split tab (exportLine note)) = 2%nat /\
  parseLine idx (exportLine note) = Returns None.
Proof. exact (line_skipped note idx). Qed.

Lemma note_without_lyric_is_skipped_witness :
  List.length (split tab (exportLine Examples.noteA)) = 2%nat /\
  parseLine (M := ref_math) 1 (exportLine Examples.noteA) = Returns None.
Proof.
  apply (note_without_lyric_is_skipped ref_math Examples.noteA 1). reflexivity.
Defined.

(** A stamp has no dash inside. *)
Lemma formatTime_free_dash (seconds : Q) :
  0 <= seconds -> free (Ascii.eqb "-") (formatTime seconds).
Proof.
  intros Hs.
  destruct (formatTime_shape seconds Hs)
    as (mm & ss & mmm & E & M1 & _ & _ & S1 & _ & _ & X1 & _).
  assert (D : forall s, free (fun c => negb (isDigit c)) s
                        -> free (Ascii.eqb "-") s).
  { intros s H. apply (free_weaken _ isDigit).
    - intros [[] [] [] [] [] [] [] []]; cbv; congruence.
    - unfold free in H. rewrite forallb_forall in *. intros c Hc.
      specialize (H c Hc). rewrite negb_involutive in H. exact H. }
  rewrite E. apply free_app. split; [apply D, M1|]. cbn [append].
  apply free_cons. split; [reflexivity|].
  apply free_app. split; [apply D, S1|]. cbn [append].
  apply free_cons. split; [reflexivity|]. apply D, X1.
Qed.

(** A line with a lyric that is not blank is read back. *)
Lemma line_read_back {M : MathLib} (note : Note.t) (idx : nat) :
  trim (lyricOf note) <> EmptyString ->
  stampable (Note.time note) ->
  stampable (Note.time note + Note.duration note) ->
  (12 <= Note.pitch note <= 131)%Z ->
  exists imported end_,
    parseLine idx (exportLine note) = Returns (Some (imported, end_)) /\
    readAs (S idx) note imported /\
    Qabs (end_ - (Note.time note + Note.duration note)) <= 1 # 1000 /\
    time imported + noteDuration imported == end_.
Proof.
  intros Hb [[Ht _] Ft] [[He _] Fe] Hp.
  pose proof (exportLine_shape note) as E. cbv zeta in E.
  fold (lyricOf note) in E.
  set (l := lyricOf note) in *.
  assert (Hk : trimEnd l <> EmptyString)
    by (intros K; apply Hb, trim_empty, K).
  destruct (range_free (Note.time note) (Note.time note + Note.duration note))
    as [R1 _].
  destruct (noteName_free (Note.pitch note)) as [P1 _].
  pose proof (formatTime_free_dash _ Ht) as D1.
  pose proof (formatTime_free_dash _ He) as D2.
  destruct (proj1 (stamp_read_back _ Ht) Ft) as (r1 & T1 & _ & Q1).
  destruct (proj1 (stamp_read_back _ He) Fe) as (r2 & T2 & _ & Q2).
  pose proof (noteName_read_back (Note.pitch note)) as Pm.
  assert (Hr : ((12 <=? Note.pitch note) && (Note.pitch note <=? 131))%Z = true)
    by (apply andb_true_iff; split; apply Z.leb_le; lia).
  rewrite Hr in Pm.
  set (S := formatTime (Note.time note)) in *.
  set (F := formatTime (Note.time note + Note.duration note)) in *.
  set (P := Music.getMidiNoteName (Note.pitch note)) in *.
  assert (C : split tab (exportLine note)
              = (S ++ "-" ++ F)%string :: P :: split tab (trimEnd l)).
  { rewrite E. destruct (trimEnd l) as [|c kept] eqn:K; [contradiction|].
    rewrite split_app by (apply free_white_tab; assumption).
    rewrite split_app by (apply free_white_tab; assumption). reflexivity. }
  assert (L3 : (List.length (split tab (exportLine note)) <? 3)%nat = false).
  { rewrite C. pose proof (split_nonempty tab (trimEnd l)) as N.
    destruct (split tab (trimEnd l)); [contradiction|reflexivity]. }
  assert (Pc : split "-" (S ++ "-" ++ F) = [S; F]).
  { cbn [append]. rewrite split_app by assumption.
    rewrite split_free by assumption. reflexivity. }
  apply Qabs_Qle_condition in Q1, Q2.
  exists (mkNote (ofInt (Z.of_nat idx + 1)) r1 (r2 - r1) (Some (Note.pitch note))
                 (Music.getMidiNoteNameOnly (Note.pitch note))
                 (Some (Music.midiToFrequency (Note.pitch note))) 80
                 (Some (trim l))), r2.
  split; [|split; [|split]].
  - unfold parseLine. rewrite L3, C. cbn [nth skipn]. rewrite Pc.
    cbn [nth_error]. rewrite T1, T2. cbn [andThen]. rewrite Pm.
    cbn [andThen midi name option_map].
    rewrite join_split, trim_trimEnd.
    destruct (String.eqb_spec (trim l) EmptyString) as [K|_]; [contradiction|].
    reflexivity.
  - unfold readAs.
    cbn [noteId time noteDuration pitch noteName frequency velocity lyric].
    replace (Z.of_nat (Datatypes.S idx)) with (Z.of_nat idx + 1)%Z by lia.
    split; [reflexivity|].
    split; [apply Qabs_Qle_condition; lra|].
    split; [apply Qabs_Qle_condition; lra|].
    repeat split; reflexivity.
  - apply Qabs_Qle_condition. lra.
  - cbn [time noteDuration]. ring.
Qed.

(** X20.  A note with a lyric is read back to the millisecond: when its
    start and its end lie between 0 and [10^9] seconds with at most 0.999
    after the whole seconds, and its pitch lies in the octaves 0 to 9,
    the import reads the exported line as a note whose start and end are
    less than a millisecond from the note's and whose duration is less
    than two milliseconds from the note's, with the same pitch, the name
    and the frequency recomputed from the pitch, the velocity 80, the
    lyric trimmed, and the line number as its id. *)
Theorem note_with_lyric_is_read_back (M : MathLib) (note : Note.t) (idx : nat) l :
  Note.lyric note = Some l -> trim l <> EmptyString ->
  stampable (Note.time note) ->
  stampable (Note.time note + Note.duration note) ->
  (12 <= Note.pitch note <= 131)%Z ->
  exists imported end_,
    parseLine idx (exportLine note) = Returns (Some (imported, end_)) /\
    noteId imported = ofInt (Z.of_nat idx + 1) /\
    Qabs (time imported - Note.time note) <= 1 # 1000 /\
    Qabs (noteDuration imported - Note.duration note) <= 2 # 1000 /\
    Qabs (end_ - (Note.time note + Note.duration note)) <= 1 # 1000 /\
    pitch imported = Some (Note.pitch note) /\
    noteName imported = Music.getMidiNoteNameOnly (Note.pitch note) /\
    frequency imported = Some (Music.midiToFrequency (Note.pitch note)) /\
    velocity imported = 80%Z /\
    lyric imported = Some (trim l).
Proof.
  intros Hl Hb Ht He Hp.
  assert (Hb' : trim (lyricOf note) <> EmptyString)
    by (unfold lyricOf; rewrite Hl; assumption).
  destruct (line_read_back note idx Hb' Ht He Hp)
    as (imported & end_ & P & A & Qe & _).
  exists imported, end_. unfold readAs, lyricOf in A. rewrite Hl in A.
  replace (Z.of_nat (S idx)) with (Z.of_nat idx + 1)%Z in A by lia.
  tauto.
Qed.

Lemma note_with_lyric_is_read_back_witness :
  exists imported end_,
    parseLine (M := ref_math) 1
              (exportLine (Note.mk "a" (1 # 10) (2 # 10) 61 None 440 100
                                   (Some "Twin"%string)))
    = Returns (Some (imported, end_)) /\
    noteId imported = ofInt (Z.of_nat 1 + 1) /\
    Qabs (time imported - (1 # 10)) <= 1 # 1000 /\
    Qabs (noteDuration imported - (2 # 10)) <= 2 # 1000 /\
    Qabs (end_ - ((1 # 10) + (2 # 10))) <= 1 # 1000 /\
    pitch imported = Some 61%Z /\
    noteName imported = Music.getMidiNoteNameOnly 61 /\
    frequency imported = Some (Music.midiToFrequency 61) /\
    velocity imported = 80%Z /\
    lyric imported = Some (trim "Twin").
Proof.
  apply (note_with_lyric_is_read_back ref_math
           (Note.mk "a" (1 # 10) (2 # 10) 61 None 440 100 (Some "Twin"%string))
           1 "Twin").
  - reflexivity.
  - vm_compute. discriminate.
  - split; [split|]; vm_compute; discriminate.
  - split; [split|]; vm_compute; discriminate.
  - cbn. lia.
Defined.

End LineFacts.

(** ** A song through the export and the import *)

Module SongFacts.
Import Str SongText TextSpec StrFacts StampFacts LineFacts.

Lemma split_join sep pieces :
  pieces <> [] -> Forall (free (Ascii.eqb sep)) pieces ->
  split sep (join sep pieces) = pieces.
Proof.
  unfold join. induction pieces as [|p ps IH]; [contradiction|].
  intros _ F. inversion F as [|? ? Fp Fps]; subst.
  destruct ps as [|q ps]; [apply split_free; assumption|].
  rewrite concat_cons by discriminate. cbn [append].
  rewrite split_app by assumption. rewrite IH by (discriminate || assumption).
  reflexivity.
Qed.

Lemma free_join p sep pieces :
  p sep = false -> Forall (free p) pieces -> free p (join sep pieces).
Proof.
  intros Hs. unfold join. induction pieces as [|x xs IH]; intros F; [reflexivity|].
  inversion F as [|? ? Fx Fxs]; subst.
  destruct xs as [|y ys]; [assumption|].
  rewrite concat_cons by discriminate. apply free_app. split; [assumption|].
  cbn [append]. apply free_cons. split; [assumption|]. apply IH, Fxs.
Qed.

Lemma replaceCRLF_free text :
  free (Ascii.eqb carriageReturn) text -> replaceCRLF text = text.
Proof.
  induction text as [|c rest IH]; [reflexivity|]. intros F.
  apply free_cons in F as [Hc Hr]. rewrite Ascii.eqb_sym in Hc.
  cbn [replaceCRLF]. rewrite Hc. cbn [andb].
  destruct rest; [reflexivity|]. rewrite (IH Hr). reflexivity.
Qed.

Lemma free_trimEnd p s : free p s -> free p (trimEnd s).
Proof.
  induction s as [|c s IH]; [intros; reflexivity|]. intros F.
  apply free_cons in F as [Hc Hs]. specialize (IH Hs). cbn [trimEnd].
  destruct (trimEnd s).
  - destruct (isWhiteSpace c); [reflexivity|].
    apply free_cons. split; [assumption|reflexivity].
  - apply free_cons. split; assumption.
Qed.

Lemma free_lineBreak s :
  free isLineBreak s
  <-> free (Ascii.eqb lineFeed) s /\ free (Ascii.eqb carriageReturn) s.
Proof.
  unfold free, isLineBreak. rewrite !forallb_forall. split.
  - intros H. split; intros c Hc; specialize (H c Hc);
      rewrite negb_orb, andb_true_iff in H; destruct H as [A B];
      rewrite Ascii.eqb_sym; assumption.
  - intros [A B] c Hc. specialize (A c Hc). specialize (B c Hc).
    rewrite negb_orb, andb_true_iff. rewrite Ascii.eqb_sym in A, B. tauto.
Qed.

Lemma free_white_lineBreak s : free isWhiteSpace s -> free isLineBreak s.
Proof.
  unfold free. rewrite !forallb_forall. intros H c Hc. specialize (H c Hc).
  unfold isLineBreak.
  destruct (Ascii.eqb_spec c lineFeed) as [->|]; [discriminate H|].
  destruct (Ascii.eqb_spec c carriageReturn) as [->|]; [discriminate H|].
  reflexivity.
Qed.

(** A line of the export has no line break inside and is not blank. *)
Lemma exportLine_line (note : Note.t) :
  free isLineBreak (lyricOf note) ->
  free isLineBreak (exportLine note) /\
  (0 <? String.length (trim (exportLine note)))%nat = true.
Proof.
  intros Fl.
  pose proof (exportLine_shape note) as E. cbv zeta in E.
  fold (lyricOf note) in E.
  destruct (range_free (Note.time note) (Note.time note + Note.duration note))
    as [R1 R2].
  destruct (noteName_free (Note.pitch note)) as [P1 _].
  pose proof (free_trimEnd _ _ Fl) as Fk.
  set (R := (formatTime (Note.time note) ++ "-"
             ++ formatTime (Note.time note + Note.duration note))%string) in *.
  split.
  - rewrite E. destruct (trimEnd (lyricOf note)) as [|c kept].
    + apply free_app. split; [apply free_white_lineBreak, R1|].
      apply free_cons. split; [reflexivity|apply free_white_lineBreak, P1].
    + apply free_app. split; [apply free_white_lineBreak, R1|].
      apply free_cons. split; [reflexivity|].
      apply free_app. split; [apply free_white_lineBreak, P1|].
      apply free_cons. split; [reflexivity|exact Fk].
  - apply Nat.ltb_lt.
    assert (N : trim (exportLine note) <> EmptyString).
    { intros T. apply (proj1 (trim_empty _)) in T.
      apply (proj1 (trimEnd_empty _)) in T.
      assert (X : exists c rest, exportLine note = String c rest
                                 /\ isWhiteSpace c = false).
      { destruct R as [|c R]; [contradiction|].
        apply free_cons in R1 as [Hc _]. rewrite E.
        destruct (trimEnd (lyricOf note)); eexists _, _; (split; [reflexivity|assumption]). }
      destruct X as (c & rest & Ec & Hc). rewrite Ec in T.
      cbn [list_ascii_of_string forallb] in T. rewrite Hc in T. discriminate T. }
    destruct (trim (exportLine note)); [contradiction|cbn; lia].
Qed.

Lemma filter_all {A} (f : A -> bool) l :
  Forall (fun x => f x = true) l -> filter f l = l.
Proof.
  induction 1 as [|x l Hx _ IH]; [reflexivity|]. cbn [filter].
  rewrite Hx, IH. reflexivity.
Qed.

(** The loop over the lines of the export. *)
Lemma parseLines_exported {M : MathLib} (notes : list Note.t) :
  Forall exportable notes ->
  forall idx acc maxTime,
  exists imported maxTime',
    parseLines idx (List.map exportLine notes) acc maxTime
    = Returns ((acc ++ imported)%list, maxTime') /\
    readBack (S idx) notes imported /\
    maxTime <= maxTime' /\
    Forall (fun n => time n + noteDuration n <= maxTime') imported.
Proof.
  induction 1 as [|note notes [Hf Hn] _ IH]; intros idx acc maxTime.
  - exists [], maxTime. cbn [List.map parseLines]. rewrite app_nil_r.
    repeat split; [constructor | lra | constructor].
  - cbn [List.map parseLines].
    destruct (String.eqb_spec (trim (lyricOf note)) EmptyString) as [Hb|Hb].
    + destruct (line_skipped note idx Hb) as [_ P].
      rewrite P. cbn [andThen].
      destruct (IH (S idx) acc maxTime) as (imported & mt & E & R & L & F).
      exists imported, mt. repeat split; try assumption.
      apply readBack_skip; assumption.
    + destruct (Hn Hb) as (Ht & He & Hp).
      destruct (line_read_back note idx Hb Ht He Hp)
        as (first & end_ & P & A & _ & Qe).
      rewrite P. cbn [andThen].
      destruct (IH (S idx) (acc ++ [first])%list
                   (if JS.Qlt_bool maxTime end_ then end_ else maxTime))
        as (imported & mt & E & R & L & F).
      exists (first :: imported), mt.
      rewrite <- List.app_assoc in E. cbn [app] in E.
      assert (Lm : maxTime <= mt /\ end_ <= mt).
      { destruct (JS.Qlt_bool maxTime end_) eqn:C; qbool; split; lra. }
      repeat split; try tauto.
      * apply readBack_keep; assumption.
      * constructor; [|assumption]. rewrite Qe. tauto.
Qed.

Lemma includes_free c s : free (Ascii.eqb c) s -> includes c s = false.
Proof.
  unfold free, includes. induction (list_ascii_of_string s) as [|x l IH];
    [reflexivity|].
  cbn [forallb existsb]. rewrite andb_true_iff, negb_true_iff.
  intros [Hx Hl]. rewrite Hx, (IH Hl). reflexivity.
Qed.

Lemma trim_blank s :
  trim s = EmptyString <-> forallb isWhiteSpace (list_ascii_of_string s) = true.
Proof. rewrite trim_empty. apply trimEnd_empty. Qed.

Lemma trim_app_not_blank a b :
  trim a <> EmptyString -> trim (a ++ b) <> EmptyString.
Proof.
  intros Ha Hab. apply Ha. apply trim_blank. apply trim_blank in Hab.
  rewrite chars_app, forallb_app, andb_true_iff in Hab. tauto.
Qed.

(** X21.  A song through the export and the import: when the title and
    the artist have no tab and no line break, the title is not blank and
    has no dash, and every note is exportable, the import of the exported
    text succeeds; it gives back the title and the artist trimmed, and of
    the notes exactly those whose lyric is not blank, in order, each with
    its start to the millisecond, its duration to two milliseconds, its
    pitch and its trimmed lyric, and with its line number in the text as
    its id; the duration of the imported song lies at least a second
    after the end of every imported note. *)
Theorem song_round_trip (M : MathLib) (song : Song) (dateNow : Z) :
  free isLineBreak (title song) -> free (Ascii.eqb tab) (title song) ->
  free (Ascii.eqb "-") (title song) -> trim (title song) <> EmptyString ->
  free isLineBreak (artist song) -> free (Ascii.eqb tab) (artist song) ->
  Forall exportable (notes song) ->
  exists imported,
    parseTextToSong (exportSongToText song) dateNow = Returns imported /\
    songTitle imported = trim (title song) /\
    songArtist imported = orElse (trim (artist song)) "Untitled author" /\
    readBack 2 (notes song) (songNotes imported) /\
    Forall (fun n => time n + noteDuration n + 1
                     <= inject_Z (songDuration imported))
           (songNotes imported).
Proof.
  intros Tl Tt Td Tb Al At Fn.
  set (header := (title song ++ String tab (artist song))%string).
  set (lines := List.map exportLine (notes song)).
  assert (Fl : Forall (fun l => free isLineBreak l
                                /\ (0 <? String.length (trim l))%nat = true)
                      (header :: lines)).
  { constructor.
    - split.
      + apply free_app. split; [assumption|].
        apply free_cons. split; [reflexivity|assumption].
      + apply Nat.ltb_lt.
        pose proof (trim_app_not_blank (title song) (String tab (artist song)) Tb) as N.
        fold header in N. destruct (trim header); [contradiction|cbn; lia].
    - unfold lines. apply Forall_map. eapply Forall_impl; [|exact Fn].
      intros note [Hf _]. apply exportLine_line, Hf. }
  assert (Ecr : replaceCRLF (exportSongToText song) = exportSongToText song).
  { apply replaceCRLF_free. unfold exportSongToText. cbv zeta.
    apply free_join; [reflexivity|].
    eapply Forall_impl; [|exact Fl]. intros l [H _].
    apply free_lineBreak in H. tauto. }
  assert (Esp : split lineFeed (exportSongToText song) = header :: lines).
  { unfold exportSongToText. cbv zeta. apply split_join; [discriminate|].
    eapply Forall_impl; [|exact Fl]. intros l [H _].
    apply free_lineBreak in H. tauto. }
  assert (Efi : filter (fun l => (0 <? String.length (trim l))%nat)
                       (header :: lines) = header :: lines).
  { apply filter_all. eapply Forall_impl; [|exact Fl]. intros l [_ H]. exact H. }
  assert (Ecols : split tab header = [title song; artist song]).
  { unfold header. rewrite split_app by assumption.
    rewrite split_free by assumption. reflexivity. }
  assert (Erange : isRangeLine header = false).
  { unfold isRangeLine. rewrite Ecols. cbn [nth].
    rewrite (includes_free "-" (title song) Td). cbn [negb].
    rewrite orb_true_r. reflexivity. }
  destruct (parseLines_exported (notes song) Fn 1 [] 0)
    as (imported & maxTime & Ep & Rb & _ & Fm).
  cbn [app] in Ep. fold lines in Ep.
  eexists. split.
  - unfold parseTextToSong. rewrite Ecr, Esp, Efi, Erange. cbn [negb].
    rewrite Ecols. cbn [nth]. rewrite Ep. cbn [andThen]. reflexivity.
  - cbn [songTitle songArtist songNotes songDuration].
    split.
    { unfold orElse. destruct (String.eqb_spec (trim (title song)) EmptyString);
        [contradiction|reflexivity]. }
    split; [reflexivity|]. split; [exact Rb|].
    eapply Forall_impl; [|exact Fm]. intros n Hn. cbv beta in Hn.
    pose proof (Qle_ceiling (maxTime + 2)). lra.
Qed.

Lemma song_round_trip_witness :
  let song :=
    mkSong "id" "My Song" "Me" 120 10 (4, 4)%Z "C Major"
           [Note.mk "1" (1 # 10) (2 # 10) 61 None 277 80 (Some "Twin kle "%string);
            Note.mk "2" (1 # 3) 1 60 None 261 80 None;
            Note.mk "3" (4 # 3) (1 # 7) 64 None 329 80 (Some "star"%string)] in
  exists imported,
    parseTextToSong (M := ref_math) (exportSongToText song) 7 = Returns imported /\
    songTitle imported = trim (title song) /\
    songArtist imported = orElse (trim (artist song)) "Untitled author" /\
    readBack 2 (notes song) (songNotes imported) /\
    Forall (fun n => time n + noteDuration n + 1
                     <= inject_Z (songDuration imported))
           (songNotes imported).
Proof.
  cbv zeta.
  apply (song_round_trip ref_math
           (mkSong "id" "My Song" "Me" 120 10 (4, 4)%Z "C Major"
                   [Note.mk "1" (1 # 10) (2 # 10) 61 None 277 80 (Some "Twin kle "%string);
                    Note.mk "2" (1 # 3) 1 60 None 261 80 None;
                    Note.mk "3" (4 # 3) (1 # 7) 64 None 329 80 (Some "star"%string)]) 7).
  - reflexivity.
  - reflexivity.
  - reflexivity.
  - vm_compute. discriminate.
  - reflexivity.
  - reflexivity.
  - constructor; [|constructor; [|constructor; [|constructor]]].
    + split; [reflexivity|]. intros _. split; [|split].
      * split; [split|]; vm_compute; discriminate.
      * split; [split|]; vm_compute; discriminate.
      * cbn. lia.
    + split; [reflexivity|]. intros H. exfalso. apply H. reflexivity.
    + split; [reflexivity|]. intros _. split; [|split].
      * split; [split|]; vm_compute; discriminate.
      * split; [split|]; vm_compute; discriminate.
      * cbn. lia.
Defined.

End SongFacts.

(** ** Keys *)

Module KeyFacts.
Import Str Key TextSpec StrFacts.

Lemma wrapped_semitone (n : Z) :
  (if (JS.rem n 12 <? 0)%Z then JS.rem n 12 + 12 else JS.rem n 12)%Z
  = (n mod 12)%Z.
Proof.
  unfold JS.rem.
  pose proof (Z.rem_bound_abs n 12 ltac:(lia)) as A.
  pose proof (Z.quot_rem' n 12) as Q.
  pose proof (Z.div_mod n 12 ltac:(lia)) as D.
  pose proof (Z.mod_pos_bound n 12 ltac:(lia)) as B.
  assert (S : (0 <= n -> 0 <= Z.rem n 12)%Z)
    by (intros H; apply Z.rem_nonneg; lia).
  assert (S' : (n < 0 -> Z.rem n 12 <= 0)%Z)
    by (intros H; apply Z.rem_nonpos; lia).
  destruct (Z.ltb_spec (Z.rem n 12) 0); lia.
Qed.

(** The new root, a name of the table without a space, and its number. *)
Lemma new_root (n : Z) :
  exists name,
    nth_error reverseKeyMap (Z.to_nat (n mod 12)) = Some name /\
    free (Ascii.eqb space) name /\
    SongText.lookup name keyMap = Some (n mod 12)%Z.
Proof.
  pose proof (Z.mod_pos_bound n 12 ltac:(lia)) as B.
  assert (C : (n mod 12 = 0 \/ n mod 12 = 1 \/ n mod 12 = 2 \/ n mod 12 = 3
               \/ n mod 12 = 4 \/ n mod 12 = 5 \/ n mod 12 = 6 \/ n mod 12 = 7
               \/ n mod 12 = 8 \/ n mod 12 = 9 \/ n mod 12 = 10
               \/ n mod 12 = 11)%Z) by lia.
  destruct C as [C|[C|[C|[C|[C|[C|[C|[C|[C|[C|[C|C]]]]]]]]]]]; rewrite C;
    eexists; (split; [reflexivity|split; reflexivity]).
Qed.

(** The shape of a transposed key with a known root. *)
Lemma transposeKey_known key semitones n :
  SongText.lookup (rootOf key) keyMap = Some n ->
  exists name,
    nth_error reverseKeyMap (Z.to_nat ((n + semitones) mod 12)) = Some name /\
    free (Ascii.eqb space) name /\
    SongText.lookup name keyMap = Some ((n + semitones) mod 12)%Z /\
    transposeKey key semitones
    = (name ++ " "
       ++ (if (1 <? List.length (split space key))%nat
           then join space (skipn 1 (split space key)) else "Major"))%string.
Proof.
  intros Hr. destruct (new_root (n + semitones)) as (name & N1 & N2 & N3).
  exists name. repeat split; try assumption.
  unfold transposeKey. cbv zeta. fold (rootOf key). rewrite Hr.
  rewrite wrapped_semitone, N1. reflexivity.
Qed.

(** X22.  Keys with a known root transpose like pitch classes: the
    result is the sharp spelling of the root moved by the semitones modulo
    12, followed by the mode ([Major] when the key has none), so that
    transposing twice is transposing by the sum, and twelve semitones more
    change nothing. *)
Theorem transposeKey_composes (key : string) (a b : Z) :
  knownRoot key ->
  transposeKey (transposeKey key a) b = transposeKey key (a + b) /\
  transposeKey key (a + 12) = transposeKey key a /\
  knownRoot (transposeKey key a).
Proof.
  unfold knownRoot. intros Hk.
  destruct (SongText.lookup (rootOf key) keyMap) as [n|] eqn:Hr; [|contradiction].
  destruct (transposeKey_known key a n Hr) as (name & N1 & N2 & N3 & E).
  set (mode := if (1 <? List.length (split space key))%nat
               then join space (skipn 1 (split space key)) else "Major"%string) in *.
  assert (Sp : split space (transposeKey key a) = name :: split space mode).
  { rewrite E. cbn [append]. apply split_app. assumption. }
  assert (Hr' : SongText.lookup (rootOf (transposeKey key a)) keyMap
                = Some ((n + a) mod 12)%Z).
  { unfold rootOf. rewrite Sp. cbn [nth]. assumption. }
  assert (Mode : (if (1 <? List.length (split space (transposeKey key a)))%nat
                  then join space (skipn 1 (split space (transposeKey key a)))
                  else "Major"%string) = mode).
  { rewrite Sp. cbn [List.length skipn].
    pose proof (split_nonempty space mode) as Hn.
    destruct (split space mode) eqn:Es; [contradiction|].
    cbn [List.length Nat.ltb Nat.leb]. rewrite <- Es. apply join_split. }
  split; [|split].
  - destruct (transposeKey_known _ b _ Hr') as (name2 & M1 & _ & _ & E2).
    destruct (transposeKey_known key (a + b) n Hr) as (name3 & K1 & _ & _ & E3).
    rewrite E2, E3, Mode. fold mode.
    replace (((n + a) mod 12 + b) mod 12)%Z with ((n + (a + b)) mod 12)%Z in M1
      by (rewrite Zplus_mod_idemp_l; f_equal; lia).
    congruence.
  - destruct (transposeKey_known key (a + 12) n Hr) as (name3 & K1 & _ & _ & E3).
    rewrite E3, E. fold mode.
    replace ((n + (a + 12)) mod 12)%Z with ((n + a) mod 12)%Z in K1
      by (replace (n + (a + 12))%Z with (n + a + 1 * 12)%Z by lia;
          rewrite Z.mod_add by lia; reflexivity).
    congruence.
  - rewrite Hr'. discriminate.
Qed.

Lemma transposeKey_composes_witness :
  transposeKey (transposeKey "Db Minor" 3) (-5) = transposeKey "Db Minor" (3 + -5) /\
  transposeKey "Db Minor" (3 + 12) = transposeKey "Db Minor" 3 /\
  knownRoot (transposeKey "Db Minor" 3).
Proof.
  apply (transposeKey_composes "Db Minor" 3 (-5)). vm_compute. discriminate.
Defined.

End KeyFacts.

(** ** The playback and the lookup *)

Module PlaybackFacts.
Import JS Analyzer App Playback.

(** X25.  A playback that is completed has passed through the times at
    which the lookup throws: when it starts at a time that is not negative
    and at least two seconds before the song's duration, and no frame
    advances the time by two seconds or more, then before the frame that
    completes the song some frame leaves the timeline playing at a time in
    the last two seconds of the duration, where the lookup of the tick
    throws from every cursor. *)
Theorem completed_playback_met_the_failing_lookup (M : MathLib)
        playbackRate notes noteHits dateNow start dts :
  notes <> [] ->
  isPlaying start = true ->
  0 <= currentTime start <= inject_Z (calculateSongDuration notes) - 2 ->
  Forall (fun dt =>
            0 <= dt * match playbackRate with Some r => r | None => 1 end < 2)
         dts ->
  forall final results,
    In (final, Some results)
       (frames playbackRate notes noteHits dateNow start dts) ->
    exists state,
      In (state, None) (frames playbackRate notes noteHits dateNow start dts) /\
      isPlaying state = true /\
      inject_Z (calculateSongDuration notes) - 2 < currentTime state
      < inject_Z (calculateSongDuration notes) /\
      forall semitones idx0,
        (idx0 <= List.length notes)%nat ->
        locateTarget notes semitones (Fin (currentTime state)) idx0
        = Throw TypeError.
Proof.
  intros Hne Hp Ht Hd. revert start Hp Ht.
  induction Hd as [|dt dts [D0 D2] _ IH]; intros start Hp Ht final results Hin;
    [destruct Hin|].
  cbn [frames] in *. rewrite Hp in *. cbv zeta in *.
  unfold advanceTimeline in *. cbv zeta in *.
  set (D := calculateSongDuration notes) in *.
  set (rate := match playbackRate with Some r => r | None => 1 end) in *.
  set (newTime := Qmax 0 (currentTime start + dt * rate)) in *.
  assert (Hn : 0 <= newTime < inject_Z D).
  { unfold newTime.
    destruct (Q.max_spec 0 (currentTime start + dt * rate)) as [[L E]|[L E]];
      lra. }
  assert (Hc : Qle_bool (inject_Z D) newTime = false)
    by (apply Qle_bool_false; lra).
  rewrite Hc in *. cbn [fst] in *.
  destruct Hin as [Hin|Hin]; [discriminate Hin|].
  destruct (Qlt_le_dec (inject_Z D - 2) newTime) as [Hz|Hz].
  - eexists. split; [left; reflexivity|]. cbn [isPlaying currentTime].
    split; [assumption|]. split; [lra|].
    intros semitones idx0 Hi. apply AppFacts.lookup_throws_late; assumption.
  - destruct (IH (mkTimeline newTime (isPlaying start) (scrollPosition start)
                             (zoom start) (viewportWidth start))
                 Hp ltac:(cbn [currentTime]; lra) final results Hin)
      as (state & S1 & S2).
    exists state. split; [right; exact S1|exact S2].
Qed.

Lemma completed_playback_met_the_failing_lookup_witness :
  exists state,
    In (state, None)
       (frames None [Examples.noteA; Examples.noteB] [] 0
               (mkTimeline 0 true 0 50 800) [1; 1; 1; 1]) /\
    isPlaying state = true /\
    inject_Z (calculateSongDuration [Examples.noteA; Examples.noteB]) - 2
    < currentTime state
    < inject_Z (calculateSongDuration [Examples.noteA; Examples.noteB]) /\
    forall semitones idx0,
      (idx0 <= List.length [Examples.noteA; Examples.noteB])%nat ->
      locateTarget [Examples.noteA; Examples.noteB] semitones
                   (Fin (currentTime state)) idx0
      = Throw TypeError.
Proof.
  apply (completed_playback_met_the_failing_lookup ref_math None
           [Examples.noteA; Examples.noteB] [] 0 (mkTimeline 0 true 0 50 800)
           [1; 1; 1; 1]
           ltac:(discriminate) eq_refl
           ltac:(vm_compute; split; discriminate)
           ltac:(repeat (constructor;
                         [vm_compute; split; [discriminate|reflexivity]|]);
                 constructor)
           (mkTimeline 0 false 0 50 800)
           (songResults [Examples.noteA; Examples.noteB] [] 0)).
  vm_compute. right. right. right. left. reflexivity.
Defined.

End PlaybackFacts.

(** ** The history buffer stays short *)

Module HistoryFacts.
Import JS Analyzer Session.

(** A tick that buffers a point at least 100 ms after the last flush
    flushes. *)
Lemma due_flush {M : MathLib} props refs i :
  pointOf props refs i <> [] ->
  (lastHistoryFlushTsRef refs + HISTORY_FLUSH_MS <= now i)%Z ->
  historyBufferRef (fst (step props refs i)) = [].
Proof.
  unfold pointOf, completes, step, tick. intros Hp Hd.
  destruct (pitchResult i) as [pr|]; [|contradiction Hp; reflexivity].
  destruct (playbackTime i) as [tq| | |]; try (contradiction Hp; reflexivity).
  destruct (locateTarget (notes props) (transpositionSemitones props) (Fin tq)
                         (currentNoteIndexRef refs)) as [[idx target]|e];
    [|contradiction Hp; reflexivity].
  destruct (arbitrate _ _ _) as [held hits]. cbn [fst historyBufferRef].
  assert (E : (now i - lastHistoryFlushTsRef refs >=? HISTORY_FLUSH_MS)%Z = true)
    by (apply Z.geb_le; lia).
  rewrite E. destruct (historyBufferRef refs); reflexivity.
Qed.

Lemma pointOf_short {M : MathLib} props refs i :
  pointOf props refs i = [] \/ exists p, pointOf props refs i = [p].
Proof.
  unfold pointOf. destruct (pitchResult i); [|left; reflexivity].
  destruct (playbackTime i); try (left; reflexivity).
  destruct (completes props refs i); [right; eexists; reflexivity|left; reflexivity].
Qed.

(** One tick, as the buffer sees it. *)
Lemma step_history {M : MathLib} props refs i :
  let refs' := fst (step props refs i) in
  let evs := snd (step props refs i) in
  ((lastHistoryFlushTsRef refs + HISTORY_FLUSH_MS <= now i)%Z /\
   lastHistoryFlushTsRef refs' = now i /\
   historyBufferRef refs' = [] /\
   (List.length (historyOf evs) <= List.length (historyBufferRef refs) + 1)%nat)
  \/
  (lastHistoryFlushTsRef refs' = lastHistoryFlushTsRef refs /\
   historyOf evs = [] /\
   (historyBufferRef refs' = historyBufferRef refs \/
    (now i < lastHistoryFlushTsRef refs + HISTORY_FLUSH_MS)%Z /\
    exists p, historyBufferRef refs' = historyBufferRef refs ++ [p])).
Proof.
  cbv zeta.
  destruct (ThrottleFacts.step_channels props refs i)
    as (uiDue & flushDue & C & _ & F). cbv zeta in C, F.
  destruct C as [_ _ Ch].
  destruct (pointOf_short props refs i) as [Ep|[p Ep]]; rewrite Ep in *.
  - rewrite app_nil_r in *. destruct flushDue.
    + left. destruct F as (F1 & F2 & F3). unfold apart in F1.
      repeat split; try assumption. rewrite Ch. lia.
    + right. destruct F as (F1 & F2). repeat split; try assumption.
      left. assumption.
  - destruct flushDue.
    + left. destruct F as (F1 & F2 & F3). unfold apart in F1.
      repeat split; try assumption. rewrite Ch, length_app. cbn. lia.
    + right. destruct F as (F1 & F2). repeat split; try assumption.
      right. split; [|exists p; assumption].
      destruct (Z_lt_le_dec (now i) (lastHistoryFlushTsRef refs + HISTORY_FLUSH_MS))
        as [Hlt|Hge]; [assumption|].
      assert (Hp : pointOf props refs i <> []) by (rewrite Ep; discriminate).
      pose proof (due_flush props refs i Hp Hge) as B. rewrite B in F2.
      destruct (historyBufferRef refs); discriminate F2.
Qed.

(** X26.  The history buffer stays short: when the clocks of the ticks
    are at least 50 ms apart, the first of them at least 50 ms after the
    last flush, and the buffer is empty at the start, then after any number
    of ticks the buffer holds at most one point, and no tick hands more
    than two points to the application. *)
Theorem history_buffer_stays_short (M : MathLib) props inputs :
  forall refs,
    historyBufferRef refs = [] ->
    Sorted (apart 50) (lastHistoryFlushTsRef refs :: List.map now inputs) ->
    (List.length (historyBufferRef (fst (run props refs inputs))) <= 1)%nat /\
    Forall (fun evs => (List.length (historyOf evs) <= 2)%nat)
           (snd (run props refs inputs)).
Proof.
  (* the invariant, [t] the clock of the last tick *)
  assert (Inv : forall inputs refs t,
             (lastHistoryFlushTsRef refs <= t)%Z ->
             (List.length (historyBufferRef refs) <= 1)%nat ->
             (historyBufferRef refs <> [] ->
              (lastHistoryFlushTsRef refs + 50 <= t)%Z) ->
             Sorted (apart 50) (t :: List.map now inputs) ->
             (List.length (historyBufferRef (fst (run props refs inputs))) <= 1)%nat /\
             Forall (fun evs => (List.length (historyOf evs) <= 2)%nat)
                    (snd (run props refs inputs))).
  { clear inputs. induction inputs as [|i rest IH]; intros refs t H1 H2 H3 Hs.
    - cbn [run fst snd]. split; [assumption|constructor].
    - rewrite GuardFacts.run_cons_fst, GuardFacts.run_cons_snd.
      cbn [List.map] in Hs. apply Sorted_inv in Hs as [Hs Hh].
      apply HdRel_inv in Hh. unfold apart in Hh.
      assert (P : (lastHistoryFlushTsRef (fst (step props refs i)) <= now i)%Z /\
                  (List.length (historyBufferRef (fst (step props refs i))) <= 1)%nat /\
                  (historyBufferRef (fst (step props refs i)) <> [] ->
                   (lastHistoryFlushTsRef (fst (step props refs i)) + 50
                    <= now i)%Z) /\
                  (List.length (historyOf (snd (step props refs i))) <= 2)%nat).
      { destruct (step_history props refs i)
          as [(S1 & S2 & S3 & S4)|(S1 & S2 & [S3|(S3 & p & S4)])].
        - rewrite S2, S3. split; [lia|]. split; [cbn; lia|].
          split; [intros N; contradiction|lia].
        - rewrite S1, S2, S3. split; [lia|]. split; [assumption|].
          split; [intros N; specialize (H3 N); lia|cbn; lia].
        - unfold HISTORY_FLUSH_MS in S3.
          assert (E : historyBufferRef refs = []).
          { destruct (historyBufferRef refs) eqn:B; [reflexivity|].
            assert (N : historyBufferRef refs <> []) by (rewrite B; discriminate).
            rewrite <- B in *. specialize (H3 N). lia. }
          rewrite S1, S2, S4, E. split; [lia|]. split; [cbn; lia|].
          split; [intros _; lia|cbn; lia]. }
      destruct P as (P1 & P2 & P3 & P4).
      destruct (IH (fst (step props refs i)) (now i) P1 P2 P3 Hs) as [I1 I2].
      split; [assumption|]. constructor; assumption. }
  intros refs Hb Hs.
  apply (Inv inputs refs (lastHistoryFlushTsRef refs)); try assumption.
  - lia.
  - rewrite Hb. cbn. lia.
  - intros N. rewrite Hb in N. contradiction.
Qed.

Lemma history_buffer_stays_short_witness :
  (List.length
     (historyBufferRef (fst (run Examples.song initialRefs Examples.tenTicksOnA)))
   <= 1)%nat /\
  Forall (fun evs => (List.length (historyOf evs) <= 2)%nat)
         (snd (run Examples.song initialRefs Examples.tenTicksOnA)).
Proof.
  apply (history_buffer_stays_short ref_math Examples.song Examples.tenTicksOnA
                                    initialRefs).
  - reflexivity.
  - cbn [lastHistoryFlushTsRef initialRefs Examples.tenTicksOnA List.map seq now].
    repeat (constructor; [|constructor; unfold apart; cbn; lia]).
    constructor.
Defined.

End HistoryFacts.

(** ** Snapshots at the tick interval *)

Module FreshnessFacts.
Import JS Analyzer Session Freshness.

(** A tick whose lookup completes at least 66 ms after the last snapshot
    emits one; a tick whose lookup throws emits none. *)
Lemma due_snapshot {M : MathLib} props refs i :
  (lastUIUpdateTsRef refs + UI_UPDATE_MS <= now i)%Z ->
  emitsSnapshot (snd (step props refs i)) = completes props refs i.
Proof.
  intros Hd. unfold completes, step, tick.
  assert (E : (now i - lastUIUpdateTsRef refs >=? UI_UPDATE_MS)%Z = true)
    by (apply Z.geb_le; lia).
  destruct (locateTarget (notes props) (transpositionSemitones props)
                         (playbackTime i) (currentNoteIndexRef refs))
    as [[idx target]|e]; [|reflexivity].
  destruct (pitchResult i) as [pr|].
  - destruct (arbitrate _ _ _) as [held hits]. cbn [snd]. rewrite E.
    unfold emitsSnapshot. rewrite !existsb_app. cbn [existsb isSnapshot].
    rewrite orb_true_r. reflexivity.
  - cbn [snd]. rewrite E. reflexivity.
Qed.

(** X27.  The snapshot throttle never holds back a tick of the 80 ms
    interval: when the clocks of the ticks are at least 66 ms apart, the
    first of them at least 66 ms after the last snapshot, every tick whose
    lookup completes emits a snapshot, and every tick whose lookup throws
    emits none, so that the display is not updated while the lookup
    fails. *)
Theorem every_completed_tick_is_shown (M : MathLib) props inputs :
  forall refs,
    Sorted (apart UI_UPDATE_MS) (lastUIUpdateTsRef refs :: List.map now inputs) ->
    showsEveryCompletedTick props refs inputs.
Proof.
  assert (Inv : forall inputs refs t,
             (lastUIUpdateTsRef refs <= t)%Z ->
             Sorted (apart UI_UPDATE_MS) (t :: List.map now inputs) ->
             showsEveryCompletedTick props refs inputs).
  { clear inputs. induction inputs as [|i rest IH]; intros refs t H1 Hs;
      cbn [showsEveryCompletedTick]; [exact I|].
    cbn [List.map] in Hs. apply Sorted_inv in Hs as [Hs Hh].
    apply HdRel_inv in Hh. unfold apart in Hh.
    split; [apply due_snapshot; lia|].
    apply (IH _ (now i)); [|assumption].
    destruct (ThrottleFacts.step_channels props refs i)
      as (uiDue & flushDue & _ & U & _). cbv zeta in U.
    destruct uiDue; [destruct U as [_ U]|]; rewrite U; unfold UI_UPDATE_MS in *; lia. }
  intros refs Hs. apply (Inv inputs refs (lastUIUpdateTsRef refs)); [lia|assumption].
Qed.

Lemma every_completed_tick_is_shown_witness :
  showsEveryCompletedTick Examples.song initialRefs Examples.tenTicksOnA.
Proof.
  apply (every_completed_tick_is_shown ref_math Examples.song
                                       Examples.tenTicksOnA initialRefs).
  cbn [lastUIUpdateTsRef initialRefs Examples.tenTicksOnA List.map seq now].
  repeat (constructor; [|constructor; unfold apart, UI_UPDATE_MS; cbn; lia]).
  constructor.
Defined.

End FreshnessFacts.
